(** * PyRectPacking: maximal-space rectangle bin packing

    A shallow embedding of [rect.py], [bin.py], [maxspace.py] and
    [solution.py], followed by the properties of the packing engine.

    Conventions of the embedding.
    - Python [int] is [Z]; list indices and loop counters are [nat].
    - Python objects are records; a method that mutates [self] returns the
      new record.  A method that may raise returns a [result]; the state a
      raising call leaves behind is kept for [evaluatePacking], [insert]
      and [pruneMaxSpaces], and dropped for the methods of the solution.
    - The items of the working list are distinct objects, so each is a
      value of its own; the bins of a solution likewise.
    - The float values the code computes are kept exact: a quotient of two
      integers is a rational ([Q]), and [math.sqrt] of an integer is kept
      by its radicand (see [Score]).  Comparisons between such values are
      the comparisons of the exact numbers, which is what the float
      comparisons give as long as the integers involved stay below 2^52.
      Where a result depends on the rounding, as the lower bound and the
      number of items removed do, and the order of two distances beyond
      that size, the expression is given a second time as Python computes
      it, in binary64 (see [Float64]); the name of such a definition ends
      in [64].
    - The draws of the module [random] are read off a tape (see [tape]). *)

From Stdlib Require Import ZArith QArith Qround Qpower Qabs Lia Lqa.
From stdpp Require Import base gmap list strings.

Local Open Scope Z_scope.

(** ** Exceptions and results *)

Inductive exn : Type :=
  | NameError (name : string)
  | ValueError (msg : string)
  | RuntimeError (msg : string)
  | TypeError
  | AttributeError
  | IndexError
  | ZeroDivisionError
  | OverflowError.

Inductive result (A : Type) : Type :=
  | Ok (a : A)
  | Raise (e : exn).

Arguments Ok {A} a.
Arguments Raise {A} e.

#[global] Instance result_ret : MRet result := fun _ a => Ok a.

#[global] Instance result_bind : MBind result := fun _ _ f m =>
  match m with
  | Ok a => f a
  | Raise e => Raise e
  end.


(** ** Scores

    [score1] and [score2] of a rectangle hold [float('inf')], an integer, or
    (for the corner-distance heuristic) [-math.sqrt(n)] for an integer
    [n >= 0]; the last is kept as [NegRoot n]. *)

Inductive Score : Type :=
  | Fin (z : Z)
  | NegRoot (sq : Z)
  | Inf.

Module Score.

(** [a < b] *)
Definition ltb (a b : Score) : bool :=
  match a, b with
  | Fin a, Fin b => a <? b
  | Fin a, NegRoot n => (a <? 0) && (n <? a * a)
  | NegRoot n, Fin b => (0 <? b) || (b * b <? n)
  | NegRoot n, NegRoot m => m <? n
  | Fin _, Inf | NegRoot _, Inf => true
  | Inf, _ => false
  end.

(** [a == b] *)
Definition eqb (a b : Score) : bool :=
  match a, b with
  | Fin a, Fin b => a =? b
  | Fin a, NegRoot n | NegRoot n, Fin a => (a <=? 0) && (a * a =? n)
  | NegRoot n, NegRoot m => n =? m
  | Inf, Inf => true
  | _, _ => false
  end.

End Score.

(** ** rect.py *)

Module Rect.

(** The attributes [area] and [_id] are never read by the packing code and
    are left out. *)
Record t : Type := mk {
  width : Z;
  height : Z;
  score1 : Score;
  score2 : Score;
  x : Z;
  y : Z
}.

(** [Rect(width, height)] *)
Definition new (width height : Z) : t :=
  {| width := width; height := height; score1 := Inf; score2 := Inf;
     x := -1; y := -1 |}.

Definition set_x (self : t) (v : Z) : t :=
  {| width := width self; height := height self; score1 := score1 self;
     score2 := score2 self; x := v; y := y self |}.

Definition set_y (self : t) (v : Z) : t :=
  {| width := width self; height := height self; score1 := score1 self;
     score2 := score2 self; x := x self; y := v |}.

Definition set_width (self : t) (v : Z) : t :=
  {| width := v; height := height self; score1 := score1 self;
     score2 := score2 self; x := x self; y := y self |}.

Definition set_height (self : t) (v : Z) : t :=
  {| width := width self; height := v; score1 := score1 self;
     score2 := score2 self; x := x self; y := y self |}.

Definition set_score1 (self : t) (v : Score) : t :=
  {| width := width self; height := height self; score1 := v;
     score2 := score2 self; x := x self; y := y self |}.

Definition set_score2 (self : t) (v : Score) : t :=
  {| width := width self; height := height self; score1 := score1 self;
     score2 := v; x := x self; y := y self |}.

Definition rotate (self : t) : t :=
  let tmp := width self in
  set_height (set_width self (height self)) tmp.

Definition isDegenerate (self : t) : bool :=
  (width self =? 0) || (height self =? 0).

Definition isReadyForPacking (self : t) : bool :=
  negb (x self =? -1) && negb (y self =? -1).

Definition removePackingInfo (self : t) : t :=
  set_score2 (set_score1 (set_y (set_x self (-1)) (-1)) Inf) Inf.

Definition isContainedIn (self rect : t) : bool :=
  (x self >=? x rect) && (y self >=? y rect)
  && (x self + width self <=? x rect + width rect)
  && (y self + height self <=? y rect + height rect).

Definition computeCommonLength (start1 end1 start2 end2 : Z) : Z :=
  if (start2 >=? end1) || (end2 <=? start1) then 0
  else Z.min end1 end2 - Z.max start1 start2.

Definition isOverlapping (self rect : t) : bool :=
  if negb ((x self >=? x rect + width rect) || (x self + width self <=? x rect))
  then
    if computeCommonLength (y self) (y self + height self)
                           (y rect) (y rect + height rect) >? 0
    then true
    else false
  else if negb ((y self >=? y rect + height rect)
                || (y self + height self <=? y rect))
  then
    if computeCommonLength (x self) (x self + width self)
                           (x rect) (x rect + width rect) >? 0
    then true
    else false
  else false.

(** [__lt__]: rectangles are ordered by area. *)
Definition lt (self other : t) : bool :=
  width self * height self <? width other * height other.

Definition computeCommonHorizLength (self rect : t) : Z :=
  let r1x1 := x self in
  let r1x2 := x self + width self in
  let r2x1 := x rect in
  let r2x2 := x rect + width rect in
  Z.min r1x2 r2x2 - Z.max r1x1 r2x1.

Definition computeCommonVertLength (self rect : t) : Z :=
  let r1y1 := y self in
  let r1y2 := y self + height self in
  let r2y1 := y rect in
  let r2y2 := y rect + height rect in
  Z.min r1y2 r2y2 - Z.max r1y1 r2y1.

(** The comparisons below are those of two rectangles; with any other
    operand [__eq__], [__lt__] and [__le__] return [False]. *)

(** [__eq__] *)
Definition eq (self other : t) : bool :=
  (width other =? width self) && (height other =? height self).

(** [__ne__] *)
Definition ne (self other : t) : bool := negb (eq self other).

(** [__le__] *)
Definition le (self other : t) : bool :=
  lt self other
  || (width self * height self =? width other * height other).

(** [__gt__] *)
Definition gt (self other : t) : bool :=
  negb (lt self other)
  && negb (width self * height self =? width other * height other).

(** [__ge__] *)
Definition ge (self other : t) : bool := negb (lt self other).

(** [__hash__]: the integer the method returns. *)
Definition hash (self : t) : Z :=
  let var := 7 in
  let var := 79 * var + width self in
  let var := 79 * var + height self in
  let var := 79 * var + x self in
  let var := 79 * var + y self in
  var.

End Rect.

(** ** bin.py *)

Inductive PackingHeuristic : Type :=
  | BestAreaFit
  | TouchingPerimeter
  | TopRightCornerDistance.

(** [a / b] on integers (true division), the quotient kept exact. *)
Definition truediv (a b : Z) : result Q :=
  if b =? 0 then Raise ZeroDivisionError
  else Ok (inject_Z a / inject_Z b)%Q.

(** [int(q)]: truncation toward zero. *)
Definition py_int (q : Q) : Z := Z.quot (Qnum q) (Z.pos (Qden q)).

(** ** Binary64 arithmetic

    The arithmetic of Python's [float], for the expressions of
    [solution.py] and [bin.py] whose result depends on the rounding.  A float is kept
    as the rational it stands for.  Every operation returns the binary64
    number nearest to the exact result, ties going to the one with an
    even significand.  A conversion [float(n)] or a quotient [a / b] of
    integers out of range raises [OverflowError]; a sum or a product out
    of range is an infinity in Python, which the [int()] closing each of
    the expressions modelled here turns into [OverflowError] as well, so
    it is raised at once. *)

Module Float64.

(** [2^e] for an integer exponent. *)
Definition pow2 (e : Z) : Q := (2 ^ e)%Q.

(** The binade of a positive rational [q]: the exponent [b] with
    [2^b <= q < 2^(b+1)]. *)
Definition binade (q : Q) : Z :=
  let e := Z.log2 (Qnum q) - Z.log2 (Z.pos (Qden q)) in
  if Qle_bool (pow2 e) q then e else e - 1.

(** The exponent of the unit in the last place of a positive [q]: 53
    significant bits from [2^-1022] on, multiples of [2^-1074] below. *)
Definition ulpExp (q : Q) : Z := Z.max (binade q) (-1022) - 52.

(** Rounding to the nearest integer, a tie to the even one. *)
Definition rne (q : Q) : Z :=
  let f := Qfloor q in
  match (q - inject_Z f ?= 1 # 2)%Q with
  | Lt => f
  | Gt => f + 1
  | Eq => if Z.even f then f else f + 1
  end.

(** Rounding to binary64, the exponent unbounded above. *)
Definition round64 (q : Q) : Q :=
  match Qnum q with
  | 0 => 0%Q
  | Z.pos _ =>
      let e := ulpExp q in
      Qred (inject_Z (rne (q / pow2 e)) * pow2 e)
  | Z.neg _ =>
      let e := ulpExp (- q) in
      Qred (- (inject_Z (rne (- q / pow2 e)) * pow2 e))
  end.

(** The float for the exact result [q]. *)
Definition ret (q : Q) : result Q :=
  let r := round64 q in
  if Qle_bool (pow2 1024) (Qabs r) then Raise OverflowError else Ok r.

(** The float a decimal literal denotes. *)
Definition lit (q : Q) : Q := round64 q.

(** [float(n)] *)
Definition of_int (n : Z) : result Q := ret (inject_Z n).

(** [a / b] on two integers *)
Definition truediv (a b : Z) : result Q :=
  if b =? 0 then Raise ZeroDivisionError
  else ret (inject_Z a / inject_Z b).

(** [x + y] and [x * y] on two floats *)
Definition add (x y : Q) : result Q := ret (x + y).

Definition mul (x y : Q) : result Q := ret (x * y).

(** [math.sqrt(x)] on a float: the square root rounded once.  For a
    positive [x] the root lies in the binade [binade x / 2]; with [u] the
    exponent of its unit in the last place, [x / 4^u] is an integer [N],
    and the root is [m * 2^u] for the integer [m] nearest to the square
    root of [N], which is never half way between two integers. *)
Definition sqrt (x : Q) : result Q :=
  match Qnum x with
  | 0 => Ok 0%Q
  | Z.neg _ => Raise (ValueError "math domain error")
  | Z.pos _ =>
      let u := binade x / 2 - 52 in
      let N := Qfloor (x / pow2 (2 * u)) in
      let s := Z.sqrt N in
      let m := if s <? N - s * s then s + 1 else s in
      Ok (Qred (inject_Z m * pow2 u))
  end.

(** The non-negative binary64 numbers, infinity apart: [k * 2^e] with a
    significand [k] of at most 53 bits. *)
Definition rep (g : Q) : Prop :=
  exists k e : Z,
    (g == inject_Z k * pow2 e)%Q /\ 0 <= k < 2 ^ 53 /\ -1074 <= e.

End Float64.

Module Bin.

Record t : Type := mk {
  binWidth : Z;
  binHeight : Z;
  occupiedArea : Z;
  touchingPerimeter : Z;
  packedRects : list Rect.t;
  freeRects : list Rect.t;
  canRotate : bool;
  packHeur : option PackingHeuristic
}.

(** [Bin(binWidth, binHeight)] *)
Definition new (binWidth binHeight : Z) : t :=
  {| binWidth := binWidth; binHeight := binHeight; occupiedArea := 0;
     touchingPerimeter := 0; packedRects := []; freeRects := [];
     canRotate := false; packHeur := None |}.

Definition set_freeRects (self : t) (v : list Rect.t) : t :=
  {| binWidth := binWidth self; binHeight := binHeight self;
     occupiedArea := occupiedArea self;
     touchingPerimeter := touchingPerimeter self;
     packedRects := packedRects self; freeRects := v;
     canRotate := canRotate self; packHeur := packHeur self |}.

Definition set_packHeur (self : t) (v : option PackingHeuristic) : t :=
  {| binWidth := binWidth self; binHeight := binHeight self;
     occupiedArea := occupiedArea self;
     touchingPerimeter := touchingPerimeter self;
     packedRects := packedRects self; freeRects := freeRects self;
     canRotate := canRotate self; packHeur := v |}.

Definition set_canRotate (self : t) (v : bool) : t :=
  {| binWidth := binWidth self; binHeight := binHeight self;
     occupiedArea := occupiedArea self;
     touchingPerimeter := touchingPerimeter self;
     packedRects := packedRects self; freeRects := freeRects self;
     canRotate := v; packHeur := packHeur self |}.

(** The part of [setup] that does not depend on the subclass:
    [packedRects = []], [occupiedArea = 0], [touchingPerimeter = 0]. *)
Definition reset (self : t) : t :=
  {| binWidth := binWidth self; binHeight := binHeight self;
     occupiedArea := 0; touchingPerimeter := 0;
     packedRects := []; freeRects := freeRects self;
     canRotate := canRotate self; packHeur := packHeur self |}.

Definition packRect (self : t) (rect : Rect.t) : t :=
  {| binWidth := binWidth self; binHeight := binHeight self;
     occupiedArea := occupiedArea self + Rect.width rect * Rect.height rect;
     touchingPerimeter := touchingPerimeter self;
     packedRects := packedRects self ++ [rect];
     freeRects := freeRects self;
     canRotate := canRotate self; packHeur := packHeur self |}.


Definition computeCommonLength (start1 end1 start2 end2 : Z) : Z :=
  if (start2 >=? end1) || (end2 <=? start1) then 0
  else Z.min end1 end2 - Z.max start1 start2.

Definition isOverlapping (rect1 rect2 : Rect.t) : bool :=
  let horizSkip :=
    (Rect.x rect1 >=? Rect.x rect2 + Rect.width rect2)
    || (Rect.x rect1 + Rect.width rect1 <=? Rect.x rect2) in
  let vertSkip :=
    (Rect.y rect1 >=? Rect.y rect2 + Rect.height rect2)
    || (Rect.y rect1 + Rect.height rect1 <=? Rect.y rect2) in
  negb (horizSkip || vertSkip).

(** One turn of the loop over [packedRects] in
    [computeTouchingPerimeter]. *)
Definition touchingStep (x y width height : Z) (perimeter : Z)
    (rect : Rect.t) : Z :=
  let perimeter :=
    if (Rect.x rect + Rect.width rect =? x) || (x + width =? Rect.x rect)
    then perimeter
         + computeCommonLength y (y + height)
             (Rect.y rect) (Rect.y rect + Rect.height rect)
    else perimeter in
  if (Rect.y rect =? y + height) || (Rect.y rect + Rect.height rect =? y)
  then perimeter
       + computeCommonLength x (x + width)
           (Rect.x rect) (Rect.x rect + Rect.width rect)
  else perimeter.

Definition computeTouchingPerimeter (self : t) (x y width height : Z) : Z :=
  let perimeter := 0 in
  let perimeter :=
    if (x =? 0) || (x + width =? binWidth self) then perimeter + height
    else perimeter in
  let perimeter :=
    if (y =? 0) || (y + height =? binHeight self) then perimeter + width
    else perimeter in
  foldl (touchingStep x y width height) perimeter (packedRects self).

(** [computeDistance] returns [math.sqrt] of this integer. *)
Definition computeDistanceSq (x1 y1 x2 y2 : Z) : Z :=
  (x1 - x2) * (x1 - x2) + (y1 - y2) * (y1 - y2).

(** [computeDistance] as Python computes it: [math.sqrt] turns the integer
    into a float and rounds the root of that. *)
Definition computeDistance64 (x1 y1 x2 y2 : Z) : result Q :=
  x ← Float64.of_int (computeDistanceSq x1 y1 x2 y2);
  Float64.sqrt x.

Definition getOccupancy (self : t) : result Q :=
  truediv (occupiedArea self) (binWidth self * binHeight self).

(** The loop over [j] in [isFeasible]. *)
Definition noneOverlapping (rect1 : Rect.t) (rest : list Rect.t) : bool :=
  forallb (fun rect2 => negb (Rect.isOverlapping rect1 rect2)) rest.

Fixpoint isFeasible_loop (self : t) (rects : list Rect.t) : bool :=
  match rects with
  | [] => true
  | rect1 :: rest =>
      if (Rect.x rect1 <? 0) || (Rect.x rect1 >? binWidth self) then false
      else if (Rect.y rect1 <? 0) || (Rect.y rect1 >? binHeight self)
      then false
      else if (Rect.x rect1 + Rect.width rect1 >? binWidth self)
              || (Rect.y rect1 + Rect.height rect1 >? binHeight self)
      then false
      else if negb (noneOverlapping rect1 rest) then false
      else isFeasible_loop self rest
  end.

Definition isFeasible (self : t) : bool :=
  isFeasible_loop self (packedRects self).

(** [int(self.occupiedArea)] *)
Definition getPackedArea (self : t) : Z := occupiedArea self.

(** The loop of [__eq__] over two lists of the same length: [flag] is
    cleared, and the loop left, at the first position where the items
    differ. *)
Fixpoint eq_loop (rects1 rects2 : list Rect.t) : bool :=
  match rects1, rects2 with
  | rect1 :: rects1, rect2 :: rects2 =>
      if Rect.ne rect1 rect2 then false else eq_loop rects1 rects2
  | _, _ => true
  end.

(** [__eq__] of two bins *)
Definition eq (self other : t) : bool :=
  if negb (length (packedRects self) =? length (packedRects other))%nat
  then false
  else eq_loop (packedRects self) (packedRects other).

(** [__ne__] *)
Definition ne (self other : t) : bool := negb (eq self other).

(** [__len__] *)
Definition len (self : t) : Z := Z.of_nat (length (packedRects self)).

End Bin.

(** ** maxspace.py *)

(** A [for i in range(len(l))] loop whose body reads [l[i]] and updates the
    loop variables [s]; [l] itself is not changed by the body. *)
Fixpoint for_enumerate {A St : Type} (body : St -> nat -> A -> St)
    (i : nat) (l : list A) (s : St) : St :=
  match l with
  | [] => s
  | a :: l' => for_enumerate body (S i) l' (body s i a)
  end.

(** The same loop with a body that may raise. *)
Fixpoint for_enumerate_r {A St : Type} (body : St -> nat -> A -> result St)
    (i : nat) (l : list A) (s : St) : result St :=
  match l with
  | [] => Ok s
  | a :: l' =>
      match body s i a with
      | Ok s' => for_enumerate_r body (S i) l' s'
      | Raise e => Raise e
      end
  end.

(** [a < b] on exact rationals. *)
Definition Qltb (a b : Q) : bool := negb (Qle_bool b a).

Module MaxSpaceBin.

(** Reading a name that is neither a local of the method nor a global of
    the module [maxspace] (whose globals are [copy], [Rect], [Bin],
    [PackingHeuristic], [Override] and [MaxSpaceBin]). *)
Definition unbound (name : string) : result Z := Raise (NameError name).

(** [MaxSpaceBin(binWidth, binHeight)] *)
Definition new (binWidth binHeight : Z) : Bin.t := Bin.new binWidth binHeight.

Definition setupFreeRects (self : Bin.t) : Bin.t :=
  let maxSpace := Rect.new (Bin.binWidth self) (Bin.binHeight self) in
  let maxSpace := Rect.set_x maxSpace 0 in
  let maxSpace := Rect.set_y maxSpace 0 in
  Bin.set_freeRects self ([] ++ [maxSpace]).

(** [Bin.setup], with [setupFreeRects] resolved to the override. *)
Definition setup (self : Bin.t) : Bin.t := Bin.reset (setupFreeRects self).

Definition init (self : Bin.t) : Bin.t := setup self.

(** The tail shared by the three [insert...] methods: build the candidate
    from the chosen space. *)
Definition candidate (self : Bin.t) (rect : Rect.t)
    (bestMaxSpaceIndex : Z) (isRotated : bool) (s1 s2 : Score)
    : result (option Rect.t) :=
  if bestMaxSpaceIndex =? -1 then Ok None
  else
    let newRect := Rect.new (Rect.width rect) (Rect.height rect) in
    let newRect := if isRotated then Rect.rotate newRect else newRect in
    match Bin.freeRects self !! Z.to_nat bestMaxSpaceIndex with
    | None => Raise IndexError
    | Some best =>
        let newRect := Rect.set_x newRect (Rect.x best) in
        let newRect := Rect.set_y newRect (Rect.y best) in
        let newRect := Rect.set_score1 newRect s1 in
        let newRect := Rect.set_score2 newRect s2 in
        Ok (Some newRect)
    end.

(** *** TopRightCornerDistance *)

Record CornerBest : Type := mkCornerBest {
  largestDist : Z;          (* -1, or the radicand of the largest distance *)
  cd_index : Z;             (* bestMaxSpaceIndex *)
  cd_rotated : bool         (* isRotated *)
}.

Definition cornerBody (self : Bin.t) (rect : Rect.t)
    (st : CornerBest) (i : nat) (maxSpace : Rect.t) : result CornerBest :=
  let st :=
    if (Rect.width rect <=? Rect.width maxSpace)
       && (Rect.height rect <=? Rect.height maxSpace)
    then
      let dist :=
        Bin.computeDistanceSq (Rect.x maxSpace + Rect.width rect)
          (Rect.y maxSpace + Rect.height rect)
          (Bin.binWidth self) (Bin.binHeight self) in
      if dist >? largestDist st
      then mkCornerBest dist (Z.of_nat i) false
      else st
    else st in
  if Bin.canRotate self
     && (Rect.height rect <=? Rect.width maxSpace)
     && (Rect.width rect <=? Rect.height maxSpace)
  then
    binWidth ← unbound "binWidth";
    binHeight ← unbound "binHeight";
    let dist :=
      Bin.computeDistanceSq (Rect.x maxSpace + Rect.height rect)
        (Rect.y maxSpace + Rect.width rect) binWidth binHeight in
    if dist >? largestDist st
    then Ok (mkCornerBest dist (Z.of_nat i) true)
    else Ok st
  else Ok st.

Definition insertTopRightCornerDistance (self : Bin.t) (rect : Rect.t)
    : result (option Rect.t) :=
  st ← for_enumerate_r (cornerBody self rect) 0 (Bin.freeRects self)
         (mkCornerBest (-1) (-1) false);
  candidate self rect (cd_index st) (cd_rotated st)
    (NegRoot (largestDist st)) Inf.

(** *** TouchingPerimeter *)

Record PerimeterBest : Type := mkPerimeterBest {
  largestTouchingPerimeter : Z;
  tp_index : Z;
  tp_rotated : bool
}.

Definition perimeterBody (self : Bin.t) (rect : Rect.t)
    (st : PerimeterBest) (i : nat) (maxSpace : Rect.t) : PerimeterBest :=
  let st :=
    if (Rect.width rect <=? Rect.width maxSpace)
       && (Rect.height rect <=? Rect.height maxSpace)
    then
      let perimeter :=
        Bin.computeTouchingPerimeter self (Rect.x maxSpace)
          (Rect.y maxSpace) (Rect.width rect) (Rect.height rect) in
      if perimeter >? largestTouchingPerimeter st
      then mkPerimeterBest perimeter (Z.of_nat i) false
      else st
    else st in
  if Bin.canRotate self
     && (Rect.height rect <=? Rect.width maxSpace)
     && (Rect.width rect <=? Rect.height maxSpace)
  then
    let perimeter :=
      Bin.computeTouchingPerimeter self (Rect.x maxSpace)
        (Rect.y maxSpace) (Rect.height rect) (Rect.width rect) in
    if perimeter >? largestTouchingPerimeter st
    then mkPerimeterBest perimeter (Z.of_nat i) true
    else st
  else st.

Definition insertTouchingPerimeter (self : Bin.t) (rect : Rect.t)
    : result (option Rect.t) :=
  let st := for_enumerate (perimeterBody self rect) 0 (Bin.freeRects self)
              (mkPerimeterBest (-1) (-1) false) in
  candidate self rect (tp_index st) (tp_rotated st)
    (Fin (- largestTouchingPerimeter st)) Inf.

(** *** BestAreaFit *)

Record AreaBest : Type := mkAreaBest {
  bestWastedArea : Score;
  bestShortSide : Score;
  ba_index : Z;
  ba_rotated : bool
}.

Definition areaBetter (wastedArea shortSide : Z) (st : AreaBest) : bool :=
  Score.ltb (Fin wastedArea) (bestWastedArea st)
  || (Score.eqb (Fin wastedArea) (bestWastedArea st)
      && Score.ltb (Fin shortSide) (bestShortSide st)).

Definition areaBody (self : Bin.t) (rect : Rect.t)
    (st : AreaBest) (i : nat) (maxSpace : Rect.t) : AreaBest :=
  let wastedArea :=
    Rect.width maxSpace * Rect.height maxSpace
    - Rect.width rect * Rect.height rect in
  let st :=
    if (Rect.width maxSpace >=? Rect.width rect)
       && (Rect.height maxSpace >=? Rect.height rect)
    then
      let horizLeftOver := Rect.width maxSpace - Rect.width rect in
      let vertLeftOver := Rect.height maxSpace - Rect.height rect in
      let shortSide := Z.min horizLeftOver vertLeftOver in
      if areaBetter wastedArea shortSide st
      then mkAreaBest (Fin wastedArea) (Fin shortSide) (Z.of_nat i) false
      else st
    else st in
  if Bin.canRotate self
     && (Rect.width maxSpace >=? Rect.height rect)
     && (Rect.height maxSpace >=? Rect.width rect)
  then
    let horizLeftOver := Rect.width maxSpace - Rect.height rect in
    let vertLeftOver := Rect.height maxSpace - Rect.width rect in
    let shortSide := Z.min horizLeftOver vertLeftOver in
    if areaBetter wastedArea shortSide st
    then mkAreaBest (Fin wastedArea) (Fin shortSide) (Z.of_nat i) true
    else st
  else st.

Definition insertBestArea (self : Bin.t) (rect : Rect.t)
    : result (option Rect.t) :=
  let st := for_enumerate (areaBody self rect) 0 (Bin.freeRects self)
              (mkAreaBest Inf Inf (-1) false) in
  candidate self rect (ba_index st) (ba_rotated st)
    (bestWastedArea st) (bestShortSide st).

(** *** evaluatePacking

    [heur] is [Some h] for a member of [PackingHeuristic] and [None] for
    any other value.  The method returns the bin (whose [packHeur] it may
    have set) together with its result. *)
Definition evaluatePacking (self : Bin.t) (rect : Rect.t)
    (heur : option PackingHeuristic) : Bin.t * result (option Rect.t) :=
  let self :=
    match Bin.packHeur self with
    | None => Bin.set_packHeur self heur
    | Some _ => self
    end in
  (self,
   match heur with
   | Some BestAreaFit => insertBestArea self rect
   | Some TouchingPerimeter => insertTouchingPerimeter self rect
   | Some TopRightCornerDistance => insertTopRightCornerDistance self rect
   | None => Raise (ValueError "Unkown packing heuristic")
   end).

(** *** generateNewMaxSpaces *)

(** The spaces appended for one free space that overlaps [rect]. *)
Definition residuals (freeRect rect : Rect.t) : list Rect.t :=
  (if (Rect.x rect <? Rect.x freeRect + Rect.width freeRect)
      && (Rect.x rect + Rect.width rect >? Rect.x freeRect)
   then
     (if (Rect.y rect >? Rect.y freeRect)
         && (Rect.y rect <? Rect.y freeRect + Rect.height freeRect)
      then [Rect.set_height freeRect (Rect.y rect - Rect.y freeRect)]
      else [])
     ++
     (if (Rect.y rect + Rect.height rect >? Rect.y freeRect)
         && (Rect.y rect + Rect.height rect
             <? Rect.y freeRect + Rect.height freeRect)
      then [Rect.set_height
              (Rect.set_y freeRect (Rect.y rect + Rect.height rect))
              (Rect.y freeRect + Rect.height freeRect
               - (Rect.y rect + Rect.height rect))]
      else [])
   else [])
  ++
  (if (Rect.y rect <? Rect.y freeRect + Rect.height freeRect)
      && (Rect.y rect + Rect.height rect >? Rect.y freeRect)
   then
     (if (Rect.x rect >? Rect.x freeRect)
         && (Rect.x rect <? Rect.x freeRect + Rect.width freeRect)
      then [Rect.set_width freeRect (Rect.x rect - Rect.x freeRect)]
      else [])
     ++
     (if (Rect.x rect + Rect.width rect >? Rect.x freeRect)
         && (Rect.x rect + Rect.width rect
             <? Rect.x freeRect + Rect.width freeRect)
      then [Rect.set_width
              (Rect.set_x freeRect (Rect.x rect + Rect.width rect))
              (Rect.x freeRect + Rect.width freeRect
               - (Rect.x rect + Rect.width rect))]
      else [])
   else []).

(** The [while i < numFreeRects] loop; every turn either advances [i] or
    lowers [numFreeRects], so [numFreeRects - i] turns are enough. *)
Fixpoint splitLoop (turns : nat) (rect : Rect.t) (freeRects : list Rect.t)
    (i numFreeRects : nat) : list Rect.t :=
  match turns with
  | O => freeRects
  | S turns =>
      if bool_decide (i < numFreeRects)%nat then
        match freeRects !! i with
        | None => freeRects
        | Some freeRect =>
            if negb (Bin.isOverlapping freeRect rect)
            then splitLoop turns rect freeRects (S i) numFreeRects
            else
              let freeRects := freeRects ++ residuals freeRect rect in
              let freeRects := delete i freeRects in
              splitLoop turns rect freeRects i (numFreeRects - 1)
        end
      else freeRects
  end.

Definition generateNewMaxSpaces (self : Bin.t) (rect : Rect.t) : Bin.t :=
  let numFreeRects := length (Bin.freeRects self) in
  Bin.set_freeRects self
    (splitLoop numFreeRects rect (Bin.freeRects self) 0 numFreeRects).

(** *** pruneMaxSpaces *)

(** The loop over [j]: [rest] is [freeRects[j:]]. *)
Fixpoint pruneInner (rectI : Rect.t) (i j : nat) (rest : list Rect.t)
    (toRemove : gset nat) : gset nat :=
  match rest with
  | [] => toRemove
  | rectJ :: rest =>
      if Rect.isContainedIn rectJ rectI
      then pruneInner rectI i (S j) rest ({[ j ]} ∪ toRemove)
      else if Rect.isContainedIn rectI rectJ
      then {[ i ]} ∪ toRemove
      else pruneInner rectI i (S j) rest toRemove
  end.

(** The loop over [i]: [rects] is [freeRects[i:]]. *)
Fixpoint pruneOuter (i : nat) (rects : list Rect.t) (toRemove : gset nat)
    : gset nat :=
  match rects with
  | [] => toRemove
  | rectI :: rest =>
      pruneOuter (S i) rest (pruneInner rectI i (S i) rest toRemove)
  end.

(** [[freeRects[i] for i in range(len(freeRects)) if i not in toRemove]] *)
Fixpoint keepUnmarked (toRemove : gset nat) (i : nat) (rects : list Rect.t)
    : list Rect.t :=
  match rects with
  | [] => []
  | r :: rest =>
      if bool_decide (i ∈ toRemove) then keepUnmarked toRemove (S i) rest
      else r :: keepUnmarked toRemove (S i) rest
  end.

Definition pruneMaxSpaces (self : Bin.t) : Bin.t * result unit :=
  let toRemove := pruneOuter 0 (Bin.freeRects self) ∅ in
  let tmp := keepUnmarked toRemove 0 (Bin.freeRects self) in
  let self := Bin.set_freeRects self tmp in
  (self,
   if bool_decide (length (Bin.freeRects self) = 0%nat) then
     occupancy ← Bin.getOccupancy self;
     if Qltb occupancy 1 then Raise (ValueError "Error") else Ok ()
   else Ok ()).

(** *** insert *)
Definition insert (self : Bin.t) (rect : Rect.t)
    (heuristic : option PackingHeuristic) : Bin.t * result bool :=
  let '(self, newRect) :=
    if negb (Rect.isReadyForPacking rect)
    then evaluatePacking self rect heuristic
    else (self, Ok (Some rect)) in
  match newRect with
  | Raise e => (self, Raise e)
  | Ok None => (self, Ok false)
  | Ok (Some newRect) =>
      let self := Bin.packRect self newRect in
      let self := generateNewMaxSpaces self newRect in
      let '(self, pruned) := pruneMaxSpaces self in
      (self, _ ← pruned; Ok true)
  end.

End MaxSpaceBin.

(** ** solution.py *)

(** The pseudo-random stream of the module [random]: the raw draws that
    successive calls will consume.  A computation that needs a draw when
    the tape has ended has no outcome ([None]). *)
Definition tape : Type := list N.

(** [rng.random()]: a multiple of 2^-53 in [0, 1). *)
Definition rng_random (t : tape) : option (Q * tape) :=
  match t with
  | [] => None
  | n :: t' => Some (Z.of_N (n mod 2 ^ 53)%N # 2 ^ 53, t')
  end.

(** [rng.randint(a, b)] for [a <= b]: an integer of [a..b]. *)
Definition rng_randint (a b : Z) (t : tape) : option (Z * tape) :=
  match t with
  | [] => None
  | n :: t' => Some (a + Z.of_N n mod (b - a + 1), t')
  end.

(** The start of the slice [l[start:]] for a list of length [len]. *)
Definition slice_start (start : Z) (len : nat) : nat :=
  if start <? 0 then Z.to_nat (Z.max (Z.of_nat len + start) 0)
  else Z.to_nat start.

Module RBPSolution.

Record t : Type := mk {
  binWidth : Z;
  binHeight : Z;
  binList : list Bin.t;
  rectList : option (list Rect.t);
  numRects : option Z;
  lowerbnd : option Z
}.

(** [RBPSolution(width, height)] *)
Definition new (width height : Z) : t :=
  {| binWidth := width; binHeight := height; binList := [];
     rectList := None; numRects := None; lowerbnd := None |}.

Definition set_binList (self : t) (v : list Bin.t) : t :=
  {| binWidth := binWidth self; binHeight := binHeight self; binList := v;
     rectList := rectList self; numRects := numRects self;
     lowerbnd := lowerbnd self |}.

Definition set_rectList (self : t) (v : option (list Rect.t)) : t :=
  {| binWidth := binWidth self; binHeight := binHeight self;
     binList := binList self; rectList := v; numRects := numRects self;
     lowerbnd := lowerbnd self |}.

Definition set_numRects (self : t) (v : option Z) : t :=
  {| binWidth := binWidth self; binHeight := binHeight self;
     binList := binList self; rectList := rectList self; numRects := v;
     lowerbnd := lowerbnd self |}.

Definition set_lowerbnd (self : t) (v : option Z) : t :=
  {| binWidth := binWidth self; binHeight := binHeight self;
     binList := binList self; rectList := rectList self;
     numRects := numRects self; lowerbnd := v |}.

Definition openNewBin (self : t) : Bin.t :=
  let newBin := MaxSpaceBin.new (binWidth self) (binHeight self) in
  MaxSpaceBin.init newBin.

Definition totalArea (rectList : list Rect.t) : Z :=
  foldl (fun area rect => area + Rect.width rect * Rect.height rect)
    0 rectList.

(** [computeLowerBound] with the quotient kept exact, which is what the
    method returns for a total area below 2^50 (see
    [computeLowerBound64]); [pack] is modelled with it. *)
Definition computeLowerBound (self : t) (rectList : option (list Rect.t))
    : result Z :=
  match rectList with
  | None => Raise TypeError
  | Some rectList =>
      let area := totalArea rectList in
      q ← truediv area (binWidth self * binHeight self);
      Ok (py_int (q + 1)%Q)
  end.

(** [computeLowerBound] as Python computes it:
    [int(area/(self.binWidth*self.binHeight) + 1)] with the quotient and
    the sum in binary64. *)
Definition computeLowerBound64 (self : t) (rectList : option (list Rect.t))
    : result Z :=
  match rectList with
  | None => Raise TypeError
  | Some rectList =>
      let area := totalArea rectList in
      q ← Float64.truediv area (binWidth self * binHeight self);
      s ← Float64.add q 1;
      Ok (py_int s)
  end.

(** *** pack *)

(** [bestBin] is kept as the index of the bin in [binList]; [bestBin]
    and [bestRect] are assigned together. *)
Record BestBin : Type := mkBestBin {
  bestValue1 : Score;
  bestValue2 : Score;
  best : option (nat * Rect.t)
}.

Definition better (newRect : Rect.t) (st : BestBin) : bool :=
  Score.ltb (Rect.score1 newRect) (bestValue1 st)
  || (Score.eqb (Rect.score1 newRect) (bestValue1 st)
      && Score.ltb (Rect.score2 newRect) (bestValue2 st)).

(** The loop [for abin in self.binList]: [bins] is the part of the list
    still to visit and [k] the index of its head.  It returns the bins
    as the evaluations left them and the best bin found. *)
Fixpoint chooseBin (heur : option PackingHeuristic) (curRect : Rect.t)
    (k : nat) (bins : list Bin.t) (st : BestBin)
    : result (list Bin.t * BestBin) :=
  match bins with
  | [] => Ok ([], st)
  | abin :: rest =>
      let curRect := Rect.removePackingInfo curRect in
      let '(abin, evaluated) :=
        MaxSpaceBin.evaluatePacking abin curRect heur in
      newRect ← evaluated;
      let st :=
        match newRect with
        | Some newRect =>
            if better newRect st
            then mkBestBin (Rect.score1 newRect) (Rect.score2 newRect)
                   (Some (k, newRect))
            else st
        | None => st
        end in
      '(rest, st) ← chooseBin heur curRect (S k) rest st;
      Ok (abin :: rest, st)
  end.

(** One turn of the loop [for curRect in self.rectList]: the new bin list
    and [curRect] as the turn leaves it ([removePackingInfo] updates the
    item of the working list in place). *)
Definition packOne (self : t) (heur : option PackingHeuristic)
    (binList : list Bin.t) (curRect : Rect.t)
    : result (list Bin.t * Rect.t) :=
  '(binList', st) ←
    chooseBin heur curRect 0 binList (mkBestBin Inf Inf None);
  let curRect :=
    match binList with
    | [] => curRect
    | _ :: _ => Rect.removePackingInfo curRect
    end in
  match best st with
  | Some (k, bestRect) =>
      match binList' !! k with
      | None => Raise IndexError
      | Some bestBin =>
          let '(bestBin, inserted) :=
            MaxSpaceBin.insert bestBin bestRect heur in
          _ ← inserted;
          Ok (<[k := bestBin]> binList', curRect)
      end
  | None =>
      let newBin := openNewBin self in
      let '(newBin, inserted) := MaxSpaceBin.insert newBin curRect heur in
      _ ← inserted;
      Ok (binList' ++ [newBin], curRect)
  end.

Fixpoint packLoop (self : t) (heur : option PackingHeuristic)
    (rects : list Rect.t) (binList : list Bin.t)
    : result (list Bin.t * list Rect.t) :=
  match rects with
  | [] => Ok (binList, [])
  | curRect :: rects =>
      '(binList, curRect) ← packOne self heur binList curRect;
      '(binList, rects) ← packLoop self heur rects binList;
      Ok (binList, curRect :: rects)
  end.

(** [not self.lowerbnd] *)
Definition noLowerBound (self : t) : bool :=
  match lowerbnd self with
  | None => true
  | Some l => l =? 0
  end.

(** [items] is the argument [rectList] ([None] when it is not given). *)
Definition pack (self : t) (items : option (list Rect.t))
    (heur : option PackingHeuristic) (first : bool) : result t :=
  let self := set_binList self [] in
  let self :=
    match items with
    | Some (_ :: _) => set_rectList self items
    | _ => self
    end in
  self ←
    (if noLowerBound self then
       match items with
       | None => Raise TypeError
       | Some l =>
           let self := set_numRects self (Some (Z.of_nat (length l))) in
           lb ← computeLowerBound self items;
           Ok (set_lowerbnd self (Some lb))
       end
     else Ok self);
  let self := set_binList self [] in
  let bins :=
    if negb first
    then replicate (Z.to_nat (default 0 (lowerbnd self))) (openNewBin self)
    else [openNewBin self] in
  match rectList self with
  | None => Raise TypeError
  | Some rects =>
      '(bins, rects) ← packLoop self heur rects bins;
      Ok (set_rectList (set_binList self bins) (Some rects))
  end.

(** *** perturb *)

Definition swap (subList : list Rect.t) (idx1 idx2 : nat)
    : result (list Rect.t) :=
  match subList !! idx1, subList !! idx2 with
  | Some r1, Some r2 => Ok (<[idx2 := r1]> (<[idx1 := r2]> subList))
  | _, _ => Raise IndexError
  end.

(** [while idx2 == idx1: idx2 = rng.randint(0, len(subList)-1)] *)
Fixpoint redraw (len : nat) (idx1 idx2 : Z) (tp : tape)
    : option (Z * tape) :=
  if idx2 =? idx1 then
    match tp with
    | [] => None
    | n :: tp' =>
        redraw len idx1 (0 + Z.of_N n mod (Z.of_nat len - 1 - 0 + 1)) tp'
    end
  else Some (idx2, tp).

(** What [perturb] hands back: the list, the rest of the tape, and the
    calls of [swap] it made, in order. *)
Definition Perturbed : Type := list Rect.t * tape * list (nat * nat).

(** The loop [for _ in range(number)]. *)
Fixpoint swaps (number : nat) (subList : list Rect.t) (tp : tape)
    : option (result Perturbed) :=
  match number with
  | O => Some (Ok (subList, tp, []))
  | S number =>
      '(idx1, tp) ← rng_randint 0 (Z.of_nat (length subList) - 1) tp;
      '(idx2, tp) ← rng_randint 0 (Z.of_nat (length subList) - 1) tp;
      '(idx2, tp) ← redraw (length subList) idx1 idx2 tp;
      match swap subList (Z.to_nat idx1) (Z.to_nat idx2) with
      | Raise e => Some (Raise e)
      | Ok subList =>
          r ← swaps number subList tp;
          Some ('(subList, tp, log) ← r;
                Ok (subList, tp, (Z.to_nat idx1, Z.to_nat idx2) :: log))
      end
  end.

Definition perturb (subList : list Rect.t) (tp : tape)
    : option (result Perturbed) :=
  if bool_decide (length subList ≤ 2)%nat then Some (Ok (subList, tp, []))
  else
    '(u, tp) ← rng_random tp;
    let strength := ((25 # 1000) + (125 # 1000) * u)%Q in
    let number :=
      py_int (strength * inject_Z (Z.of_nat (length subList)) + (1 # 2))%Q in
    let number := Z.max number 1 in
    swaps (Z.to_nat number) subList tp.

(** [int(strength*len(subList) + 0.5)] for
    [strength = 0.025 + 0.125*u], as Python computes it. *)
Definition swapCount64 (u : Q) (len : nat) : result Z :=
  c ← Float64.mul (Float64.lit (125 # 1000)) u;
  strength ← Float64.add (Float64.lit (25 # 1000)) c;
  n ← Float64.of_int (Z.of_nat len);
  x ← Float64.mul strength n;
  s ← Float64.add x (Float64.lit (5 # 10));
  Ok (py_int s).

(** [perturb] with the number of exchanges as Python computes it. *)
Definition perturb64 (subList : list Rect.t) (tp : tape)
    : option (result Perturbed) :=
  if bool_decide (length subList ≤ 2)%nat then Some (Ok (subList, tp, []))
  else
    '(u, tp) ← rng_random tp;
    match swapCount64 u (length subList) with
    | Raise e => Some (Raise e)
    | Ok number =>
        let number := Z.max number 1 in
        swaps (Z.to_nat number) subList tp
    end.

(** *** removeAndRepack *)

(** [list.sort(reverse=True)] with [Rect.__lt__]: descending by area,
    equal areas keep their order. *)
Fixpoint insertDescending (r : Rect.t) (sorted : list Rect.t)
    : list Rect.t :=
  match sorted with
  | [] => [r]
  | h :: rest =>
      if Rect.lt r h then h :: insertDescending r rest
      else r :: h :: rest
  end.

Definition sortDescending (l : list Rect.t) : list Rect.t :=
  foldr insertDescending [] l.

(** [max(int(percentage*self.numRects + 1), 2)], the product kept exact. *)
Definition removalCount (percentage : Q) (numRects : Z) : Z :=
  let number := py_int (percentage * inject_Z numRects + 1)%Q in
  Z.max number 2.

(** The same count as Python computes it for a float [percentage]:
    [numRects] is converted to a float, and the product and the sum are
    rounded to binary64. *)
Definition removalCount64 (percentage : Q) (numRects : Z) : result Z :=
  n ← Float64.of_int numRects;
  x ← Float64.mul percentage n;
  s ← Float64.add x 1;
  Ok (Z.max (py_int s) 2).

(** What [removeAndRepack] has done when it reaches its call of [pack]:
    the solution with the working order rewritten, the rest of the tape,
    the sub-list taken and the calls of [swap] made on it. *)
Record Ruined : Type := mkRuined {
  ruined : t;
  rest_tape : tape;
  taken : list Rect.t;
  swapped : list (nat * nat)
}.

Definition ruin (self : t) (percentage : Q) (reverse sort : bool)
    (tp : tape) : option (result Ruined) :=
  if Qltb percentage 0 || Qltb 1 percentage then
    Some (Raise (ValueError
      "The value of percentage should be in the range [0, 1]"))
  else
    match rectList self with
    | None | Some [] =>
        Some (Raise (RuntimeError
          "The current solution has no items. Please call `Solution.pack` first."))
    | Some rects =>
        match numRects self with
        | None => Some (Raise TypeError)
        | Some n =>
            let number := removalCount percentage n in
            let start := slice_start (n - number) (length rects) in
            let subList :=
              if reverse then take (Z.to_nat number) rects
              else drop start rects in
            perturbed ←
              (if sort then Some (Ok (sortDescending subList, tp, []))
               else perturb subList tp);
            Some ('(subList', tp, log) ← perturbed;
                  let rects :=
                    if reverse
                    then subList' ++ drop (Z.to_nat number) rects
                    else take start rects ++ subList' in
                  Ok (mkRuined (set_rectList self (Some rects)) tp
                        subList log))
        end
    end.

Definition removeAndRepack (self : t) (heur : option PackingHeuristic)
    (percentage : Q) (reverse sort first : bool) (tp : tape)
    : option (result (t * tape)) :=
  r ← ruin self percentage reverse sort tp;
  Some (r ← r;
        self ← pack (ruined r) None heur first;
        Ok (self, rest_tape r)).

(** [removeAndRepack] up to its call of [pack], with the number of items
    removed and the number of exchanges as Python computes them. *)
Definition ruin64 (self : t) (percentage : Q) (reverse sort : bool)
    (tp : tape) : option (result Ruined) :=
  if Qltb percentage 0 || Qltb 1 percentage then
    Some (Raise (ValueError
      "The value of percentage should be in the range [0, 1]"))
  else
    match rectList self with
    | None | Some [] =>
        Some (Raise (RuntimeError
          "The current solution has no items. Please call `Solution.pack` first."))
    | Some rects =>
        match numRects self with
        | None => Some (Raise TypeError)
        | Some n =>
            match removalCount64 percentage n with
            | Raise e => Some (Raise e)
            | Ok number =>
                let start := slice_start (n - number) (length rects) in
                let subList :=
                  if reverse then take (Z.to_nat number) rects
                  else drop start rects in
                perturbed ←
                  (if sort then Some (Ok (sortDescending subList, tp, []))
                   else perturb64 subList tp);
                Some ('(subList', tp, log) ← perturbed;
                      let rects :=
                        if reverse
                        then subList' ++ drop (Z.to_nat number) rects
                        else take start rects ++ subList' in
                      Ok (mkRuined (set_rectList self (Some rects)) tp
                            subList log))
            end
        end
    end.

Definition removeAndRepack64 (self : t) (heur : option PackingHeuristic)
    (percentage : Q) (reverse sort first : bool) (tp : tape)
    : option (result (t * tape)) :=
  r ← ruin64 self percentage reverse sort tp;
  Some (r ← r;
        self ← pack (ruined r) None heur first;
        Ok (self, rest_tape r)).

(** *** queries *)

Definition isFeasible (self : t) : result bool :=
  match lowerbnd self with
  | None => Raise TypeError
  | Some lb =>
      if Z.of_nat (length (binList self)) <? lb then Ok false
      else Ok (forallb Bin.isFeasible (binList self))
  end.

Definition getLeastFilledStep (st : Q * option Bin.t) (abin : Bin.t)
    : result (Q * option Bin.t) :=
  occupancy ← Bin.getOccupancy abin;
  if Qle_bool occupancy 0 || Qltb 1 occupancy
  then Raise (RuntimeError "Wrong occupancy")
  else if Qltb occupancy (fst st) then Ok (occupancy, Some abin)
  else Ok st.

Fixpoint getLeastFilledLoop (bins : list Bin.t) (st : Q * option Bin.t)
    : result (Q * option Bin.t) :=
  match bins with
  | [] => Ok st
  | abin :: rest =>
      st ← getLeastFilledStep st abin;
      getLeastFilledLoop rest st
  end.

Definition getLeastFilledBin (self : t) : result (option Bin.t) :=
  st ← getLeastFilledLoop (binList self) (2 # 1, None);
  Ok (snd st).

Definition getNumberOfBins (self : t) : Z :=
  Z.of_nat (length (binList self)).

Definition solutionValue (self : t) : result Q :=
  let n := getNumberOfBins self in
  leastFilled ← getLeastFilledBin self;
  match leastFilled with
  | None => Raise AttributeError
  | Some abin =>
      occupancy ← Bin.getOccupancy abin;
      Ok (inject_Z n + occupancy)%Q
  end.

Definition size (self : t) : option Z := numRects self.

End RBPSolution.

(** * Specification vocabulary

    The notions the properties below are stated with. *)

(** ** Rectangles *)

(** A point with rational coordinates lies strictly inside a rectangle. *)
Definition interior (r : Rect.t) (px py : Q) : Prop :=
  (inject_Z (Rect.x r) < px)%Q
  /\ (px < inject_Z (Rect.x r + Rect.width r))%Q
  /\ (inject_Z (Rect.y r) < py)%Q
  /\ (py < inject_Z (Rect.y r + Rect.height r))%Q.

Definition interiors_intersect (a b : Rect.t) : Prop :=
  exists px py : Q, interior a px py /\ interior b px py.

(** The two rectangles abut: an edge of one lies on the line of the facing
    edge of the other. *)
Definition touching (a b : Rect.t) : Prop :=
  Rect.x a + Rect.width a = Rect.x b
  \/ Rect.x b + Rect.width b = Rect.x a
  \/ Rect.y a + Rect.height a = Rect.y b
  \/ Rect.y b + Rect.height b = Rect.y a.

Definition positive (r : Rect.t) : Prop :=
  0 < Rect.width r /\ 0 < Rect.height r.

(** The sum of the item areas, item by item. *)
Definition sumAreas (items : list Rect.t) : Z :=
  foldr (fun r acc => Rect.width r * Rect.height r + acc) 0 items.

(** ** Touching perimeter *)

(** Length of the overlap of the intervals [s1, e1] and [s2, e2]. *)
Definition overlapLength (s1 e1 s2 e2 : Z) : Z :=
  Z.max 0 (Z.min e1 e2 - Z.max s1 s2).

(** Length of the candidate's boundary lying on the four outer edges of
    the bin, edge by edge: left, right, bottom, top. *)
Definition binEdgeContact (self : Bin.t) (x y width height : Z) : Z :=
  (if x =? 0 then height else 0)
  + (if x + width =? Bin.binWidth self then height else 0)
  + (if y =? 0 then width else 0)
  + (if y + height =? Bin.binHeight self then width else 0).

(** The same with each pair of opposite edges counted once. *)
Definition binEdgeContactOnce (self : Bin.t) (x y width height : Z) : Z :=
  (if (x =? 0) || (x + width =? Bin.binWidth self) then height else 0)
  + (if (y =? 0) || (y + height =? Bin.binHeight self) then width else 0).

(** Length of boundary the candidate shares with the item [r], side by
    side: [r] on its left, on its right, below it, above it. *)
Definition itemContact (x y width height : Z) (r : Rect.t) : Z :=
  (if Rect.x r + Rect.width r =? x
   then overlapLength y (y + height) (Rect.y r) (Rect.y r + Rect.height r)
   else 0)
  + (if x + width =? Rect.x r
     then overlapLength y (y + height) (Rect.y r) (Rect.y r + Rect.height r)
     else 0)
  + (if Rect.y r + Rect.height r =? y
     then overlapLength x (x + width) (Rect.x r) (Rect.x r + Rect.width r)
     else 0)
  + (if y + height =? Rect.y r
     then overlapLength x (x + width) (Rect.x r) (Rect.x r + Rect.width r)
     else 0).

Definition itemsContact (x y width height : Z) (items : list Rect.t) : Z :=
  foldr (fun r acc => itemContact x y width height r + acc) 0 items.

(** The touching perimeter as the sum over every coincident bin edge and
    every adjacent item. *)
Definition touchingPerimeterByEdge (self : Bin.t) (x y width height : Z)
    : Z :=
  binEdgeContact self x y width height
  + itemsContact x y width height (Bin.packedRects self).

(** ** Occupancy *)

(** [occupiedArea / (binWidth * binHeight)] as an exact rational. *)
Definition occupancy (b : Bin.t) : Q :=
  (inject_Z (Bin.occupiedArea b)
   / inject_Z (Bin.binWidth b * Bin.binHeight b))%Q.

Definition hasArea (b : Bin.t) : Prop :=
  Bin.binWidth b * Bin.binHeight b <> 0.


(** The solution [pack] builds for one 10 x 10 item and 10 x 10 bins: the
    lower bound is 2, two bins are opened and the second stays empty. *)
Definition fullBinSolution : result RBPSolution.t :=
  RBPSolution.pack (RBPSolution.new 10 10) (Some [Rect.new 10 10])
    (Some BestAreaFit) false.

(** ** Candidates *)

(** [rect], upright or rotated, is no larger than the space [f]. *)
Definition fitsIn (rotated : bool) (rect f : Rect.t) : Prop :=
  if rotated
  then Rect.height rect <= Rect.width f /\ Rect.width rect <= Rect.height f
  else Rect.width rect <= Rect.width f /\ Rect.height rect <= Rect.height f.

(** What the loops of the three heuristics keep about the chosen index:
    none yet, or the index of a free space that [rect] fits in the chosen
    orientation, which is rotated only in a bin that rotates. *)
Definition chosen (self : Bin.t) (rect : Rect.t) (index : Z)
    (rotated : bool) : Prop :=
  index = -1
  \/ exists (k : nat) (f : Rect.t),
       index = Z.of_nat k /\ Bin.freeRects self !! k = Some f
       /\ fitsIn rotated rect f
       /\ (rotated = true -> Bin.canRotate self = true).

(** A candidate as the tail of the [insert...] methods builds it. *)
Definition placedAt (rect f : Rect.t) (rotated : bool) (c : Rect.t) : Prop :=
  Rect.x c = Rect.x f /\ Rect.y c = Rect.y f
  /\ Rect.width c = (if rotated then Rect.height rect else Rect.width rect)
  /\ Rect.height c = (if rotated then Rect.width rect else Rect.height rect).

(** The bin after [if not self.packHeur: self.packHeur = heur]. *)
Definition remembered (self : Bin.t) (heur : option PackingHeuristic)
    : Bin.t :=
  match Bin.packHeur self with
  | None => Bin.set_packHeur self heur
  | Some _ => self
  end.

(** The result of an evaluation, by heuristic. *)
Definition dispatch (self : Bin.t) (rect : Rect.t)
    (heur : option PackingHeuristic) : result (option Rect.t) :=
  match heur with
  | Some BestAreaFit => MaxSpaceBin.insertBestArea self rect
  | Some TouchingPerimeter => MaxSpaceBin.insertTouchingPerimeter self rect
  | Some TopRightCornerDistance =>
      MaxSpaceBin.insertTopRightCornerDistance self rect
  | None => Raise (ValueError "Unkown packing heuristic")
  end.

(** The outcome of an evaluation that does not raise. *)
Definition evaluated (self : Bin.t) (rect : Rect.t)
    (r : result (option Rect.t)) : Prop :=
  r = Ok None
  \/ exists (c f : Rect.t) (rotated : bool),
       r = Ok (Some c) /\ f ∈ Bin.freeRects self /\ fitsIn rotated rect f
       /\ placedAt rect f rotated c
       /\ (rotated = true -> Bin.canRotate self = true).

(** ** Free spaces *)

(** The free spaces [generateNewMaxSpaces] keeps, and those it appends. *)
Definition keptSpaces (rect : Rect.t) (spaces : list Rect.t) : list Rect.t :=
  filter (fun f => Bin.isOverlapping f rect = false) spaces.

Definition newSpaces (rect : Rect.t) (spaces : list Rect.t) : list Rect.t :=
  spaces ≫= fun f =>
    if Bin.isOverlapping f rect then MaxSpaceBin.residuals f rect else [].

(** The closed extent of [g] lies within that of [f]. *)
Definition within (g f : Rect.t) : Prop :=
  Rect.x f <= Rect.x g /\ Rect.y f <= Rect.y g
  /\ Rect.x g + Rect.width g <= Rect.x f + Rect.width f
  /\ Rect.y g + Rect.height g <= Rect.y f + Rect.height f.

(** No space of the list lies within (or equals) another one. *)
Definition antichain (spaces : list Rect.t) : Prop :=
  forall (i j : nat) (f g : Rect.t),
    i <> j -> spaces !! i = Some f -> spaces !! j = Some g ->
    ~ within f g.

(** The free spaces [pruneMaxSpaces] leaves. *)
Definition pruned (spaces : list Rect.t) : list Rect.t :=
  MaxSpaceBin.keepUnmarked (MaxSpaceBin.pruneOuter 0 spaces ∅) 0 spaces.

(** The bin after [packRect], [generateNewMaxSpaces] and [pruneMaxSpaces]
    for the placed item [newRect]. *)
Definition committed (self : Bin.t) (newRect : Rect.t) : Bin.t :=
  (MaxSpaceBin.pruneMaxSpaces
     (MaxSpaceBin.generateNewMaxSpaces (Bin.packRect self newRect)
        newRect)).1.

(** The closed extent of [f] lies inside the bin. *)
Definition insideBin (self : Bin.t) (f : Rect.t) : Prop :=
  0 <= Rect.x f /\ 0 <= Rect.y f
  /\ Rect.x f + Rect.width f <= Bin.binWidth self
  /\ Rect.y f + Rect.height f <= Bin.binHeight self.

Record freeSpaceInvariant (self : Bin.t) : Prop := {
  spaces_inside :
    forall f, f ∈ Bin.freeRects self -> insideBin self f;
  spaces_clear :
    forall f p, f ∈ Bin.freeRects self -> p ∈ Bin.packedRects self ->
      ~ interiors_intersect f p;
  spaces_maximal : antichain (Bin.freeRects self)
}.

(** The bins reached from [start] by inserts that return [True]. *)
Inductive afterInserts (start : Bin.t) : Bin.t -> Prop :=
  | afterInserts_none : afterInserts start start
  | afterInserts_step (self : Bin.t) (rect : Rect.t)
      (heur : option PackingHeuristic) (self' : Bin.t) :
      afterInserts start self ->
      MaxSpaceBin.insert self rect heur = (self', Ok true) ->
      afterInserts start self'.

(** ** Cells *)

Definition sumZ {A : Type} (f : A -> Z) (l : list A) : Z :=
  foldr (fun a acc => f a + acc) 0 l.

Definition ind (b : bool) : Z := if b then 1 else 0.

(** [c] is one of the unit intervals [s, s+1), ..., [s+len-1, s+len). *)
Definition inSpan (s len c : Z) : bool := (s <=? c) && (c <? s + len).

(** The unit cell with lower-left corner [c] is part of [r]. *)
Definition cellIn (r : Rect.t) (c : Z * Z) : bool :=
  inSpan (Rect.x r) (Rect.width r) c.1
  && inSpan (Rect.y r) (Rect.height r) c.2.

(** The unit cells of a [W] x [H] bin. *)
Definition grid (W H : Z) : list (Z * Z) :=
  seqZ 0 W ≫= fun cx => (fun cy => (cx, cy)) <$> seqZ 0 H.

(** Why index [m] is marked: space [m] lies within another space [c] that
    comes earlier or is strictly larger. *)
Definition markedFor (l : list Rect.t) (m : nat) : Prop :=
  exists (c : nat) (rm rc : Rect.t),
    l !! m = Some rm /\ l !! c = Some rc /\ within rm rc
    /\ ((c < m)%nat \/ ~ within rc rm).

Definition girth (r : Rect.t) : Z := Rect.width r + Rect.height r.

(** ** Packing *)

(** What [pack] keeps true of every bin of a [W] x [H] solution. *)
Record packedBin (W H : Z) (b : Bin.t) : Prop := {
  pb_binWidth : Bin.binWidth b = W;
  pb_binHeight : Bin.binHeight b = H;
  pb_canRotate : Bin.canRotate b = false;
  pb_inside : forall f, f ∈ Bin.freeRects b -> insideBin b f;
  pb_packed :
    forall p, p ∈ Bin.packedRects b ->
      positive p /\ Rect.width p <= W /\ Rect.height p <= H;
  pb_area : Bin.occupiedArea b = sumAreas (Bin.packedRects b);
  pb_cover :
    forall cx cy, 0 <= cx < W -> 0 <= cy < H ->
      exists r, r ∈ Bin.packedRects b ++ Bin.freeRects b
                /\ cellIn r (cx, cy) = true
}.





(** The best bin after one more evaluation. *)
Definition updateBest (k : nat) (evaluated : option Rect.t)
    (st : RBPSolution.BestBin) : RBPSolution.BestBin :=
  match evaluated with
  | Some newRect =>
      if RBPSolution.better newRect st
      then RBPSolution.mkBestBin (Rect.score1 newRect) (Rect.score2 newRect)
             (Some (k, newRect))
      else st
  | None => st
  end.

(** ** Ruin and recreate *)

(** The list after two positions have been exchanged. *)
Definition transposed (i j : nat) (l : list Rect.t) : list Rect.t :=
  match l !! i, l !! j with
  | Some a, Some b => <[j := a]> (<[i := b]> l)
  | _, _ => l
  end.

(** The list after the exchanges of [log], in order. *)
Definition applySwaps (log : list (nat * nat)) (l : list Rect.t)
    : list Rect.t :=
  foldl (fun l p => transposed p.1 p.2 l) l log.

(** An exchange of two different positions of a list of length [len]. *)
Definition properSwap (len : nat) (p : nat * nat) : Prop :=
  p.1 <> p.2 /\ (p.1 < len)%nat /\ (p.2 < len)%nat.

(** The sub-list [removeAndRepack] takes: the first [number] items when
    [reverse], the last [number] otherwise ([n] is the item count). *)
Definition selection (reverse : bool) (number n : Z) (rects : list Rect.t)
    : list Rect.t :=
  if reverse then take (Z.to_nat number) rects
  else drop (Z.to_nat (n - number)) rects.

(** The working order with the selected slice replaced by [sub]. *)
Definition writtenBack (reverse : bool) (number n : Z)
    (rects sub : list Rect.t) : list Rect.t :=
  if reverse then sub ++ drop (Z.to_nat number) rects
  else take (Z.to_nat (n - number)) rects ++ sub.

(** The solution [pack] builds for three items in 10 x 10 bins. *)
Definition threeItemSolution : result RBPSolution.t :=
  RBPSolution.pack (RBPSolution.new 10 10)
    (Some [Rect.new 6 4; Rect.new 4 6; Rect.new 5 5]) (Some BestAreaFit)
    false.

(** The solution [pack] builds for six items in 10 x 10 bins. *)
Definition sixItemSolution : result RBPSolution.t :=
  RBPSolution.pack (RBPSolution.new 10 10)
    (Some [Rect.new 6 4; Rect.new 4 6; Rect.new 5 5; Rect.new 3 3;
           Rect.new 2 7; Rect.new 8 1]) (Some BestAreaFit) false.

(** ** Scans of the free spaces *)

(** The loops of the three heuristics try, in each free space in turn,
    the item upright and then rotated: [rank j rotated] is the place of a
    trial in that order. *)
Definition rank (j : nat) (rotated : bool) : nat :=
  (2 * j + (if rotated then 1 else 0))%nat.

(** The trial is open to the item: it fits the space that way, and it is
    turned only in a bin that rotates. *)
Definition admits (self : Bin.t) (rect : Rect.t) (rotated : bool)
    (f : Rect.t) : Prop :=
  fitsIn rotated rect f /\ (rotated = true -> Bin.canRotate self = true).

(** Pairs of integers in lexicographic order. *)
Definition lexLt (a b : Z * Z) : Prop :=
  a.1 < b.1 \/ (a.1 = b.1 /\ a.2 < b.2).

Definition lexLe (a b : Z * Z) : Prop :=
  a.1 < b.1 \/ (a.1 = b.1 /\ a.2 <= b.2).

(** Trial [(k, rotated)] in space [f] is open, no open trial has a smaller
    key, and every open trial before it has a larger one. *)
Definition firstMinimum (self : Bin.t) (rect : Rect.t)
    (key : Rect.t -> bool -> Z * Z) (m : nat) (k : nat) (rotated : bool)
    (f : Rect.t) : Prop :=
  (rank k rotated < m)%nat
  /\ Bin.freeRects self !! k = Some f /\ admits self rect rotated f
  /\ forall j rot g, (rank j rot < m)%nat ->
       Bin.freeRects self !! j = Some g -> admits self rect rot g ->
       lexLe (key f rotated) (key g rot)
       /\ ((rank j rot < rank k rotated)%nat ->
           lexLt (key f rotated) (key g rot)).

(** What a scan knows after the first [m] trials: no trial was open and
    the index is still -1, or the index and the flag are those of the
    first minimum. *)
Definition firstBest (self : Bin.t) (rect : Rect.t)
    (key : Rect.t -> bool -> Z * Z) (m : nat) (index : Z) (rotated : bool)
    : Prop :=
  (index = -1
   /\ forall j rot g, (rank j rot < m)%nat ->
        Bin.freeRects self !! j = Some g -> ~ admits self rect rot g)
  \/ exists (k : nat) (f : Rect.t),
       index = Z.of_nat k /\ firstMinimum self rect key m k rotated f.

(** The number of trials of a whole scan. *)
Definition allTrials (self : Bin.t) : nat :=
  (2 * length (Bin.freeRects self))%nat.

(** The outcome of a whole scan: nothing when no trial is open, and
    otherwise the candidate placed in the space of the first minimum, with
    the two scores given. *)
Definition bestCandidate (self : Bin.t) (rect : Rect.t)
    (key : Rect.t -> bool -> Z * Z) (score : Rect.t -> bool -> Score * Score)
    (r : result (option Rect.t)) : Prop :=
  (r = Ok None
   /\ forall rot g, g ∈ Bin.freeRects self -> ~ admits self rect rot g)
  \/ exists (c : Rect.t) (k : nat) (rotated : bool) (f : Rect.t),
       r = Ok (Some c)
       /\ firstMinimum self rect key (allTrials self) k rotated f
       /\ placedAt rect f rotated c
       /\ Rect.score1 c = (score f rotated).1
       /\ Rect.score2 c = (score f rotated).2.

(** BestAreaFit: the area of the space left uncovered, then the shorter
    leftover side. *)
Definition wastedArea (rect f : Rect.t) : Z :=
  Rect.width f * Rect.height f - Rect.width rect * Rect.height rect.

Definition shortSide (rect f : Rect.t) (rotated : bool) : Z :=
  if rotated
  then Z.min (Rect.width f - Rect.height rect) (Rect.height f - Rect.width rect)
  else Z.min (Rect.width f - Rect.width rect) (Rect.height f - Rect.height rect).

Definition areaKey (rect f : Rect.t) (rotated : bool) : Z * Z :=
  (wastedArea rect f, shortSide rect f rotated).

Definition areaScore (rect f : Rect.t) (rotated : bool) : Score * Score :=
  (Fin (wastedArea rect f), Fin (shortSide rect f rotated)).

(** What the loop of [insertBestArea] keeps in its two scores. *)
Definition areaScores (self : Bin.t) (rect : Rect.t)
    (st : MaxSpaceBin.AreaBest) : Prop :=
  (MaxSpaceBin.ba_index st = -1 ->
   MaxSpaceBin.bestWastedArea st = Inf /\ MaxSpaceBin.bestShortSide st = Inf)
  /\ forall k f,
       MaxSpaceBin.ba_index st = Z.of_nat k ->
       Bin.freeRects self !! k = Some f ->
       MaxSpaceBin.bestWastedArea st = Fin (wastedArea rect f)
       /\ MaxSpaceBin.bestShortSide st
          = Fin (shortSide rect f (MaxSpaceBin.ba_rotated st)).

(** TouchingPerimeter: the touching perimeter of the item at the origin
    of the space, the larger the better. *)
Definition perimeterAt (self : Bin.t) (rect f : Rect.t) (rotated : bool)
    : Z :=
  if rotated
  then Bin.computeTouchingPerimeter self (Rect.x f) (Rect.y f)
         (Rect.height rect) (Rect.width rect)
  else Bin.computeTouchingPerimeter self (Rect.x f) (Rect.y f)
         (Rect.width rect) (Rect.height rect).

Definition perimeterKey (self : Bin.t) (rect f : Rect.t) (rotated : bool)
    : Z * Z :=
  (- perimeterAt self rect f rotated, 0).

Definition perimeterScore (self : Bin.t) (rect f : Rect.t) (rotated : bool)
    : Score * Score :=
  (Fin (- perimeterAt self rect f rotated), Inf).

Definition perimeterScores (self : Bin.t) (rect : Rect.t)
    (st : MaxSpaceBin.PerimeterBest) : Prop :=
  (MaxSpaceBin.tp_index st = -1 ->
   MaxSpaceBin.largestTouchingPerimeter st = -1)
  /\ forall k f,
       MaxSpaceBin.tp_index st = Z.of_nat k ->
       Bin.freeRects self !! k = Some f ->
       MaxSpaceBin.largestTouchingPerimeter st
       = perimeterAt self rect f (MaxSpaceBin.tp_rotated st).

(** TopRightCornerDistance: the square of the distance from the top right
    corner of the item, upright at the origin of the space, to that of the
    bin, the larger the better. *)
Definition cornerDistSq (self : Bin.t) (rect f : Rect.t) : Z :=
  Bin.computeDistanceSq (Rect.x f + Rect.width rect)
    (Rect.y f + Rect.height rect) (Bin.binWidth self) (Bin.binHeight self).

(** The distance itself, as Python computes it. *)
Definition cornerDist64 (self : Bin.t) (rect f : Rect.t) : result Q :=
  Bin.computeDistance64 (Rect.x f + Rect.width rect)
    (Rect.y f + Rect.height rect) (Bin.binWidth self) (Bin.binHeight self).

Definition cornerKey (self : Bin.t) (rect f : Rect.t) (rotated : bool)
    : Z * Z :=
  (- cornerDistSq self rect f, 0).

Definition cornerScore (self : Bin.t) (rect f : Rect.t) (rotated : bool)
    : Score * Score :=
  (NegRoot (cornerDistSq self rect f), Inf).

Definition cornerScores (self : Bin.t) (rect : Rect.t)
    (st : MaxSpaceBin.CornerBest) : Prop :=
  (MaxSpaceBin.cd_index st = -1 -> MaxSpaceBin.largestDist st = -1)
  /\ forall k f,
       MaxSpaceBin.cd_index st = Z.of_nat k ->
       Bin.freeRects self !! k = Some f ->
       MaxSpaceBin.largestDist st = cornerDistSq self rect f.

(** The invariants of the three loops after [m] trials. *)
Definition areaInv (self : Bin.t) (rect : Rect.t) (m : nat)
    (st : MaxSpaceBin.AreaBest) : Prop :=
  firstBest self rect (areaKey rect) m (MaxSpaceBin.ba_index st)
    (MaxSpaceBin.ba_rotated st)
  /\ areaScores self rect st.

Definition perimeterInv (self : Bin.t) (rect : Rect.t) (m : nat)
    (st : MaxSpaceBin.PerimeterBest) : Prop :=
  firstBest self rect (perimeterKey self rect) m (MaxSpaceBin.tp_index st)
    (MaxSpaceBin.tp_rotated st)
  /\ perimeterScores self rect st.

Definition cornerInv (self : Bin.t) (rect : Rect.t) (m : nat)
    (st : MaxSpaceBin.CornerBest) : Prop :=
  firstBest self rect (cornerKey self rect) m (MaxSpaceBin.cd_index st)
    (MaxSpaceBin.cd_rotated st)
  /\ cornerScores self rect st.

(** ** The turns of [pack] *)

(** The bin [openNewBin] returns in a solution with [W] x [H] bins. *)
Definition freshBin (W H : Z) : Bin.t := MaxSpaceBin.init (MaxSpaceBin.new W H).

(** The pair of scores of a candidate of heuristic [h], as a pair of
    integers that compares as the scores do: the scores themselves for
    BestAreaFit; for the other two the second score is infinite, and the
    first is minus the touching perimeter, or minus the square root of the
    squared distance. *)
Definition scored (h : PackingHeuristic) (c : Rect.t) (key : Z * Z) : Prop :=
  match h with
  | BestAreaFit => Rect.score1 c = Fin key.1 /\ Rect.score2 c = Fin key.2
  | TouchingPerimeter =>
      Rect.score1 c = Fin key.1 /\ Rect.score2 c = Inf /\ key.2 = 0
  | TopRightCornerDistance =>
      Rect.score1 c = NegRoot (- key.1) /\ Rect.score2 c = Inf /\ key.2 = 0
  end.

(** Among the first [n] bins, bin [k] offers the candidate [c] for [rect],
    no bin offers a candidate with smaller scores, and every bin before
    [k] that offers one offers one with larger scores. *)
Definition bestBinAmong (h : PackingHeuristic) (bins : list Bin.t)
    (rect : Rect.t) (n k : nat) (c : Rect.t) : Prop :=
  exists (b : Bin.t) (key : Z * Z),
    (k < n)%nat /\ bins !! k = Some b
    /\ (MaxSpaceBin.evaluatePacking b rect (Some h)).2 = Ok (Some c)
    /\ scored h c key
    /\ forall j b' c' key',
         (j < n)%nat -> bins !! j = Some b' ->
         (MaxSpaceBin.evaluatePacking b' rect (Some h)).2 = Ok (Some c') ->
         scored h c' key' ->
         lexLe key key' /\ ((j < k)%nat -> lexLt key key').

(** What the loop over the bins knows after the first [n] bins. *)
Definition bestBinInv (h : PackingHeuristic) (bins : list Bin.t)
    (rect : Rect.t) (n : nat) (st : RBPSolution.BestBin) : Prop :=
  (RBPSolution.best st = None
   /\ RBPSolution.bestValue1 st = Inf /\ RBPSolution.bestValue2 st = Inf
   /\ forall j b, (j < n)%nat -> bins !! j = Some b ->
        (MaxSpaceBin.evaluatePacking b rect (Some h)).2 = Ok None)
  \/ exists (k : nat) (c : Rect.t),
       RBPSolution.best st = Some (k, c)
       /\ RBPSolution.bestValue1 st = Rect.score1 c
       /\ RBPSolution.bestValue2 st = Rect.score2 c
       /\ bestBinAmong h bins rect n k c.

(** One turn of the loop of [pack] for the item [cur]: the item goes to
    the best of the open bins that offer a candidate; when none does, a
    new bin is opened and appended, with the item in it if it offers a
    candidate and empty otherwise.  Every bin visited has its heuristic
    recorded. *)
Definition turn (W H : Z) (h : PackingHeuristic) (bins : list Bin.t)
    (cur : Rect.t) (bins' : list Bin.t) : Prop :=
  let rect := Rect.removePackingInfo cur in
  let seen := (fun b => remembered b (Some h)) <$> bins in
  (exists (k : nat) (b : Bin.t) (c : Rect.t),
     bestBinAmong h bins rect (length bins) k c /\ bins !! k = Some b
     /\ (MaxSpaceBin.evaluatePacking b rect (Some h)).2 = Ok (Some c)
     /\ bins' = <[k := committed (remembered b (Some h)) c]> seen)
  \/ ((forall b, b ∈ bins ->
         (MaxSpaceBin.evaluatePacking b rect (Some h)).2 = Ok None)
      /\ ((exists c : Rect.t,
             (MaxSpaceBin.evaluatePacking (freshBin W H) rect (Some h)).2
             = Ok (Some c)
             /\ bins' = seen ++ [committed (remembered (freshBin W H) (Some h)) c])
          \/ ((MaxSpaceBin.evaluatePacking (freshBin W H) rect (Some h)).2
              = Ok None
              /\ bins' = seen ++ [remembered (freshBin W H) (Some h)]))).

(** The turns of the loop of [pack] for a list of items, from the bins
    [bins] to the bins [bins']. *)
Inductive turns (W H : Z) (h : PackingHeuristic)
    : list Rect.t -> list Bin.t -> list Bin.t -> Prop :=
  | turns_nil (bins : list Bin.t) : turns W H h [] bins bins
  | turns_cons (cur : Rect.t) (rects : list Rect.t)
      (bins bins1 bins' : list Bin.t) :
      turn W H h bins cur bins1 -> turns W H h rects bins1 bins' ->
      turns W H h (cur :: rects) bins bins'.


(** ** Feasible bins *)

(** No two of the rectangles have interior points in common. *)
Definition apart (rects : list Rect.t) : Prop :=
  forall (i j : nat) (p q : Rect.t),
    i <> j -> rects !! i = Some p -> rects !! j = Some q ->
    ~ interiors_intersect p q.

(** The packed items lie inside the bin and apart from each other. *)
Record placedBin (b : Bin.t) : Prop := {
  placed_inside : forall p, p ∈ Bin.packedRects b -> insideBin b p;
  placed_apart : apart (Bin.packedRects b)
}.


(** ** Sizes *)

(** The sizes of the rectangles of a list, in order. *)
Definition sizes (rects : list Rect.t) : list (Z * Z) :=
  (fun r => (Rect.width r, Rect.height r)) <$> rects.


(** The bins reached from [start] by inserts, returning [True], of items
    of positive size that carry no position. *)
Inductive afterPlacements (start : Bin.t) : Bin.t -> Prop :=
  | afterPlacements_none : afterPlacements start start
  | afterPlacements_step (self : Bin.t) (rect : Rect.t)
      (heur : option PackingHeuristic) (self' : Bin.t) :
      afterPlacements start self ->
      Rect.isReadyForPacking rect = false -> positive rect ->
      MaxSpaceBin.insert self rect heur = (self', Ok true) ->
      afterPlacements start self'.

(** ** Orders of lists *)

(** The rectangles come by non-increasing area. *)
Fixpoint descending (rects : list Rect.t) : Prop :=
  match rects with
  | [] => True
  | r :: rest =>
      Forall (fun q => Rect.width q * Rect.height q
                       <= Rect.width r * Rect.height r) rest
      /\ descending rest
  end.

(** The slice [removeAndRepack] takes, and the working list with the slice
    replaced, by the bounds the code computes. *)
Definition sliceTaken (reverse : bool) (number : Z) (start : nat)
    (rects : list Rect.t) : list Rect.t :=
  if reverse then take (Z.to_nat number) rects else drop start rects.

Definition sliceReplaced (reverse : bool) (number : Z) (start : nat)
    (rects sub : list Rect.t) : list Rect.t :=
  if reverse then sub ++ drop (Z.to_nat number) rects
  else take start rects ++ sub.

(** ** Empty rectangles *)

(** The rectangle lies inside the bin and shares no interior point with a
    packed item. *)
Definition emptyIn (self : Bin.t) (r : Rect.t) : Prop :=
  insideBin self r
  /\ forall p, p ∈ Bin.packedRects self -> ~ interiors_intersect r p.

(** Every empty rectangle of positive size lies within a free space. *)
Definition complete (self : Bin.t) : Prop :=
  forall r, positive r -> emptyIn self r ->
    exists f, f ∈ Bin.freeRects self /\ within r f.





(** * Properties *)

(** ** Boolean comparisons *)

Ltac zbool_hyps :=
  repeat match goal with
  | H : _ && _ = true |- _ => apply andb_true_iff in H; destruct H
  | H : _ || _ = false |- _ => apply orb_false_iff in H; destruct H
  | H : negb _ = true |- _ => apply negb_true_iff in H
  | H : negb _ = false |- _ => apply negb_false_iff in H
  | H : (_ >=? _) = _ |- _ => rewrite Z.geb_leb in H
  | H : (_ >? _) = _ |- _ => rewrite Z.gtb_ltb in H
  | H : (_ <=? _) = true |- _ => apply Z.leb_le in H
  | H : (_ <=? _) = false |- _ => apply Z.leb_gt in H
  | H : (_ <? _) = true |- _ => apply Z.ltb_lt in H
  | H : (_ <? _) = false |- _ => apply Z.ltb_ge in H
  | H : (_ =? _) = true |- _ => apply Z.eqb_eq in H
  | H : (_ =? _) = false |- _ => apply Z.eqb_neq in H
  end.

Ltac zbool_goal :=
  rewrite ?Z.geb_leb, ?Z.gtb_ltb;
  repeat match goal with
  | |- context [?a <=? ?b] => destruct (Z.leb_spec a b)
  | |- context [?a <? ?b] => destruct (Z.ltb_spec a b)
  | |- context [?a =? ?b] => destruct (Z.eqb_spec a b)
  end;
  simpl.

(** ** Geometry of the overlap test *)

Lemma inject_Z_lt (a b : Z) : (inject_Z a < inject_Z b)%Q <-> a < b.
Proof. rewrite (Zlt_Qlt a b). reflexivity. Qed.

(** Two open intervals with integer ends share a rational point exactly
    when each starts before the other ends. *)
Lemma open_intervals_meet (s1 e1 s2 e2 : Z) :
  (exists t : Q, (inject_Z s1 < t)%Q /\ (t < inject_Z e1)%Q
                 /\ (inject_Z s2 < t)%Q /\ (t < inject_Z e2)%Q)
  <-> s1 < e1 /\ s1 < e2 /\ s2 < e1 /\ s2 < e2.
Proof.
  split.
  - intros (t & H1 & H2 & H3 & H4).
    rewrite <- !inject_Z_lt. repeat split; eapply Qlt_trans; eauto.
  - intros (H1 & H2 & H3 & H4).
    exists ((inject_Z (Z.max s1 s2) + inject_Z (Z.min e1 e2)) / 2)%Q.
    assert (Hm : Z.max s1 s2 < Z.min e1 e2) by lia.
    assert (Hs1 : s1 <= Z.max s1 s2) by lia.
    assert (Hs2 : s2 <= Z.max s1 s2) by lia.
    assert (He1 : Z.min e1 e2 <= e1) by lia.
    assert (He2 : Z.min e1 e2 <= e2) by lia.
    apply inject_Z_lt in Hm.
    rewrite Zle_Qle in Hs1, Hs2, He1, He2.
    set (m := inject_Z (Z.max s1 s2)) in *.
    set (n := inject_Z (Z.min e1 e2)) in *.
    assert (Hlo : (m < (m + n) / 2)%Q).
    { apply Qlt_shift_div_l; [reflexivity | lra]. }
    assert (Hhi : ((m + n) / 2 < n)%Q).
    { apply Qlt_shift_div_r; [reflexivity | lra]. }
    repeat split; lra.
Qed.

Lemma interiors_intersect_iff (a b : Rect.t) :
  interiors_intersect a b <->
  (Rect.x a < Rect.x a + Rect.width a
   /\ Rect.x a < Rect.x b + Rect.width b
   /\ Rect.x b < Rect.x a + Rect.width a
   /\ Rect.x b < Rect.x b + Rect.width b)
  /\ (Rect.y a < Rect.y a + Rect.height a
      /\ Rect.y a < Rect.y b + Rect.height b
      /\ Rect.y b < Rect.y a + Rect.height a
      /\ Rect.y b < Rect.y b + Rect.height b).
Proof.
  rewrite <- !open_intervals_meet. unfold interiors_intersect, interior.
  split.
  - intros (px & py & Ha & Hb). split; [exists px | exists py]; tauto.
  - intros [(px & Hx) (py & Hy)]. exists px, py. tauto.
Qed.

Lemma Bin_isOverlapping_true (a b : Rect.t) :
  Bin.isOverlapping a b = true <->
  Rect.x a < Rect.x b + Rect.width b /\ Rect.x b < Rect.x a + Rect.width a
  /\ Rect.y a < Rect.y b + Rect.height b
  /\ Rect.y b < Rect.y a + Rect.height a.
Proof.
  unfold Bin.isOverlapping. zbool_goal; split; intros; (lia || congruence).
Qed.

Lemma Rect_computeCommonLength_pos (s1 e1 s2 e2 : Z) :
  s1 < e1 -> s2 < e2 ->
  0 < Rect.computeCommonLength s1 e1 s2 e2 <-> s2 < e1 /\ s1 < e2.
Proof.
  intros H1 H2. unfold Rect.computeCommonLength. zbool_goal; lia.
Qed.

Lemma Rect_isOverlapping_true (a b : Rect.t) :
  positive a -> positive b ->
  Rect.isOverlapping a b = true <->
  Rect.x a < Rect.x b + Rect.width b /\ Rect.x b < Rect.x a + Rect.width a
  /\ Rect.y a < Rect.y b + Rect.height b
  /\ Rect.y b < Rect.y a + Rect.height a.
Proof.
  intros [Ha1 Ha2] [Hb1 Hb2].
  pose proof (Rect_computeCommonLength_pos (Rect.y a)
    (Rect.y a + Rect.height a) (Rect.y b) (Rect.y b + Rect.height b)) as Hy.
  pose proof (Rect_computeCommonLength_pos (Rect.x a)
    (Rect.x a + Rect.width a) (Rect.x b) (Rect.x b + Rect.width b)) as Hx.
  unfold Rect.isOverlapping.
  zbool_goal; split; intros; (lia || congruence).
Qed.

(** C5. For rectangles of positive width and height, both overlap tests
    ([Rect.isOverlapping] and [Bin.isOverlapping]) answer true exactly when
    the interiors of the two rectangles share a point, and answer false for
    rectangles that only touch. *)
Theorem overlap_test_is_interior_intersection (a b : Rect.t) :
  positive a -> positive b ->
  (Rect.isOverlapping a b = true <-> interiors_intersect a b)
  /\ (Bin.isOverlapping a b = true <-> interiors_intersect a b)
  /\ (touching a b ->
      Rect.isOverlapping a b = false /\ Bin.isOverlapping a b = false).
Proof.
  intros Ha Hb.
  pose proof (Rect_isOverlapping_true a b Ha Hb) as HR.
  pose proof (Bin_isOverlapping_true a b) as HB.
  pose proof (interiors_intersect_iff a b) as HI.
  destruct Ha as [Ha1 Ha2], Hb as [Hb1 Hb2].
  split; [|split].
  - rewrite HR, HI. lia.
  - rewrite HB, HI. lia.
  - intros Ht. split; apply not_true_is_false; intros Hc;
      [apply HR in Hc | apply HB in Hc]; unfold touching in Ht; lia.
Qed.

Lemma overlap_test_is_interior_intersection_witness :
  let a := Rect.set_y (Rect.set_x (Rect.new 6 4) 0) 0 in
  let b := Rect.set_y (Rect.set_x (Rect.new 4 6) 6) 0 in
  (Rect.isOverlapping a b = true <-> interiors_intersect a b)
  /\ (Bin.isOverlapping a b = true <-> interiors_intersect a b)
  /\ (touching a b ->
      Rect.isOverlapping a b = false /\ Bin.isOverlapping a b = false).
Proof.
  intros a b.
  apply (overlap_test_is_interior_intersection a b);
    unfold positive; simpl; lia.
Defined.

(** ** The lower bound *)

Lemma totalArea_from (items : list Rect.t) (acc : Z) :
  foldl (fun area rect => area + Rect.width rect * Rect.height rect)
    acc items = acc + sumAreas items.
Proof.
  revert acc. induction items as [|r items IH]; intros acc; simpl.
  - lia.
  - rewrite IH. lia.
Qed.

Lemma totalArea_sumAreas (items : list Rect.t) :
  RBPSolution.totalArea items = sumAreas items.
Proof. unfold RBPSolution.totalArea. rewrite totalArea_from. lia. Qed.

Lemma sumAreas_nonneg (items : list Rect.t) :
  Forall positive items -> 0 <= sumAreas items.
Proof.
  induction 1 as [|r items [Hw Hh] _ IH]; simpl; [lia | nia].
Qed.

Lemma py_int_quotient_succ (a b : Z) :
  0 <= a -> 0 < b -> py_int (inject_Z a / inject_Z b + 1)%Q = a / b + 1.
Proof.
  intros Ha Hb. destruct b as [|p|p]; try lia.
  unfold py_int, Qdiv, Qmult, Qinv, Qplus, inject_Z. simpl.
  rewrite Z.quot_div_nonneg by lia.
  rewrite ?Pos.mul_1_l, ?Pos.mul_1_r, ?Z.mul_1_r.
  rewrite Z.div_add by lia. reflexivity.
Qed.

Lemma computeLowerBound_value (self : RBPSolution.t) (items : list Rect.t) :
  0 < RBPSolution.binWidth self -> 0 < RBPSolution.binHeight self ->
  Forall positive items ->
  RBPSolution.computeLowerBound self (Some items)
  = Ok (sumAreas items
        / (RBPSolution.binWidth self * RBPSolution.binHeight self) + 1).
Proof.
  intros HW HH Hpos.
  unfold RBPSolution.computeLowerBound, truediv.
  destruct (Z.eqb_spec (RBPSolution.binWidth self * RBPSolution.binHeight self)
              0) as [E|_]; [nia|].
  simpl. rewrite totalArea_sumAreas.
  rewrite py_int_quotient_succ; [reflexivity | | nia].
  by apply sumAreas_nonneg.
Qed.

(** *** Binary64 rounding

    What the proofs below use of [Float64.round64]: a binary64 number
    above the exact result stays above the rounded one, and one below
    stays below. *)

Lemma pow2_pos (e : Z) : (0 < Float64.pow2 e)%Q.
Proof. apply Qpower_0_lt. reflexivity. Qed.

Lemma pow2_add (a b : Z) :
  (Float64.pow2 (a + b) == Float64.pow2 a * Float64.pow2 b)%Q.
Proof. apply Qpower_plus. discriminate. Qed.

Lemma pow2_le (a b : Z) : a <= b -> (Float64.pow2 a <= Float64.pow2 b)%Q.
Proof. intros H. apply Qpower_le_compat_l; [exact H | discriminate]. Qed.

Lemma pow2_lt_inv (a b : Z) :
  (Float64.pow2 a < Float64.pow2 b)%Q -> a < b.
Proof. intros H. eapply Qpower_lt_compat_l_inv; [exact H | reflexivity]. Qed.

Lemma pow2_Z (e : Z) : 0 <= e -> (Float64.pow2 e == inject_Z (2 ^ e))%Q.
Proof. intros H. symmetry. apply (Zpower_Qpower 2 e H). Qed.

Lemma Qdiv_le_cross (a b c d : Q) :
  (0 <= a)%Q -> (a <= c)%Q -> (0 < d)%Q -> (d <= b)%Q -> (a / b <= c / d)%Q.
Proof.
  intros Ha Hac Hd Hdb.
  assert (Hb : (0 < b)%Q) by lra.
  apply Qle_shift_div_l; [exact Hd|].
  unfold Qdiv. rewrite <- Qmult_assoc, (Qmult_comm (/ b)), Qmult_assoc.
  apply Qle_shift_div_r; [exact Hb|]. nra.
Qed.

Lemma binade_le (x : Q) : (0 < x)%Q -> (Float64.pow2 (Float64.binade x) <= x)%Q.
Proof.
  intros Hx. unfold Float64.binade.
  destruct (Qle_bool _ _) eqn:E; [by apply Qle_bool_iff|].
  destruct x as [n d]. simpl Qnum. simpl Qden.
  set (ln := Z.log2 n). set (ld := Z.log2 (Z.pos d)).
  assert (Hn : 0 < n).
  { unfold Qlt in Hx. simpl in Hx. lia. }
  destruct (Z.log2_spec n Hn) as [Hn1 _]. fold ln in Hn1.
  destruct (Z.log2_spec (Z.pos d) eq_refl) as [_ Hd2]. fold ld in Hd2.
  assert (Hln : 0 <= ln) by apply Z.log2_nonneg.
  assert (Hld : 0 <= ld) by apply Z.log2_nonneg.
  replace (ln - ld - 1) with (ln + - (ld + 1)) by lia.
  rewrite pow2_add. unfold Float64.pow2 at 2. rewrite Qpower_opp.
  fold (Float64.pow2 (ld + 1)). rewrite !pow2_Z by lia.
  rewrite (Qmake_Qdiv n d).
  apply Qdiv_le_cross.
  - replace 0%Q with (inject_Z 0) by reflexivity. rewrite <- Zle_Qle. lia.
  - rewrite <- Zle_Qle. exact Hn1.
  - reflexivity.
  - rewrite <- Zle_Qle. rewrite <- Z.add_1_r in Hd2. lia.
Qed.

(** *** Rounding to an integer *)

Lemma rne_floor (q : Q) : Qfloor q <= Float64.rne q <= Qfloor q + 1.
Proof.
  unfold Float64.rne. destruct (_ ?= _)%Q; [destruct (Z.even _)|..]; lia.
Qed.

Lemma rne_ge_int (q : Q) (G : Z) : (inject_Z G <= q)%Q -> G <= Float64.rne q.
Proof.
  intros H. apply Qfloor_resp_le in H. rewrite Qfloor_Z in H.
  pose proof (rne_floor q). lia.
Qed.

Lemma rne_le_int (q : Q) (G : Z) : (q <= inject_Z G)%Q -> Float64.rne q <= G.
Proof.
  intros H. pose proof (Qfloor_le q) as Hfl.
  assert (Hf : Qfloor q <= G).
  { apply Qfloor_resp_le in H. by rewrite Qfloor_Z in H. }
  unfold Float64.rne.
  destruct (_ ?= _)%Q eqn:E.
  - destruct (Z.even _); [exact Hf|].
    apply Qeq_alt in E.
    assert (Hlt : (inject_Z (Qfloor q) < inject_Z G)%Q) by lra.
    rewrite <- Zlt_Qlt in Hlt. lia.
  - exact Hf.
  - apply Qgt_alt in E.
    assert (Hlt : (inject_Z (Qfloor q) < inject_Z G)%Q) by lra.
    rewrite <- Zlt_Qlt in Hlt. lia.
Qed.

(** *** Rounding against representable bounds *)

Lemma round64_pos (x : Q) :
  (0 < x)%Q ->
  (Float64.round64 x
   == inject_Z (Float64.rne (x / Float64.pow2 (Float64.ulpExp x)))
      * Float64.pow2 (Float64.ulpExp x))%Q.
Proof.
  intros Hx. unfold Float64.round64. destruct x as [[|n|n] d].
  - unfold Qlt in Hx. simpl in Hx. lia.
  - simpl Qnum. cbv iota zeta. apply Qred_correct.
  - unfold Qlt in Hx. simpl in Hx. lia.
Qed.

Lemma round64_zero (x : Q) : (x == 0)%Q -> Float64.round64 x = 0%Q.
Proof.
  intros Hx. unfold Float64.round64. destruct x as [[|n|n] d];
    [reflexivity | |]; unfold Qeq in Hx; simpl in Hx; lia.
Qed.

(** A representable number at or above [x] lies on the grid [x] is rounded
    to. *)
Lemma grid_above (x g : Q) (k e : Z) :
  (0 < x)%Q -> (x <= g)%Q ->
  (g == inject_Z k * Float64.pow2 e)%Q -> 0 <= k < 2 ^ 53 -> -1074 <= e ->
  Float64.ulpExp x <= e.
Proof.
  intros Hx Hxg Hg Hk He. unfold Float64.ulpExp.
  destruct (Z.max_spec (Float64.binade x) (-1022)) as [[_ ->] | [Hb ->]];
    [lia|].
  pose proof (binade_le x Hx) as Hb2.
  pose proof (pow2_pos e) as Hpe.
  assert (Hlt : (Float64.pow2 (Float64.binade x) < Float64.pow2 (53 + e))%Q).
  { rewrite (pow2_add 53 e), (pow2_Z 53) by lia.
    assert (Hk53 : (inject_Z k < inject_Z (2 ^ 53))%Q)
      by (rewrite <- Zlt_Qlt; lia).
    eapply Qle_lt_trans; [exact Hb2|]. eapply Qle_lt_trans; [exact Hxg|].
    rewrite Hg. apply Qmult_lt_compat_r; assumption. }
  apply pow2_lt_inv in Hlt. lia.
Qed.

Lemma on_grid (k e e0 : Z) :
  e0 <= e ->
  (inject_Z k * Float64.pow2 e
   == inject_Z (k * 2 ^ (e - e0)) * Float64.pow2 e0)%Q.
Proof.
  intros H. replace e with ((e - e0) + e0) at 1 by lia.
  rewrite (pow2_add (e - e0) e0), (pow2_Z (e - e0)) by lia.
  rewrite inject_Z_mult. ring.
Qed.

Lemma round64_le (x g : Q) :
  (0 < x)%Q -> (x <= g)%Q -> Float64.rep g -> (Float64.round64 x <= g)%Q.
Proof.
  intros Hx Hxg (k & e & Hg & Hk & He).
  pose proof (grid_above x g k e Hx Hxg Hg Hk He) as Hgrid.
  rewrite (round64_pos x Hx).
  set (e0 := Float64.ulpExp x) in *.
  pose proof (pow2_pos e0) as Hu.
  rewrite Hg, (on_grid k e e0 Hgrid).
  apply Qmult_le_compat_r; [|lra].
  rewrite <- Zle_Qle. apply rne_le_int.
  apply Qle_shift_div_r; [exact Hu|].
  rewrite <- (on_grid k e e0 Hgrid), <- Hg. exact Hxg.
Qed.

Lemma round64_ge (x g : Q) :
  (0 < x)%Q -> (g <= x)%Q -> Float64.rep g -> (g <= Float64.round64 x)%Q.
Proof.
  intros Hx Hgx (k & e & Hg & Hk & He).
  rewrite (round64_pos x Hx).
  set (e0 := Float64.ulpExp x) in *.
  pose proof (pow2_pos e0) as Hu.
  destruct (Z.le_gt_cases e0 e) as [Hgrid | Hfine].
  - rewrite Hg, (on_grid k e e0 Hgrid).
    apply Qmult_le_compat_r; [|lra].
    rewrite <- Zle_Qle. apply rne_ge_int.
    apply Qle_shift_div_l; [exact Hu|].
    rewrite <- (on_grid k e e0 Hgrid), <- Hg. exact Hgx.
  - assert (Eb : e0 = Float64.binade x - 52).
    { unfold e0, Float64.ulpExp in *. lia. }
    pose proof (binade_le x Hx) as Hb.
    assert (Hgb : (g <= Float64.pow2 (Float64.binade x))%Q).
    { rewrite Hg. replace (Float64.binade x) with (53 + (e0 - 1)) by lia.
      rewrite (pow2_add 53 (e0 - 1)), (pow2_Z 53) by lia.
      assert (Hk53 : (inject_Z k <= inject_Z (2 ^ 53))%Q)
        by (rewrite <- Zle_Qle; lia).
      assert (Hk0 : (0 <= inject_Z k)%Q)
        by (replace 0%Q with (inject_Z 0) by reflexivity;
            rewrite <- Zle_Qle; lia).
      pose proof (pow2_le e (e0 - 1) ltac:(lia)).
      pose proof (pow2_pos e). pose proof (pow2_pos (e0 - 1)).
      nra. }
    eapply Qle_trans; [exact Hgb|].
    replace (Float64.binade x) with (52 + e0) at 1 by lia.
    rewrite (pow2_add 52 e0), (pow2_Z 52) by lia.
    apply Qmult_le_compat_r; [|lra].
    rewrite <- Zle_Qle. apply rne_ge_int.
    apply Qle_shift_div_l; [exact Hu|].
    rewrite <- (pow2_Z 52) by lia. rewrite <- pow2_add.
    replace (52 + e0) with (Float64.binade x) by lia. exact Hb.
Qed.

(** *** Operations that stay within representable bounds *)

Lemma rep_int (k : Z) : 0 <= k < 2 ^ 53 -> Float64.rep (inject_Z k).
Proof.
  intros Hk. exists k, 0. split; [|split; [exact Hk | lia]].
  unfold Float64.pow2. simpl. ring.
Qed.

Lemma rep_scaled (k j : Z) :
  0 <= k < 2 ^ 53 -> 0 <= j <= 1074 ->
  Float64.rep (inject_Z k * Float64.pow2 (- j)).
Proof. intros Hk Hj. exists k, (- j). split; [reflexivity|]. split; [exact Hk | lia]. Qed.

Lemma ret_between (x lo hi : Q) :
  (0 <= lo)%Q -> (lo <= x)%Q -> (x <= hi)%Q ->
  Float64.rep lo -> Float64.rep hi -> (hi < Float64.pow2 1024)%Q ->
  exists r, Float64.ret x = Ok r /\ (lo <= r)%Q /\ (r <= hi)%Q.
Proof.
  intros Hlo Hlx Hxh Rlo Rhi Hfin.
  assert (Hr : (lo <= Float64.round64 x)%Q /\ (Float64.round64 x <= hi)%Q).
  { destruct (Qlt_le_dec 0 x) as [Hpos | Hneg].
    - split; [by apply round64_ge | by apply round64_le].
    - assert (E : (x == 0)%Q) by lra. rewrite (round64_zero x E). lra. }
  destruct Hr as [Hr1 Hr2]. exists (Float64.round64 x). split; [|by split].
  unfold Float64.ret. cbv zeta.
  destruct (Qle_bool _ _) eqn:E; [|reflexivity].
  apply Qle_bool_iff in E. rewrite Qabs_pos in E by lra. lra.
Qed.

(** A number that is representable is returned as it is. *)
Lemma ret_exact (x : Q) :
  (0 <= x)%Q -> Float64.rep x -> (x < Float64.pow2 1024)%Q ->
  exists r, Float64.ret x = Ok r /\ (r == x)%Q.
Proof.
  intros H0 Hrep Hfin.
  destruct (ret_between x x x) as (r & E & H1 & H2); try assumption; try lra.
  exists r. split; [exact E | lra].
Qed.

Lemma pow2_54_lt : (inject_Z (2 ^ 54) < Float64.pow2 1024)%Q.
Proof.
  rewrite <- (pow2_Z 54) by lia.
  apply Qpower_lt_compat_l; [lia | reflexivity].
Qed.

(** *** [int] of a float *)

Lemma py_int_floor (q : Q) : (0 <= q)%Q -> py_int q = Qfloor q.
Proof.
  destruct q as [a d]. unfold Qle, py_int, Qfloor. simpl.
  intros Ha. apply Z.quot_div_nonneg; lia.
Qed.

Lemma py_int_between (q : Q) (k : Z) :
  0 <= k -> (inject_Z k <= q)%Q -> (q < inject_Z (k + 1))%Q -> py_int q = k.
Proof.
  intros Hk Hlo Hhi.
  assert (H0 : (0 <= q)%Q).
  { eapply Qle_trans; [|exact Hlo].
    replace 0%Q with (inject_Z 0) by reflexivity. rewrite <- Zle_Qle. lia. }
  rewrite py_int_floor by exact H0.
  apply Qfloor_resp_le in Hlo. rewrite Qfloor_Z in Hlo.
  pose proof (Qfloor_le q) as Hfl.
  assert (Hlt : (inject_Z (Qfloor q) < inject_Z (k + 1))%Q) by lra.
  rewrite <- Zlt_Qlt in Hlt. lia.
Qed.

(** *** Adding one and truncating *)

Lemma pow2_neg (j : Z) : 0 <= j -> (Float64.pow2 (- j) == / inject_Z (2 ^ j))%Q.
Proof.
  intros Hj. unfold Float64.pow2. rewrite Qpower_opp.
  fold (Float64.pow2 j). by rewrite pow2_Z.
Qed.

(** [int(x + 1)] for a float [x] rounded from a number between the integer
    [m] and a representable number just below [m + 1]. *)
Lemma succ_floor64 (x : Q) (m j : Z) :
  0 <= m -> 0 <= j <= 1074 -> (m + 2) * 2 ^ j <= 2 ^ 53 ->
  (inject_Z m <= x)%Q ->
  (x <= inject_Z ((m + 1) * 2 ^ j - 1) * Float64.pow2 (- j))%Q ->
  exists q s,
    Float64.ret x = Ok q /\ Float64.add q 1 = Ok s /\ py_int s = m + 1
    /\ (inject_Z m <= q)%Q /\ (q < inject_Z (m + 1))%Q.
Proof.
  intros Hm Hj Hsmall Hlo Hhi.
  assert (Hpj : 0 < 2 ^ j) by (apply Z.pow_pos_nonneg; lia).
  assert (Hm53 : m + 2 <= 2 ^ 53) by nia.
  set (K := (m + 1) * 2 ^ j - 1) in *.
  assert (HK : 0 <= K /\ K + 2 ^ j < 2 ^ 53) by (unfold K; nia).
  pose proof pow2_54_lt as H54.
  pose proof (pow2_pos (- j)) as Hu.
  assert (Hinv : (inject_Z (2 ^ j) * Float64.pow2 (- j) == 1)%Q).
  { rewrite pow2_neg by lia. apply Qmult_inv_r.
    intros E. change 0%Q with (inject_Z 0) in E.
    rewrite inject_Z_injective in E. lia. }
  assert (Hhi1 : (inject_Z K * Float64.pow2 (- j) < inject_Z (m + 1))%Q).
  { assert (E : (inject_Z (m + 1)
                 == inject_Z (K + 1) * Float64.pow2 (- j))%Q).
    { replace (K + 1) with ((m + 1) * 2 ^ j) by (unfold K; lia).
      rewrite inject_Z_mult, <- Qmult_assoc, Hinv. ring. }
    rewrite E. apply Qmult_lt_compat_r; [exact Hu|].
    rewrite <- Zlt_Qlt. lia. }
  assert (Hm1 : (inject_Z (m + 1) + 1 <= inject_Z (2 ^ 54))%Q).
  { change 1%Q with (inject_Z 1) at 1. rewrite <- inject_Z_plus, <- Zle_Qle.
    lia. }
  assert (Hm0 : (0 <= inject_Z m)%Q).
  { replace 0%Q with (inject_Z 0) by reflexivity. rewrite <- Zle_Qle. lia. }
  set (hi := (inject_Z K * Float64.pow2 (- j))%Q) in *.
  assert (Rhi : Float64.rep hi) by (apply rep_scaled; lia).
  destruct (ret_between x (inject_Z m) hi)
    as (q & Eq & Hq1 & Hq2); try assumption.
  { apply rep_int. lia. }
  { lra. }
  assert (Eone : (hi + 1 == inject_Z (K + 2 ^ j) * Float64.pow2 (- j))%Q).
  { unfold hi. rewrite inject_Z_plus, Qmult_plus_distr_l, Hinv. reflexivity. }
  assert (Rhi2 : Float64.rep (inject_Z (K + 2 ^ j) * Float64.pow2 (- j)))
    by (apply rep_scaled; lia).
  set (hi2 := (inject_Z (K + 2 ^ j) * Float64.pow2 (- j))%Q) in *.
  assert (Em2 : (inject_Z (m + 1 + 1) == inject_Z (m + 1) + 1)%Q)
    by (rewrite inject_Z_plus; reflexivity).
  assert (Em1 : (inject_Z (m + 1) == inject_Z m + 1)%Q)
    by (rewrite inject_Z_plus; reflexivity).
  destruct (ret_between (q + 1) (inject_Z (m + 1)) hi2)
    as (s & Es & Hs1 & Hs2); try assumption; try lra.
  { apply rep_int. lia. }
  exists q, s. split; [exact Eq|]. split; [exact Es|].
  split; [|split; [exact Hq1 | lra]].
  apply py_int_between; [lia | exact Hs1 | lra].
Qed.

Lemma Zfrac_le (a b c d : Z) :
  0 < b -> 0 < d -> a * d <= c * b ->
  (inject_Z a / inject_Z b <= inject_Z c / inject_Z d)%Q.
Proof.
  intros Hb Hd H.
  assert (Hb' : (0 < inject_Z b)%Q)
    by (replace 0%Q with (inject_Z 0) by reflexivity; rewrite <- Zlt_Qlt; lia).
  assert (Hd' : (0 < inject_Z d)%Q)
    by (replace 0%Q with (inject_Z 0) by reflexivity; rewrite <- Zlt_Qlt; lia).
  apply Qle_shift_div_l; [exact Hd'|].
  unfold Qdiv. rewrite <- Qmult_assoc, (Qmult_comm (/ inject_Z b)), Qmult_assoc.
  apply Qle_shift_div_r; [exact Hb'|].
  rewrite <- !inject_Z_mult, <- Zle_Qle. exact H.
Qed.

(** [int(a / b + 1)] in binary64 is the floor of the quotient plus one as
    long as [a] is below 2^50. *)
Lemma quotient_succ64 (a b : Z) :
  0 <= a < 2 ^ 50 -> 0 < b ->
  exists q s,
    Float64.truediv a b = Ok q /\ Float64.add q 1 = Ok s
    /\ py_int s = a / b + 1.
Proof.
  intros Ha Hb. unfold Float64.truediv.
  destruct (Z.eqb_spec b 0) as [E|_]; [lia|].
  set (m := a / b).
  assert (Hm : 0 <= m) by (apply Z.div_pos; lia).
  pose proof (Z.div_mod a b ltac:(lia)) as Ediv.
  pose proof (Z.mod_pos_bound a b Hb) as Hmod. fold m in Ediv.
  assert (Hlo : (inject_Z m <= inject_Z a / inject_Z b)%Q).
  { unfold m. rewrite Zdiv_Qdiv. apply Qfloor_le. }
  assert (Hxle : forall j, 0 <= j -> b <= (b - a mod b) * 2 ^ j ->
            (inject_Z a / inject_Z b
             <= inject_Z ((m + 1) * 2 ^ j - 1) * Float64.pow2 (- j))%Q).
  { intros j Hj Hbj.
    assert (Hpj : 0 < 2 ^ j) by (apply Z.pow_pos_nonneg; lia).
    rewrite pow2_neg by lia.
    apply (Zfrac_le a b ((m + 1) * 2 ^ j - 1) (2 ^ j)); [lia | lia | nia]. }
  destruct (Z.lt_ge_cases a b) as [Hsmall | Hbig].
  - assert (Em : m = 0) by (unfold m; apply Z.div_small; lia).
    assert (Er : a mod b = a) by (apply Z.mod_small; lia).
    destruct (succ_floor64 (inject_Z a / inject_Z b) m 50)
      as (q & s & Eq & Es & Hs & _); [lia | lia | | exact Hlo | |].
    { rewrite Em. simpl. lia. }
    { apply Hxle; [lia|]. rewrite Er. lia. }
    exists q, s. auto.
  - set (j := Z.log2_up b).
    assert (Hj0 : 0 <= j) by apply Z.log2_up_nonneg.
    assert (Hm1 : 1 <= m) by (unfold m; apply Z.div_le_lower_bound; lia).
    assert (Hbj : b <= 2 ^ j /\ 2 ^ j < 2 * b \/ b = 1 /\ j = 0).
    { destruct (Z.eq_dec b 1) as [-> | Hne]; [right; split; reflexivity|].
      left. destruct (Z.log2_up_spec b ltac:(lia)) as [H1 H2]. fold j in H1, H2.
      split; [exact H2|].
      assert (Hj1 : 0 < j) by (apply Z.log2_up_pos; lia).
      replace j with (Z.succ (Z.pred j)) by lia.
      rewrite Z.pow_succ_r by lia. lia. }
    assert (Hpj : 0 < 2 ^ j) by (apply Z.pow_pos_nonneg; lia).
    assert (Hj50 : j <= 1074).
    { destruct Hbj as [[H1 H2] | [_ ->]]; [|lia].
      assert (2 ^ j < 2 ^ 51) by lia.
      apply Z.pow_lt_mono_r_iff in H; lia. }
    destruct (succ_floor64 (inject_Z a / inject_Z b) m j)
      as (q & s & Eq & Es & Hs & _); [lia | lia | | exact Hlo | |].
    { destruct Hbj as [[H1 H2] | [Eb Ej]]; [nia|].
      rewrite Ej, Z.pow_0_r. subst b. unfold m. rewrite Z.div_1_r. lia. }
    { apply Hxle; [lia|]. destruct Hbj as [[H1 H2] | [Eb Ej]]; [nia|].
      rewrite Ej, Z.pow_0_r. lia. }
    exists q, s. auto.
Qed.

(** C4, as the code behaves.  The quotient and the sum of
    [int(area/(W*H) + 1)] are binary64 numbers.  For items of positive
    width and height whose total area is below 2^50, and a bin of positive
    width and height, [computeLowerBound] returns the floor of the total
    item area over the bin area, plus one, as with the quotient kept
    exact; when the total area is [k] times the bin area the result is
    [k + 1], above the exact quotient [k]. *)
Theorem computeLowerBound_is_floor_plus_one
    (self : RBPSolution.t) (items : list Rect.t) :
  0 < RBPSolution.binWidth self -> 0 < RBPSolution.binHeight self ->
  Forall positive items ->
  sumAreas items < 2 ^ 50 ->
  let binArea := RBPSolution.binWidth self * RBPSolution.binHeight self in
  RBPSolution.computeLowerBound64 self (Some items)
  = Ok (sumAreas items / binArea + 1)
  /\ RBPSolution.computeLowerBound64 self (Some items)
     = RBPSolution.computeLowerBound self (Some items)
  /\ (forall k, sumAreas items = k * binArea ->
      RBPSolution.computeLowerBound64 self (Some items) = Ok (k + 1)
      /\ k < k + 1).
Proof.
  intros HW HH Hpos Hsmall binArea.
  assert (HB : 0 < binArea) by (unfold binArea; nia).
  pose proof (sumAreas_nonneg items Hpos) as Hnn.
  assert (Hlb : RBPSolution.computeLowerBound64 self (Some items)
                = Ok (sumAreas items / binArea + 1)).
  { unfold RBPSolution.computeLowerBound64. rewrite totalArea_sumAreas.
    fold binArea.
    destruct (quotient_succ64 (sumAreas items) binArea)
      as (q & s & -> & Es & <-); [lia | exact HB|].
    cbn [mbind result_bind]. rewrite Es. reflexivity. }
  split; [exact Hlb|]. split.
  - rewrite Hlb. symmetry. by apply computeLowerBound_value.
  - intros k Hk. rewrite Hlb, Hk, Z.div_mul by lia.
    split; [reflexivity | lia].
Qed.

Lemma computeLowerBound_is_floor_plus_one_witness :
  let self := RBPSolution.new 10 10 in
  let items := [Rect.new 10 10; Rect.new 5 20] in
  RBPSolution.computeLowerBound64 self (Some items) = Ok (200 / 100 + 1)
  /\ RBPSolution.computeLowerBound64 self (Some items)
     = RBPSolution.computeLowerBound self (Some items)
  /\ (forall k, sumAreas items = k * 100 ->
      RBPSolution.computeLowerBound64 self (Some items) = Ok (k + 1)
      /\ k < k + 1).
Proof.
  intros self items.
  apply (computeLowerBound_is_floor_plus_one self items).
  - simpl. lia.
  - simpl. lia.
  - repeat constructor; simpl; lia.
  - vm_compute. reflexivity.
Defined.

(** C4, as stated, fails for a large area: for one item of 2^53 + 1 by 1
    and 1 x 1 bins the floor of the quotient plus one is 2^53 + 2, and
    the code returns 2^53: the quotient is rounded to 2^53, and so is
    the sum 2^53 + 1. *)
Lemma computeLowerBound_large_area_counterexample :
  let self := RBPSolution.new 1 1 in
  let items := [Rect.new (2 ^ 53 + 1) 1] in
  RBPSolution.computeLowerBound64 self (Some items) = Ok 9007199254740992
  /\ sumAreas items
     / (RBPSolution.binWidth self * RBPSolution.binHeight self) + 1
     = 9007199254740994
  /\ RBPSolution.computeLowerBound64 self (Some items)
     <> Ok (sumAreas items
            / (RBPSolution.binWidth self * RBPSolution.binHeight self) + 1).
Proof.
  intros self items.
  assert (E : RBPSolution.computeLowerBound64 self (Some items)
              = Ok 9007199254740992) by (vm_compute; reflexivity).
  split; [exact E|]. split; [vm_compute; reflexivity|].
  rewrite E. vm_compute. discriminate.
Qed.

(** ** The touching perimeter *)

Lemma Bin_computeCommonLength_overlap (s1 e1 s2 e2 : Z) :
  s1 < e1 -> s2 < e2 ->
  Bin.computeCommonLength s1 e1 s2 e2 = overlapLength s1 e1 s2 e2.
Proof.
  intros H1 H2. unfold Bin.computeCommonLength, overlapLength.
  zbool_goal; lia.
Qed.

Lemma touchingStep_itemContact (x y width height acc : Z) (r : Rect.t) :
  0 < width -> 0 < height -> positive r ->
  Bin.touchingStep x y width height acc r
  = acc + itemContact x y width height r.
Proof.
  intros Hw Hh [Hrw Hrh]. unfold Bin.touchingStep, itemContact.
  rewrite !Bin_computeCommonLength_overlap by lia.
  zbool_goal; lia.
Qed.

Lemma touching_foldl (x y width height : Z) (items : list Rect.t) :
  0 < width -> 0 < height -> Forall positive items ->
  forall acc,
    foldl (Bin.touchingStep x y width height) acc items
    = acc + itemsContact x y width height items.
Proof.
  intros Hw Hh. induction 1 as [|r items Hr _ IH]; intros acc; simpl.
  - lia.
  - rewrite IH, touchingStep_itemContact by assumption. lia.
Qed.

(** C6, as the code computes it.  For a candidate of positive width and
    height in a bin whose packed items have positive width and height,
    [computeTouchingPerimeter] returns the candidate's height if its left
    or its right edge lies on the bin's (once, also when both do), plus its
    width if its bottom or its top edge lies on the bin's (once), plus the
    length of boundary shared with each packed item; this is the sum over
    every coincident edge unless the candidate spans the whole width or the
    whole height of the bin. *)
Theorem computeTouchingPerimeter_counts_opposite_edges_once
    (self : Bin.t) (x y width height : Z) :
  0 < width -> 0 < height -> Forall positive (Bin.packedRects self) ->
  Bin.computeTouchingPerimeter self x y width height
  = binEdgeContactOnce self x y width height
    + itemsContact x y width height (Bin.packedRects self)
  /\ (~ (x = 0 /\ x + width = Bin.binWidth self) ->
      ~ (y = 0 /\ y + height = Bin.binHeight self) ->
      Bin.computeTouchingPerimeter self x y width height
      = touchingPerimeterByEdge self x y width height).
Proof.
  intros Hw Hh Hpos.
  assert (E : Bin.computeTouchingPerimeter self x y width height
              = binEdgeContactOnce self x y width height
                + itemsContact x y width height (Bin.packedRects self)).
  { unfold Bin.computeTouchingPerimeter. rewrite touching_foldl by assumption.
    unfold binEdgeContactOnce. zbool_goal; lia. }
  split; [exact E|].
  intros Hx Hy. rewrite E.
  unfold touchingPerimeterByEdge, binEdgeContactOnce, binEdgeContact.
  zbool_goal; lia.
Qed.

Lemma computeTouchingPerimeter_counts_opposite_edges_once_witness :
  let self :=
    Bin.packRect (MaxSpaceBin.init (MaxSpaceBin.new 10 10))
      (Rect.set_y (Rect.set_x (Rect.new 6 4) 0) 0) in
  Bin.computeTouchingPerimeter self 6 0 4 6
  = binEdgeContactOnce self 6 0 4 6
    + itemsContact 6 0 4 6 (Bin.packedRects self)
  /\ (~ (6 = 0 /\ 6 + 4 = Bin.binWidth self) ->
      ~ (0 = 0 /\ 0 + 6 = Bin.binHeight self) ->
      Bin.computeTouchingPerimeter self 6 0 4 6
      = touchingPerimeterByEdge self 6 0 4 6).
Proof.
  intros self.
  apply (computeTouchingPerimeter_counts_opposite_edges_once self 6 0 4 6).
  - lia.
  - lia.
  - repeat constructor; simpl; lia.
Defined.

(** C6, as stated, fails: a candidate filling an empty 10 x 10 bin lies on
    all four edges (total length 40), and the code returns 20. *)
Lemma computeTouchingPerimeter_full_bin_counterexample :
  let self := MaxSpaceBin.init (MaxSpaceBin.new 10 10) in
  touchingPerimeterByEdge self 0 0 10 10 = 40
  /\ Bin.computeTouchingPerimeter self 0 0 10 10 = 20
  /\ Bin.computeTouchingPerimeter self 0 0 10 10
     <> touchingPerimeterByEdge self 0 0 10 10.
Proof. vm_compute. repeat split; congruence. Qed.

(** ** The least-filled bin and the solution value *)

Lemma Qltb_lt (a b : Q) : Qltb a b = true <-> (a < b)%Q.
Proof.
  unfold Qltb. rewrite negb_true_iff, <- not_true_iff_false, Qle_bool_iff.
  split; [apply Qnot_le_lt | apply Qlt_not_le].
Qed.

Lemma Qltb_ge (a b : Q) : Qltb a b = false <-> (b <= a)%Q.
Proof.
  unfold Qltb. rewrite negb_false_iff, Qle_bool_iff. reflexivity.
Qed.

Lemma getOccupancy_hasArea (b : Bin.t) :
  hasArea b -> Bin.getOccupancy b = Ok (occupancy b).
Proof.
  unfold hasArea, Bin.getOccupancy, truediv, occupancy. intros H.
  destruct (Z.eqb_spec (Bin.binWidth b * Bin.binHeight b) 0); [lia|].
  reflexivity.
Qed.






Lemma getLeastFilledLoop_empty_bin (bins : list Bin.t) :
  Forall hasArea bins ->
  Exists (fun b => Bin.occupiedArea b = 0) bins ->
  forall st,
    RBPSolution.getLeastFilledLoop bins st
    = Raise (RuntimeError "Wrong occupancy").
Proof.
  induction 1 as [|b bins Hb Hall IH]; intros Hex st.
  - inversion Hex.
  - simpl. unfold RBPSolution.getLeastFilledStep.
    rewrite getOccupancy_hasArea by assumption. simpl.
    destruct (Qle_bool (occupancy b) 0 || Qltb 1 (occupancy b)) eqn:E;
      [reflexivity|].
    apply Exists_cons in Hex as [H0 | Hex].
    + exfalso. apply orb_false_iff in E as [E _].
      apply not_true_iff_false in E. apply E. apply Qle_bool_iff.
      unfold occupancy. rewrite H0. unfold Qdiv.
      rewrite Qmult_0_l. apply Qle_refl.
    + destruct (Qltb (occupancy b) st.1); simpl; by apply IH.
Qed.

(** C10. In a solution whose bins have a non-zero area, if some bin is
    empty (occupied area 0, hence occupancy exactly 0), [getLeastFilledBin]
    and [solutionValue] raise RuntimeError("Wrong occupancy"); [pack]
    produces such a solution when it opens more bins than the items fill. *)
Theorem empty_bin_raises_wrong_occupancy (self : RBPSolution.t) :
  Forall hasArea (RBPSolution.binList self) ->
  Exists (fun b => Bin.occupiedArea b = 0) (RBPSolution.binList self) ->
  RBPSolution.getLeastFilledBin self = Raise (RuntimeError "Wrong occupancy")
  /\ RBPSolution.solutionValue self = Raise (RuntimeError "Wrong occupancy")
  /\ exists packed : RBPSolution.t,
       fullBinSolution = Ok packed
       /\ Exists (fun b => Bin.packedRects b = [] /\ Bin.occupiedArea b = 0)
            (RBPSolution.binList packed)
       /\ RBPSolution.solutionValue packed
          = Raise (RuntimeError "Wrong occupancy").
Proof.
  intros Hall Hex.
  assert (E : RBPSolution.getLeastFilledBin self
              = Raise (RuntimeError "Wrong occupancy")).
  { unfold RBPSolution.getLeastFilledBin.
    by rewrite getLeastFilledLoop_empty_bin. }
  split; [exact E|]. split.
  - unfold RBPSolution.solutionValue. by rewrite E.
  - eexists. split; [vm_compute; reflexivity|]. split.
    + apply Exists_cons_tl, Exists_cons_hd. split; reflexivity.
    + vm_compute. reflexivity.
Qed.

Lemma empty_bin_raises_wrong_occupancy_witness :
  let self :=
    RBPSolution.set_binList (RBPSolution.new 4 4)
      [MaxSpaceBin.init (MaxSpaceBin.new 4 4)] in
  RBPSolution.getLeastFilledBin self = Raise (RuntimeError "Wrong occupancy")
  /\ RBPSolution.solutionValue self = Raise (RuntimeError "Wrong occupancy")
  /\ exists packed : RBPSolution.t,
       fullBinSolution = Ok packed
       /\ Exists (fun b => Bin.packedRects b = [] /\ Bin.occupiedArea b = 0)
            (RBPSolution.binList packed)
       /\ RBPSolution.solutionValue packed
          = Raise (RuntimeError "Wrong occupancy").
Proof.
  intros self. apply (empty_bin_raises_wrong_occupancy self).
  - repeat constructor. unfold hasArea. simpl. lia.
  - apply Exists_cons_hd. reflexivity.
Defined.

(** ** Evaluation of a placement *)

Section LoopInvariants.

Context {A St : Type} (l0 : list A) (Inv : St -> Prop).

Lemma drop_cons_lookup (i : nat) (a : A) (l : list A) :
  drop i l0 = a :: l -> l0 !! i = Some a /\ drop (S i) l0 = l.
Proof.
  intros H. split.
  - rewrite <- (Nat.add_0_r i), <- lookup_drop, H. reflexivity.
  - rewrite <- Nat.add_1_l, Nat.add_comm, <- drop_drop, H. reflexivity.
Qed.

Lemma for_enumerate_inv (body : St -> nat -> A -> St) :
  (forall s i a, l0 !! i = Some a -> Inv s -> Inv (body s i a)) ->
  forall l i s, drop i l0 = l -> Inv s -> Inv (for_enumerate body i l s).
Proof.
  intros Hbody. induction l as [|a l IH]; intros i s Hdrop Hs; simpl.
  - exact Hs.
  - apply drop_cons_lookup in Hdrop as [Ha Hl]. eauto.
Qed.

Lemma for_enumerate_r_inv (body : St -> nat -> A -> result St) :
  (forall s i a, l0 !! i = Some a -> Inv s ->
     exists s', body s i a = Ok s' /\ Inv s') ->
  forall l i s, drop i l0 = l -> Inv s ->
    exists s', for_enumerate_r body i l s = Ok s' /\ Inv s'.
Proof.
  intros Hbody. induction l as [|a l IH]; intros i s Hdrop Hs; simpl.
  - eauto.
  - apply drop_cons_lookup in Hdrop as [Ha Hl].
    destruct (Hbody s i a Ha Hs) as (s' & -> & Hs'). eauto.
Qed.

End LoopInvariants.

Lemma candidate_chosen (self : Bin.t) (rect : Rect.t) (index : Z)
    (rotated : bool) (s1 s2 : Score) :
  chosen self rect index rotated ->
  (index = -1 /\ MaxSpaceBin.candidate self rect index rotated s1 s2 = Ok None)
  \/ exists (c f : Rect.t),
       MaxSpaceBin.candidate self rect index rotated s1 s2 = Ok (Some c)
       /\ f ∈ Bin.freeRects self /\ fitsIn rotated rect f
       /\ placedAt rect f rotated c
       /\ (rotated = true -> Bin.canRotate self = true)
       /\ Rect.score1 c = s1 /\ Rect.score2 c = s2.
Proof.
  intros [-> | (k & f & -> & Hk & Hfit & Hrot)].
  - left. split; reflexivity.
  - right. unfold MaxSpaceBin.candidate.
    destruct (Z.eqb_spec (Z.of_nat k) (-1)) as [E|_]; [lia|].
    rewrite Nat2Z.id, Hk. eexists _, f. split; [reflexivity|].
    split; [by eapply list_elem_of_lookup_2|]. split; [assumption|].
    split; [|split; [assumption | split; reflexivity]].
    unfold placedAt. destruct rotated; simpl; repeat split; reflexivity.
Qed.

Lemma areaBody_chosen (self : Bin.t) (rect : Rect.t)
    (st : MaxSpaceBin.AreaBest) (i : nat) (f : Rect.t) :
  Bin.freeRects self !! i = Some f ->
  chosen self rect (MaxSpaceBin.ba_index st) (MaxSpaceBin.ba_rotated st) ->
  let st' := MaxSpaceBin.areaBody self rect st i f in
  chosen self rect (MaxSpaceBin.ba_index st') (MaxSpaceBin.ba_rotated st').
Proof.
  intros Hi Hst. unfold MaxSpaceBin.areaBody.
  repeat match goal with
  | |- context [if ?c then _ else _] => destruct c eqn:?
  end; simpl; try assumption;
  right; exists i, f; zbool_hyps; unfold fitsIn;
  (split; [reflexivity|]; split; [assumption|]; split; [lia|]);
  (congruence || (intros _; assumption)).
Qed.

Lemma perimeterBody_chosen (self : Bin.t) (rect : Rect.t)
    (st : MaxSpaceBin.PerimeterBest) (i : nat) (f : Rect.t) :
  Bin.freeRects self !! i = Some f ->
  chosen self rect (MaxSpaceBin.tp_index st) (MaxSpaceBin.tp_rotated st) ->
  let st' := MaxSpaceBin.perimeterBody self rect st i f in
  chosen self rect (MaxSpaceBin.tp_index st') (MaxSpaceBin.tp_rotated st').
Proof.
  intros Hi Hst. unfold MaxSpaceBin.perimeterBody.
  repeat match goal with
  | |- context [if ?c then _ else _] => destruct c eqn:?
  end; simpl; try assumption;
  right; exists i, f; zbool_hyps; unfold fitsIn;
  (split; [reflexivity|]; split; [assumption|]; split; [lia|]);
  (congruence || (intros _; assumption)).
Qed.

Lemma cornerBody_chosen (self : Bin.t) (rect : Rect.t)
    (st : MaxSpaceBin.CornerBest) (i : nat) (f : Rect.t) :
  Bin.canRotate self = false ->
  Bin.freeRects self !! i = Some f ->
  chosen self rect (MaxSpaceBin.cd_index st) (MaxSpaceBin.cd_rotated st) ->
  exists st',
    MaxSpaceBin.cornerBody self rect st i f = Ok st'
    /\ chosen self rect (MaxSpaceBin.cd_index st')
         (MaxSpaceBin.cd_rotated st').
Proof.
  intros Hrot Hi Hst. unfold MaxSpaceBin.cornerBody. rewrite Hrot. simpl.
  eexists. split; [reflexivity|].
  repeat match goal with
  | |- context [if ?c then _ else _] => destruct c eqn:?
  end; simpl; try assumption.
  right; exists i, f; zbool_hyps; unfold fitsIn.
  split; [reflexivity|]. split; [assumption|]. split; [lia|]. congruence.
Qed.

Lemma remembered_fields (self : Bin.t) (heur : option PackingHeuristic) :
  Bin.binWidth (remembered self heur) = Bin.binWidth self
  /\ Bin.binHeight (remembered self heur) = Bin.binHeight self
  /\ Bin.occupiedArea (remembered self heur) = Bin.occupiedArea self
  /\ Bin.touchingPerimeter (remembered self heur) = Bin.touchingPerimeter self
  /\ Bin.packedRects (remembered self heur) = Bin.packedRects self
  /\ Bin.freeRects (remembered self heur) = Bin.freeRects self
  /\ Bin.canRotate (remembered self heur) = Bin.canRotate self.
Proof. unfold remembered. destruct (Bin.packHeur self); repeat split. Qed.

Lemma remembered_idempotent (self : Bin.t) (h : PackingHeuristic) :
  remembered (remembered self (Some h)) (Some h) = remembered self (Some h).
Proof.
  unfold remembered. destruct (Bin.packHeur self) eqn:E; simpl.
  - rewrite E. reflexivity.
  - reflexivity.
Qed.

Lemma evaluatePacking_fst (self : Bin.t) (rect : Rect.t)
    (heur : option PackingHeuristic) :
  (MaxSpaceBin.evaluatePacking self rect heur).1 = remembered self heur.
Proof. reflexivity. Qed.

(** The three heuristics read the free spaces, the packed items, the bin
    size and the rotation flag, and not [packHeur]. *)
Lemma evaluatePacking_snd (self : Bin.t) (rect : Rect.t)
    (heur : option PackingHeuristic) :
  (MaxSpaceBin.evaluatePacking self rect heur).2 = dispatch self rect heur.
Proof.
  unfold MaxSpaceBin.evaluatePacking, dispatch. simpl.
  destruct (Bin.packHeur self); destruct heur as [[]|]; reflexivity.
Qed.

Lemma evaluatePacking_snd_remembered (self : Bin.t) (rect : Rect.t)
    (h h' : option PackingHeuristic) :
  (MaxSpaceBin.evaluatePacking (remembered self h') rect h).2
  = (MaxSpaceBin.evaluatePacking self rect h).2.
Proof.
  rewrite !evaluatePacking_snd. unfold remembered, dispatch.
  destruct (Bin.packHeur self); destruct h as [[]|]; reflexivity.
Qed.

Lemma evaluated_of_candidate (self : Bin.t) (rect : Rect.t) (index : Z)
    (rotated : bool) (s1 s2 : Score) :
  chosen self rect index rotated ->
  evaluated self rect (MaxSpaceBin.candidate self rect index rotated s1 s2).
Proof.
  intros H.
  destruct (candidate_chosen self rect index rotated s1 s2 H)
    as [[_ E] | (c & f & E & Hin & Hfit & Hpl & Hrot & _)].
  - by left.
  - right. exists c, f, rotated. auto.
Qed.

Lemma insertBestArea_evaluated (self : Bin.t) (rect : Rect.t) :
  evaluated self rect (MaxSpaceBin.insertBestArea self rect).
Proof.
  unfold MaxSpaceBin.insertBestArea. apply evaluated_of_candidate.
  apply (for_enumerate_inv (Bin.freeRects self)
           (fun st => chosen self rect (MaxSpaceBin.ba_index st)
                        (MaxSpaceBin.ba_rotated st))).
  - intros s i a Hi Hs. by apply areaBody_chosen.
  - reflexivity.
  - by left.
Qed.

Lemma insertTouchingPerimeter_evaluated (self : Bin.t) (rect : Rect.t) :
  evaluated self rect (MaxSpaceBin.insertTouchingPerimeter self rect).
Proof.
  unfold MaxSpaceBin.insertTouchingPerimeter. apply evaluated_of_candidate.
  apply (for_enumerate_inv (Bin.freeRects self)
           (fun st => chosen self rect (MaxSpaceBin.tp_index st)
                        (MaxSpaceBin.tp_rotated st))).
  - intros s i a Hi Hs. by apply perimeterBody_chosen.
  - reflexivity.
  - by left.
Qed.

Lemma insertTopRightCornerDistance_evaluated (self : Bin.t) (rect : Rect.t) :
  Bin.canRotate self = false ->
  evaluated self rect (MaxSpaceBin.insertTopRightCornerDistance self rect).
Proof.
  intros Hrot. unfold MaxSpaceBin.insertTopRightCornerDistance.
  destruct (for_enumerate_r_inv (Bin.freeRects self)
              (fun st => chosen self rect (MaxSpaceBin.cd_index st)
                           (MaxSpaceBin.cd_rotated st))
              (MaxSpaceBin.cornerBody self rect)) with
    (l := Bin.freeRects self) (i := 0%nat)
    (s := MaxSpaceBin.mkCornerBest (-1) (-1) false) as (st & -> & Hst).
  - intros s i a Hi Hs. by apply cornerBody_chosen.
  - reflexivity.
  - by left.
  - simpl. by apply evaluated_of_candidate.
Qed.

(** Outside the rotated branch of the corner-distance heuristic, an
    evaluation returns: no candidate, or a candidate placed at the origin of
    a free space it fits. *)
Lemma evaluatePacking_evaluated (self : Bin.t) (rect : Rect.t)
    (h : PackingHeuristic) :
  (h = TopRightCornerDistance -> Bin.canRotate self = false) ->
  evaluated self rect (MaxSpaceBin.evaluatePacking self rect (Some h)).2.
Proof.
  intros Hrot. rewrite evaluatePacking_snd. destruct h; simpl;
    auto using insertBestArea_evaluated, insertTouchingPerimeter_evaluated,
      insertTopRightCornerDistance_evaluated.
Qed.

Lemma for_enumerate_r_raise {A St : Type}
    (body : St -> nat -> A -> result St) (e : exn) (P : A -> Prop) :
  (forall s i a, P a -> body s i a = Raise e) ->
  (forall s i a, body s i a = Raise e \/ exists s', body s i a = Ok s') ->
  forall l i s, Exists P l -> for_enumerate_r body i l s = Raise e.
Proof.
  intros HP Hany. induction l as [|a l IH]; intros i s Hex.
  - inversion Hex.
  - simpl. apply Exists_cons in Hex as [Ha | Hl].
    + by rewrite HP.
    + destruct (Hany s i a) as [-> | (s' & ->)]; [reflexivity | by apply IH].
Qed.

(** C2, where the code departs from it.  In a bin that allows rotation, the
    corner-distance heuristic raises NameError as soon as some free space
    admits the item rotated: the rotated branch reads [binWidth] and
    [binHeight] without [self.]. *)
Theorem evaluatePacking_corner_distance_rotation_raises
    (self : Bin.t) (rect : Rect.t) :
  Bin.canRotate self = true ->
  Exists (fitsIn true rect) (Bin.freeRects self) ->
  (MaxSpaceBin.evaluatePacking self rect (Some TopRightCornerDistance)).2
  = Raise (NameError "binWidth").
Proof.
  intros Hrot Hex. rewrite evaluatePacking_snd. simpl.
  unfold MaxSpaceBin.insertTopRightCornerDistance.
  rewrite (for_enumerate_r_raise (MaxSpaceBin.cornerBody self rect)
             (NameError "binWidth") (fitsIn true rect)); [reflexivity | | |].
  - intros s i a [H1 H2]. unfold MaxSpaceBin.cornerBody. rewrite Hrot.
    apply Z.leb_le in H1, H2. rewrite H1, H2. reflexivity.
  - intros s i a. unfold MaxSpaceBin.cornerBody. rewrite Hrot.
    destruct ((true && (Rect.height rect <=? Rect.width a))
              && (Rect.width rect <=? Rect.height a));
      [left; reflexivity | right; eauto].
  - assumption.
Qed.

Lemma evaluatePacking_corner_distance_rotation_raises_witness :
  let self :=
    Bin.set_canRotate (MaxSpaceBin.init (MaxSpaceBin.new 10 10)) true in
  (MaxSpaceBin.evaluatePacking self (Rect.new 2 3)
     (Some TopRightCornerDistance)).2
  = Raise (NameError "binWidth").
Proof.
  intros self.
  apply (evaluatePacking_corner_distance_rotation_raises self (Rect.new 2 3)).
  - reflexivity.
  - apply Exists_cons_hd. unfold fitsIn. simpl. lia.
Defined.

(** C7, as the code behaves.  Two evaluations of the same item in a row
    give the same result; an evaluation leaves the packed items, the free
    spaces, the occupied area, the counters, the bin size and the rotation
    flag as they were, and writes one field: [packHeur], set to the
    heuristic when it was unset.  A bin whose [packHeur] is set is left
    unchanged, so the second evaluation changes nothing. *)
Theorem evaluatePacking_repeatable (self : Bin.t) (rect : Rect.t)
    (h : PackingHeuristic) :
  let first := MaxSpaceBin.evaluatePacking self rect (Some h) in
  let second := MaxSpaceBin.evaluatePacking first.1 rect (Some h) in
  second.2 = first.2
  /\ second.1 = first.1
  /\ first.1 = remembered self (Some h)
  /\ (Bin.packHeur self <> None -> first.1 = self)
  /\ Bin.packedRects first.1 = Bin.packedRects self
  /\ Bin.freeRects first.1 = Bin.freeRects self
  /\ Bin.occupiedArea first.1 = Bin.occupiedArea self
  /\ Bin.touchingPerimeter first.1 = Bin.touchingPerimeter self
  /\ Bin.binWidth first.1 = Bin.binWidth self
  /\ Bin.binHeight first.1 = Bin.binHeight self
  /\ Bin.canRotate first.1 = Bin.canRotate self.
Proof.
  intros first second. subst first second.
  rewrite !evaluatePacking_fst, evaluatePacking_snd_remembered,
    remembered_idempotent.
  destruct (remembered_fields self (Some h)) as (? & ? & ? & ? & ? & ? & ?).
  repeat split; try assumption.
  unfold remembered. destruct (Bin.packHeur self); congruence.
Qed.

(** C7, as stated, fails: the first evaluation on a bin just set up changes
    the bin, whose [packHeur] goes from [None] to the heuristic. *)
Lemma evaluatePacking_sets_packHeur_counterexample :
  let self := MaxSpaceBin.init (MaxSpaceBin.new 10 10) in
  let after :=
    (MaxSpaceBin.evaluatePacking self (Rect.new 6 4) (Some BestAreaFit)).1 in
  Bin.packHeur self = None
  /\ Bin.packHeur after = Some BestAreaFit
  /\ after <> self.
Proof.
  simpl. repeat split. intros E. apply (f_equal Bin.packHeur) in E.
  discriminate.
Qed.

(** ** Splitting the free spaces *)

Lemma keptSpaces_cons (rect f : Rect.t) (spaces : list Rect.t) :
  keptSpaces rect (f :: spaces)
  = if Bin.isOverlapping f rect then keptSpaces rect spaces
    else f :: keptSpaces rect spaces.
Proof.
  unfold keptSpaces. rewrite filter_cons.
  destruct (Bin.isOverlapping f rect); reflexivity.
Qed.

Lemma newSpaces_cons (rect f : Rect.t) (spaces : list Rect.t) :
  newSpaces rect (f :: spaces)
  = (if Bin.isOverlapping f rect then MaxSpaceBin.residuals f rect else [])
    ++ newSpaces rect spaces.
Proof. reflexivity. Qed.

(** The [while] loop, started at the head of [todo] with [kept] before it
    and [added] after it, ends with every space of [todo] either kept in
    place or replaced by its residuals at the end of the list. *)
Lemma splitLoop_spec (rect : Rect.t) (todo : list Rect.t) :
  forall (turns : nat) (kept added : list Rect.t),
    (length todo <= turns)%nat ->
    MaxSpaceBin.splitLoop turns rect (kept ++ todo ++ added)
      (length kept) (length kept + length todo)
    = kept ++ keptSpaces rect todo ++ added ++ newSpaces rect todo.
Proof.
  induction todo as [|f todo IH]; intros turns kept added Hturns.
  - simpl. rewrite Nat.add_0_r, app_nil_r.
    destruct turns; simpl; [reflexivity|].
    rewrite bool_decide_eq_false_2 by lia. reflexivity.
  - destruct turns as [|turns]; [simpl in Hturns; lia|].
    simpl in Hturns. simpl MaxSpaceBin.splitLoop.
    rewrite bool_decide_eq_true_2 by (simpl; lia).
    rewrite (list_lookup_middle kept (todo ++ added) f (length kept))
      by reflexivity.
    rewrite keptSpaces_cons, newSpaces_cons.
    destruct (Bin.isOverlapping f rect) eqn:E; simpl negb; cbv iota.
    + replace (delete (length kept)
                 ((kept ++ f :: todo ++ added) ++ MaxSpaceBin.residuals f rect))
        with (kept ++ todo ++ (added ++ MaxSpaceBin.residuals f rect)).
      * replace (length kept + S (length todo) - 1)%nat
          with (length kept + length todo)%nat by lia.
        rewrite IH by lia. by rewrite <- !app_assoc.
      * rewrite <- !app_assoc. simpl.
        rewrite (delete_middle kept _ f). by rewrite <- !app_assoc.
    + replace (kept ++ f :: todo ++ added)
        with ((kept ++ [f]) ++ todo ++ added) by (by rewrite <- app_assoc).
      replace (S (length kept)) with (length (kept ++ [f]))
        by (rewrite length_app; simpl; lia).
      replace (length kept + S (length todo))%nat
        with (length (kept ++ [f]) + length todo)%nat
        by (rewrite length_app; simpl; lia).
      rewrite IH by lia. by rewrite <- !app_assoc.
Qed.

Lemma generateNewMaxSpaces_freeRects (self : Bin.t) (rect : Rect.t) :
  Bin.freeRects (MaxSpaceBin.generateNewMaxSpaces self rect)
  = keptSpaces rect (Bin.freeRects self)
    ++ newSpaces rect (Bin.freeRects self).
Proof.
  unfold MaxSpaceBin.generateNewMaxSpaces. simpl.
  pose proof (splitLoop_spec rect (Bin.freeRects self)
                (length (Bin.freeRects self)) [] [] (Nat.le_refl _)) as H.
  simpl in H. rewrite app_nil_r in H. exact H.
Qed.

Lemma isContainedIn_within (g f : Rect.t) :
  Rect.isContainedIn g f = true <-> within g f.
Proof.
  unfold Rect.isContainedIn, within. rewrite !andb_true_iff, !Z.geb_leb.
  rewrite !Z.leb_le. tauto.
Qed.

Lemma within_refl (f : Rect.t) : within f f.
Proof. unfold within. lia. Qed.

Lemma within_disjoint (g f p : Rect.t) :
  within g f -> ~ interiors_intersect f p -> ~ interiors_intersect g p.
Proof.
  unfold within. rewrite !interiors_intersect_iff. lia.
Qed.

Lemma residuals_spec (f rect g : Rect.t) :
  Bin.isOverlapping f rect = true ->
  g ∈ MaxSpaceBin.residuals f rect ->
  within g f /\ ~ interiors_intersect g rect
  /\ (positive f -> positive g).
Proof.
  intros Hov Hg. apply Bin_isOverlapping_true in Hov.
  unfold MaxSpaceBin.residuals in Hg.
  rewrite interiors_intersect_iff. unfold within, positive.
  repeat match type of Hg with
  | _ ∈ _ ++ _ => apply elem_of_app in Hg as [Hg | Hg]
  | _ ∈ (if ?c then _ else _) => destruct c eqn:?
  | _ ∈ [] => by apply elem_of_nil in Hg
  | _ ∈ [_] => apply list_elem_of_singleton in Hg; subst g
  end; zbool_hyps; simpl; lia.
Qed.

(** Every space after the split is an old space that does not overlap the
    item, or a residual of an old space that does. *)
Lemma split_spaces (rect : Rect.t) (spaces : list Rect.t) (g : Rect.t) :
  g ∈ keptSpaces rect spaces ++ newSpaces rect spaces ->
  exists f, f ∈ spaces /\ within g f /\ ~ interiors_intersect g rect
            /\ (positive f -> positive g).
Proof.
  intros [Hg | Hg]%elem_of_app.
  - apply list_elem_of_filter in Hg as [Hov Hin].
    exists g. split; [assumption|]. split; [apply within_refl|].
    split; [|tauto]. intros Hi. apply interiors_intersect_iff in Hi.
    apply not_true_iff_false in Hov. apply Hov, Bin_isOverlapping_true. lia.
  - apply list_elem_of_bind in Hg as (f & Hg & Hin).
    destruct (Bin.isOverlapping f rect) eqn:Hov;
      [|by apply elem_of_nil in Hg].
    exists f. split; [assumption|]. by apply residuals_spec.
Qed.

(** ** Pruning the free spaces *)

Lemma pruneInner_mono (rectI : Rect.t) (i : nat) (rest : list Rect.t) :
  forall (j : nat) (T : gset nat),
    T ⊆ MaxSpaceBin.pruneInner rectI i j rest T.
Proof.
  induction rest as [|rectJ rest IH]; intros j T; simpl.
  - reflexivity.
  - destruct (Rect.isContainedIn rectJ rectI).
    + etrans; [|apply IH]. set_solver.
    + destruct (Rect.isContainedIn rectI rectJ); [set_solver | apply IH].
Qed.

Lemma pruneOuter_mono (rects : list Rect.t) :
  forall (i : nat) (T : gset nat), T ⊆ MaxSpaceBin.pruneOuter i rects T.
Proof.
  induction rects as [|rectI rest IH]; intros i T; simpl.
  - reflexivity.
  - etrans; [apply (pruneInner_mono rectI i rest (S i))|apply IH].
Qed.

(** When the loop over [j] leaves [i] unmarked, it has marked every later
    space contained in space [i], and space [i] is contained in no later
    space that it does not contain. *)
Lemma pruneInner_unmarked (rectI : Rect.t) (i : nat) (rest : list Rect.t) :
  forall (j : nat) (T : gset nat),
    i ∉ MaxSpaceBin.pruneInner rectI i j rest T ->
    forall (b : nat) (rectJ : Rect.t),
      rest !! b = Some rectJ ->
      (Rect.isContainedIn rectJ rectI = true ->
       (j + b)%nat ∈ MaxSpaceBin.pruneInner rectI i j rest T)
      /\ (Rect.isContainedIn rectI rectJ = true ->
          Rect.isContainedIn rectJ rectI = true).
Proof.
  induction rest as [|r rest IH]; intros j T Hi b rectJ Hb;
    [by rewrite lookup_nil in Hb|].
  simpl in Hi |- *.
  destruct (Rect.isContainedIn r rectI) eqn:E1.
  - destruct b as [|b]; simpl in Hb.
    + injection Hb as <-. split; [|by rewrite E1].
      intros _. apply pruneInner_mono. rewrite Nat.add_0_r.
      by apply elem_of_union_l, elem_of_singleton.
    + rewrite <- Nat.add_succ_comm. by apply IH.
  - destruct (Rect.isContainedIn rectI r) eqn:E2.
    { exfalso. by apply Hi, elem_of_union_l, elem_of_singleton. }
    destruct b as [|b]; simpl in Hb.
    + injection Hb as <-. rewrite E1, E2. split; discriminate.
    + rewrite <- Nat.add_succ_comm. by apply IH.
Qed.

(** Two spaces left unmarked by the two loops are not contained in one
    another. *)
Lemma pruneOuter_unmarked (rects : list Rect.t) :
  forall (i0 : nat) (T : gset nat) (a b : nat) (ra rb : Rect.t),
    rects !! a = Some ra -> rects !! b = Some rb -> (a < b)%nat ->
    (i0 + a)%nat ∉ MaxSpaceBin.pruneOuter i0 rects T ->
    (i0 + b)%nat ∉ MaxSpaceBin.pruneOuter i0 rects T ->
    Rect.isContainedIn rb ra = false /\ Rect.isContainedIn ra rb = false.
Proof.
  induction rects as [|rectI rest IH]; intros i0 T a b ra rb Ha Hb Hab Hna Hnb;
    [by rewrite lookup_nil in Ha|].
  simpl in Hna, Hnb.
  destruct b as [|b]; [lia|]. simpl in Hb.
  destruct a as [|a]; simpl in Ha.
  - injection Ha as <-. rewrite Nat.add_0_r in Hna.
    set (T' := MaxSpaceBin.pruneInner rectI i0 (S i0) rest T) in *.
    assert (Hi : i0 ∉ T').
    { intros Hin. apply Hna. by apply pruneOuter_mono. }
    destruct (pruneInner_unmarked rectI i0 rest (S i0) T Hi b rb Hb)
      as [Hmark Hback].
    assert (E : Rect.isContainedIn rb rectI = false).
    { apply not_true_iff_false. intros Hc. apply Hnb.
      apply pruneOuter_mono. rewrite <- Nat.add_succ_comm. by apply Hmark. }
    split; [exact E|].
    apply not_true_iff_false. intros Hc. apply Hback in Hc. congruence.
  - rewrite <- Nat.add_succ_comm in Hna, Hnb.
    eapply (IH (S i0)); eauto. lia.
Qed.

Lemma keepUnmarked_lookup (R : gset nat) (rects : list Rect.t) :
  forall (i0 k : nat) (f : Rect.t),
    MaxSpaceBin.keepUnmarked R i0 rects !! k = Some f ->
    exists a, rects !! a = Some f /\ (i0 + a)%nat ∉ R.
Proof.
  induction rects as [|r rest IH]; intros i0 k f Hk; simpl in Hk;
    [by rewrite lookup_nil in Hk|].
  destruct (bool_decide (i0 ∈ R)) eqn:E.
  - destruct (IH (S i0) k f Hk) as (a & Ha & Hn).
    exists (S a). rewrite <- Nat.add_succ_comm. auto.
  - apply bool_decide_eq_false in E. destruct k as [|k]; simpl in Hk.
    + injection Hk as <-. exists 0%nat. rewrite Nat.add_0_r. auto.
    + destruct (IH (S i0) k f Hk) as (a & Ha & Hn).
      exists (S a). rewrite <- Nat.add_succ_comm. auto.
Qed.

Lemma keepUnmarked_lookup_pair (R : gset nat) (rects : list Rect.t) :
  forall (i0 k1 k2 : nat) (f g : Rect.t),
    (k1 < k2)%nat ->
    MaxSpaceBin.keepUnmarked R i0 rects !! k1 = Some f ->
    MaxSpaceBin.keepUnmarked R i0 rects !! k2 = Some g ->
    exists a b, (a < b)%nat /\ rects !! a = Some f /\ rects !! b = Some g
                /\ ((i0 + a)%nat ∉ R) /\ ((i0 + b)%nat ∉ R).
Proof.
  induction rects as [|r rest IH]; intros i0 k1 k2 f g Hlt H1 H2;
    simpl in H1, H2; [by rewrite lookup_nil in H1|].
  destruct (bool_decide (i0 ∈ R)) eqn:E.
  - destruct (IH (S i0) k1 k2 f g Hlt H1 H2) as (a & b & ? & ? & ? & ? & ?).
    exists (S a), (S b). rewrite <- !Nat.add_succ_comm.
    repeat split; (assumption || lia).
  - apply bool_decide_eq_false in E.
    destruct k2 as [|k2]; [lia|]. simpl in H2.
    destruct k1 as [|k1]; simpl in H1.
    + injection H1 as <-.
      destruct (keepUnmarked_lookup R rest (S i0) k2 g H2) as (b & Hb & Hn).
      exists 0%nat, (S b). rewrite <- Nat.add_succ_comm, Nat.add_0_r.
      repeat split; (assumption || lia).
    + assert (Hlt' : (k1 < k2)%nat) by lia.
      destruct (IH (S i0) k1 k2 f g Hlt' H1 H2)
        as (a & b & ? & ? & ? & ? & ?).
      exists (S a), (S b). rewrite <- !Nat.add_succ_comm.
      repeat split; (assumption || lia).
Qed.

Lemma pruned_antichain (spaces : list Rect.t) : antichain (pruned spaces).
Proof.
  intros i j f g Hij Hi Hj. unfold pruned in Hi, Hj.
  rewrite <- isContainedIn_within. apply not_true_iff_false.
  destruct (Nat.lt_total i j) as [Hlt | [-> | Hlt]]; [| congruence |].
  - destruct (keepUnmarked_lookup_pair _ _ 0 i j f g Hlt Hi Hj)
      as (a & b & Hab & Ha & Hb & Hna & Hnb).
    by destruct (pruneOuter_unmarked spaces 0 ∅ a b f g Ha Hb Hab Hna Hnb).
  - destruct (keepUnmarked_lookup_pair _ _ 0 j i g f Hlt Hj Hi)
      as (a & b & Hab & Ha & Hb & Hna & Hnb).
    by destruct (pruneOuter_unmarked spaces 0 ∅ a b g f Ha Hb Hab Hna Hnb).
Qed.

Lemma pruned_subset (spaces : list Rect.t) (f : Rect.t) :
  f ∈ pruned spaces -> f ∈ spaces.
Proof.
  intros (k & Hk)%list_elem_of_lookup_1.
  destruct (keepUnmarked_lookup _ _ _ _ _ Hk) as (a & Ha & _).
  by eapply list_elem_of_lookup_2.
Qed.

Lemma pruneMaxSpaces_fst (self : Bin.t) :
  (MaxSpaceBin.pruneMaxSpaces self).1
  = Bin.set_freeRects self (pruned (Bin.freeRects self)).
Proof. reflexivity. Qed.

(** ** The free-space invariant *)

(** A successful [insert] commits the item itself when it carries a
    position, and the candidate of its evaluation otherwise. *)
Lemma insert_true (self : Bin.t) (rect : Rect.t)
    (heur : option PackingHeuristic) (self' : Bin.t) :
  MaxSpaceBin.insert self rect heur = (self', Ok true) ->
  exists (self1 : Bin.t) (newRect : Rect.t),
    self' = committed self1 newRect
    /\ ((Rect.isReadyForPacking rect = true /\ newRect = rect
         /\ self1 = self)
        \/ (Rect.isReadyForPacking rect = false
            /\ self1 = remembered self heur
            /\ (MaxSpaceBin.evaluatePacking self rect heur).2
               = Ok (Some newRect))).
Proof.
  unfold MaxSpaceBin.insert.
  destruct (Rect.isReadyForPacking rect) eqn:Hready; simpl negb; cbv iota.
  - destruct (MaxSpaceBin.pruneMaxSpaces _) as [b r] eqn:E.
    intros [= <- Hr]. exists self, rect. split; [|left; auto].
    unfold committed. by rewrite E.
  - destruct (MaxSpaceBin.evaluatePacking self rect heur) as [b1 r1] eqn:E1.
    destruct r1 as [[newRect|]|e]; try discriminate.
    destruct (MaxSpaceBin.pruneMaxSpaces _) as [b r] eqn:E.
    intros [= <- Hr]. exists b1, newRect.
    split; [unfold committed; by rewrite E|]. right.
    split; [reflexivity|].
    rewrite <- (evaluatePacking_fst self rect heur), E1. auto.
Qed.

Lemma committed_fields (self : Bin.t) (newRect : Rect.t) :
  Bin.binWidth (committed self newRect) = Bin.binWidth self
  /\ Bin.binHeight (committed self newRect) = Bin.binHeight self
  /\ Bin.canRotate (committed self newRect) = Bin.canRotate self
  /\ Bin.packHeur (committed self newRect) = Bin.packHeur self
  /\ Bin.packedRects (committed self newRect)
     = Bin.packedRects self ++ [newRect]
  /\ Bin.occupiedArea (committed self newRect)
     = Bin.occupiedArea self + Rect.width newRect * Rect.height newRect
  /\ Bin.freeRects (committed self newRect)
     = pruned (keptSpaces newRect (Bin.freeRects self)
               ++ newSpaces newRect (Bin.freeRects self)).
Proof.
  unfold committed. rewrite pruneMaxSpaces_fst. simpl.
  repeat split.
  pose proof (generateNewMaxSpaces_freeRects (Bin.packRect self newRect)
                newRect) as H.
  simpl in H. unfold MaxSpaceBin.generateNewMaxSpaces in H. simpl in H.
  by rewrite H.
Qed.

Lemma setup_invariant (self : Bin.t) :
  freeSpaceInvariant (MaxSpaceBin.setup self).
Proof.
  split; simpl.
  - intros f ->%list_elem_of_singleton. unfold insideBin. simpl. lia.
  - intros f p _ Hp. by apply elem_of_nil in Hp.
  - intros [|i] [|j] f g Hij Hi Hj; try congruence;
      simpl in Hi, Hj; by rewrite lookup_nil in Hi || by rewrite lookup_nil in Hj.
Qed.

Lemma remembered_invariant (self : Bin.t) (heur : option PackingHeuristic) :
  freeSpaceInvariant self -> freeSpaceInvariant (remembered self heur).
Proof.
  unfold remembered. destruct (Bin.packHeur self); [done|].
  intros [H1 H2 H3]. split; assumption.
Qed.

Lemma committed_invariant (self : Bin.t) (newRect : Rect.t) :
  freeSpaceInvariant self -> freeSpaceInvariant (committed self newRect).
Proof.
  intros [Hin Hclear _].
  destruct (committed_fields self newRect)
    as (HW & HH & _ & _ & Hpacked & _ & Hfree).
  assert (Hold : forall g, g ∈ Bin.freeRects (committed self newRect) ->
            exists f, f ∈ Bin.freeRects self /\ within g f
                      /\ ~ interiors_intersect g newRect).
  { intros g Hg. rewrite Hfree in Hg. apply pruned_subset in Hg.
    destruct (split_spaces _ _ _ Hg) as (f & ? & ? & ? & _). eauto. }
  split.
  - intros g Hg. destruct (Hold g Hg) as (f & Hf & Hw & _).
    specialize (Hin f Hf). unfold insideBin, within in *.
    rewrite HW, HH. lia.
  - intros g p Hg Hp. destruct (Hold g Hg) as (f & Hf & Hw & Hnew).
    rewrite Hpacked in Hp.
    apply elem_of_app in Hp as [Hp | ->%list_elem_of_singleton].
    + eapply within_disjoint; eauto.
    + assumption.
  - rewrite Hfree. apply pruned_antichain.
Qed.

(** C3. Starting from a bin just set up, after every insert that succeeds
    each free space lies inside the bin, no free space shares an interior
    point with a packed item, and no free space is contained in (or equal
    to) another free space of the bin. *)
Theorem insert_restores_free_space_invariant (start self : Bin.t) :
  afterInserts (MaxSpaceBin.setup start) self -> freeSpaceInvariant self.
Proof.
  induction 1 as [|self rect heur self' _ IH Hins].
  - apply setup_invariant.
  - destruct (insert_true _ _ _ _ Hins)
      as (self1 & newRect & -> & [(_ & _ & ->) | (_ & -> & _)]);
      auto using committed_invariant, remembered_invariant.
Qed.

Lemma insert_restores_free_space_invariant_witness :
  freeSpaceInvariant
    (MaxSpaceBin.insert (MaxSpaceBin.setup (MaxSpaceBin.new 10 10))
       (Rect.new 6 4) (Some BestAreaFit)).1.
Proof.
  apply (insert_restores_free_space_invariant (MaxSpaceBin.new 10 10)).
  apply (afterInserts_step _ (MaxSpaceBin.setup (MaxSpaceBin.new 10 10))
           (Rect.new 6 4) (Some BestAreaFit)).
  - apply afterInserts_none.
  - vm_compute. reflexivity.
Defined.

(** ** Unit cells and areas *)

Lemma sumZ_app {A : Type} (f : A -> Z) (l1 l2 : list A) :
  sumZ f (l1 ++ l2) = sumZ f l1 + sumZ f l2.
Proof. induction l1 as [|a l1 IH]; simpl; [reflexivity | rewrite IH; lia]. Qed.

Lemma sumZ_le {A : Type} (f g : A -> Z) (l : list A) :
  (forall a, a ∈ l -> f a <= g a) -> sumZ f l <= sumZ g l.
Proof.
  induction l as [|a l IH]; intros H; simpl; [lia|].
  assert (f a <= g a) by (apply H; left).
  assert (sumZ f l <= sumZ g l) by (apply IH; intros; apply H; by right).
  lia.
Qed.

Lemma sumZ_ext {A : Type} (f g : A -> Z) (l : list A) :
  (forall a, f a = g a) -> sumZ f l = sumZ g l.
Proof. intros H. induction l as [|a l IH]; simpl; [reflexivity|]. by rewrite H, IH. Qed.

Lemma sumZ_const {A : Type} (c : Z) (l : list A) :
  sumZ (fun _ => c) l = c * Z.of_nat (length l).
Proof. induction l as [|a l IH]; simpl sumZ; simpl length; [lia | rewrite IH; lia]. Qed.

Lemma sumZ_scale {A : Type} (k : Z) (f : A -> Z) (l : list A) :
  sumZ (fun a => k * f a) l = k * sumZ f l.
Proof. induction l as [|a l IH]; simpl; [lia | rewrite IH; lia]. Qed.

Lemma sumZ_add {A : Type} (f g : A -> Z) (l : list A) :
  sumZ (fun a => f a + g a) l = sumZ f l + sumZ g l.
Proof. induction l as [|a l IH]; simpl; [lia | rewrite IH; lia]. Qed.

Lemma sumZ_swap {A B : Type} (g : A -> B -> Z) (la : list A) (lb : list B) :
  sumZ (fun a => sumZ (g a) lb) la = sumZ (fun b => sumZ (fun a => g a b) la) lb.
Proof.
  induction la as [|a la IH]; simpl.
  - symmetry. rewrite (sumZ_const 0). lia.
  - rewrite IH, <- sumZ_add. reflexivity.
Qed.

Lemma sumZ_bind {A B : Type} (f : B -> Z) (g : A -> list B) (l : list A) :
  sumZ f (l ≫= g) = sumZ (fun a => sumZ f (g a)) l.
Proof.
  induction l as [|a l IH]; simpl; [reflexivity|].
  rewrite sumZ_app. by rewrite <- IH.
Qed.

Lemma sumZ_fmap {A B : Type} (f : B -> Z) (h : A -> B) (l : list A) :
  sumZ f (h <$> l) = sumZ (fun a => f (h a)) l.
Proof.
  induction l as [|a l IH]; [reflexivity|].
  rewrite fmap_cons. simpl. by rewrite IH.
Qed.

Lemma sumAreas_sumZ (items : list Rect.t) :
  sumAreas items = sumZ (fun r => Rect.width r * Rect.height r) items.
Proof. reflexivity. Qed.

Lemma elem_of_grid (W H cx cy : Z) :
  (cx, cy) ∈ grid W H <-> (0 <= cx < W) /\ (0 <= cy < H).
Proof.
  unfold grid. rewrite list_elem_of_bind. split.
  - intros (x & Hin & Hx). apply list_elem_of_fmap in Hin as (y & [= -> ->] & Hy).
    apply elem_of_seqZ in Hx, Hy. lia.
  - intros [Hx Hy]. exists cx. split.
    + apply list_elem_of_fmap. exists cy. split; [reflexivity|].
      apply elem_of_seqZ. lia.
    + apply elem_of_seqZ. lia.
Qed.

Lemma length_grid (W H : Z) :
  0 <= W -> 0 <= H -> Z.of_nat (length (grid W H)) = W * H.
Proof.
  intros HW HH.
  assert (E : sumZ (fun _ => 1) (grid W H) = W * H).
  { unfold grid. rewrite sumZ_bind.
    rewrite (sumZ_ext _ (fun _ => H)).
    - rewrite sumZ_const, length_seqZ. lia.
    - intros cx. rewrite sumZ_fmap, sumZ_const, length_seqZ. lia. }
  rewrite sumZ_const in E. lia.
Qed.

Lemma span_count (s len : Z) (n : nat) :
  sumZ (fun c => ind (inSpan s len c)) (seqZ 0 (Z.of_nat n))
  <= Z.max 0 (Z.min (s + len) (Z.of_nat n) - Z.max s 0).
Proof.
  induction n as [|n IH].
  - simpl. lia.
  - rewrite seqZ_S, sumZ_app. simpl sumZ. unfold inSpan at 2, ind at 2.
    zbool_goal; lia.
Qed.

Lemma span_count_le (s len W : Z) :
  0 <= len -> 0 <= W ->
  0 <= sumZ (fun c => ind (inSpan s len c)) (seqZ 0 W) <= len.
Proof.
  intros Hlen HW. split.
  - etrans; [|apply (sumZ_le (fun _ => 0))].
    + rewrite sumZ_const. lia.
    + intros c _. unfold ind. destruct (inSpan s len c); lia.
  - pose proof (span_count s len (Z.to_nat W)) as H.
    rewrite Z2Nat.id in H by lia. lia.
Qed.

(** A rectangle has at most [width * height] cells in the bin. *)
Lemma cell_count_le_area (W H : Z) (r : Rect.t) :
  0 <= W -> 0 <= H -> 0 <= Rect.width r -> 0 <= Rect.height r ->
  sumZ (fun c => ind (cellIn r c)) (grid W H)
  <= Rect.width r * Rect.height r.
Proof.
  intros HW HH Hw Hh. unfold grid. rewrite sumZ_bind.
  rewrite (sumZ_ext _
    (fun cx => sumZ (fun cy => ind (inSpan (Rect.y r) (Rect.height r) cy))
                 (seqZ 0 H)
               * ind (inSpan (Rect.x r) (Rect.width r) cx))).
  - rewrite sumZ_scale.
    pose proof (span_count_le (Rect.x r) (Rect.width r) W Hw HW).
    pose proof (span_count_le (Rect.y r) (Rect.height r) H Hh HH).
    nia.
  - intros cx. rewrite sumZ_fmap, Z.mul_comm, <- sumZ_scale.
    apply sumZ_ext. intros cy. unfold cellIn, ind. simpl.
    destruct (inSpan (Rect.x r) (Rect.width r) cx),
      (inSpan (Rect.y r) (Rect.height r) cy); reflexivity.
Qed.

Lemma cover_count (ps : list Rect.t) (c : Z * Z) :
  (exists p, p ∈ ps /\ cellIn p c = true) ->
  1 <= sumZ (fun p => ind (cellIn p c)) ps.
Proof.
  intros (p & Hin & Hc). induction ps as [|q ps IH]; [by apply elem_of_nil in Hin|].
  simpl.
  assert (Hnn : 0 <= sumZ (fun p => ind (cellIn p c)) ps).
  { etrans; [|apply (sumZ_le (fun _ => 0))].
    - rewrite sumZ_const. lia.
    - intros a _. unfold ind. destruct (cellIn a c); lia. }
  apply elem_of_cons in Hin as [<- | Hin].
  - rewrite Hc. simpl. lia.
  - specialize (IH Hin). unfold ind at 1. destruct (cellIn q c); lia.
Qed.

(** Rectangles that cover every cell of the bin have a total area of at
    least the area of the bin. *)
Lemma covered_area (W H : Z) (ps : list Rect.t) :
  0 <= W -> 0 <= H -> Forall positive ps ->
  (forall cx cy, 0 <= cx < W -> 0 <= cy < H ->
     exists p, p ∈ ps /\ cellIn p (cx, cy) = true) ->
  W * H <= sumAreas ps.
Proof.
  intros HW HH Hpos Hcov.
  rewrite <- (length_grid W H) by assumption.
  rewrite sumAreas_sumZ.
  transitivity (sumZ (fun c => sumZ (fun p => ind (cellIn p c)) ps) (grid W H)).
  - transitivity (sumZ (fun _ : Z * Z => 1) (grid W H)).
    + rewrite sumZ_const. lia.
    + apply sumZ_le. intros [cx cy] Hc. apply elem_of_grid in Hc.
      apply cover_count. apply Hcov; lia.
  - rewrite <- sumZ_swap. apply sumZ_le. intros p Hp.
    rewrite Forall_forall in Hpos. destruct (Hpos p Hp).
    apply cell_count_le_area; lia.
Qed.

Lemma cellIn_true (r : Rect.t) (cx cy : Z) :
  cellIn r (cx, cy) = true <->
  Rect.x r <= cx < Rect.x r + Rect.width r
  /\ Rect.y r <= cy < Rect.y r + Rect.height r.
Proof.
  unfold cellIn, inSpan. simpl.
  rewrite !andb_true_iff, !Z.leb_le, !Z.ltb_lt. lia.
Qed.

Lemma cellIn_within (g f : Rect.t) (c : Z * Z) :
  within g f -> cellIn g c = true -> cellIn f c = true.
Proof.
  destruct c as [cx cy]. rewrite !cellIn_true. unfold within. lia.
Qed.

Lemma within_trans (f g k : Rect.t) : within f g -> within g k -> within f k.
Proof. unfold within. lia. Qed.

(** *** Pruning keeps the covered cells *)

Lemma pruneInner_markedFor (l : list Rect.t) (rectI : Rect.t) (i : nat)
    (rest : list Rect.t) :
  l !! i = Some rectI ->
  forall (j : nat) (T : gset nat),
    drop j l = rest -> (i < j)%nat ->
    (forall m, m ∈ T -> markedFor l m) ->
    forall m, m ∈ MaxSpaceBin.pruneInner rectI i j rest T -> markedFor l m.
Proof.
  intros Hi. induction rest as [|r rest IH]; intros j T Hdrop Hij HT m Hm;
    simpl in Hm; [auto|].
  apply drop_cons_lookup in Hdrop as [Hj Hrest].
  destruct (Rect.isContainedIn r rectI) eqn:E1.
  - apply (IH (S j) ({[j]} ∪ T)); [assumption | lia | | assumption].
    intros m' [->%elem_of_singleton | Hm']%elem_of_union; [|auto].
    exists i, r, rectI. apply isContainedIn_within in E1. auto.
  - destruct (Rect.isContainedIn rectI r) eqn:E2.
    + apply elem_of_union in Hm as [->%elem_of_singleton | Hm]; [|auto].
      exists j, rectI, r. apply isContainedIn_within in E2.
      do 3 (split; [assumption|]). right.
      rewrite <- isContainedIn_within. congruence.
    + apply (IH (S j) T); (assumption || lia).
Qed.

Lemma pruneOuter_markedFor (l : list Rect.t) (rects : list Rect.t) :
  forall (i : nat) (T : gset nat),
    drop i l = rects ->
    (forall m, m ∈ T -> markedFor l m) ->
    forall m, m ∈ MaxSpaceBin.pruneOuter i rects T -> markedFor l m.
Proof.
  induction rects as [|rectI rest IH]; intros i T Hdrop HT m Hm;
    simpl in Hm; [auto|].
  apply drop_cons_lookup in Hdrop as [Hi Hrest].
  apply (IH (S i) (MaxSpaceBin.pruneInner rectI i (S i) rest T) Hrest);
    [|assumption].
  apply (pruneInner_markedFor l rectI i rest Hi (S i) T); (assumption || lia).
Qed.

Lemma within_girth (f g : Rect.t) :
  within f g ->
  girth f <= girth g /\ (~ within g f -> girth f < girth g).
Proof. unfold within, girth. lia. Qed.

(** Every space of the list lies within a space that is left unmarked. *)
Lemma pruned_above (l : list Rect.t) (a : nat) (ra : Rect.t) :
  l !! a = Some ra ->
  exists rb, rb ∈ pruned l /\ within ra rb.
Proof.
  set (R := MaxSpaceBin.pruneOuter 0 l ∅).
  set (top := sumZ (fun r => Z.abs (girth r)) l).
  assert (Htop : forall k r, l !! k = Some r -> girth r <= top).
  { intros k r Hk. unfold top. clear -Hk. revert k Hk.
    induction l as [|q l IH]; intros k Hk; [by rewrite lookup_nil in Hk|].
    simpl. assert (0 <= sumZ (fun r => Z.abs (girth r)) l).
    { etrans; [|apply (sumZ_le (fun _ => 0))]; [rewrite sumZ_const; lia|].
      intros; lia. }
    destruct k as [|k]; simpl in Hk.
    - injection Hk as ->. lia.
    - specialize (IH k Hk). lia. }
  assert (Hkeep : forall b rb, l !! b = Some rb -> b ∉ R -> rb ∈ pruned l).
  { intros b rb Hb Hn. unfold pruned. fold R. clear -Hb Hn.
    assert (G : forall i0 rects b, rects !! b = Some rb -> (i0 + b)%nat ∉ R ->
                rb ∈ MaxSpaceBin.keepUnmarked R i0 rects).
    { clear. intros i0 rects. revert i0.
      induction rects as [|r rects IH]; intros i0 b Hb Hn;
        [by rewrite lookup_nil in Hb|].
      simpl. destruct b as [|b]; simpl in Hb.
      - injection Hb as ->. rewrite Nat.add_0_r in Hn.
        rewrite bool_decide_eq_false_2 by assumption. left.
      - rewrite <- Nat.add_succ_comm in Hn. specialize (IH (S i0) b Hb Hn).
        destruct (bool_decide (i0 ∈ R)); [assumption | by right]. }
    by apply (G 0%nat l b). }
  assert (Hmark : forall m, m ∈ R -> markedFor l m).
  { apply (pruneOuter_markedFor l l 0 ∅); [reflexivity|].
    intros m Hm. by apply not_elem_of_empty in Hm. }
  set (len := Z.of_nat (length l)).
  assert (G : forall (n : nat) (a : nat) (ra : Rect.t),
            l !! a = Some ra ->
            (top - girth ra) * (len + 1) + Z.of_nat a < Z.of_nat n ->
            exists rb, rb ∈ pruned l /\ within ra rb).
  { induction n as [|n IH]; intros a' ra' Ha Hn.
    - pose proof (Htop a' ra' Ha). assert (0 <= len) by (unfold len; lia). nia.
    - destruct (decide (a' ∈ R)) as [Hin | Hout].
      + destruct (Hmark a' Hin) as (c & rm & rc & Hm & Hc & Hw & Hcase).
        rewrite Ha in Hm. injection Hm as <-.
        destruct (within_girth ra' rc Hw) as [Hle Hlt].
        pose proof (Htop a' ra' Ha). pose proof (Htop c rc Hc).
        assert (Hclen : Z.of_nat c < len).
        { unfold len. apply lookup_lt_Some in Hc. lia. }
        destruct (IH c rc Hc) as (rb & Hrb & Hwb).
        { destruct Hcase as [Hca | Hstrict].
          - nia.
          - specialize (Hlt Hstrict). nia. }
        exists rb. split; [assumption | by eapply within_trans].
      + exists ra'. split; [by eapply Hkeep | apply within_refl]. }
  intros Ha.
  apply (G (S (Z.to_nat ((top - girth ra) * (len + 1) + Z.of_nat a))) a ra Ha).
  pose proof (Htop a ra Ha). assert (0 <= len) by (unfold len; lia). nia.
Qed.

(** *** Splitting keeps the covered cells *)

Lemma residuals_cover (f rect : Rect.t) (c : Z * Z) :
  Bin.isOverlapping f rect = true ->
  cellIn f c = true -> cellIn rect c = false ->
  exists g, g ∈ MaxSpaceBin.residuals f rect /\ cellIn g c = true.
Proof.
  destruct c as [cx cy]. intros Hov Hf Hr.
  apply Bin_isOverlapping_true in Hov. apply cellIn_true in Hf.
  apply not_true_iff_false in Hr. rewrite cellIn_true in Hr.
  unfold MaxSpaceBin.residuals.
  assert (E1 : (Rect.x rect <? Rect.x f + Rect.width f)
               && (Rect.x rect + Rect.width rect >? Rect.x f) = true).
  { rewrite Z.gtb_ltb. apply andb_true_iff. split; apply Z.ltb_lt; lia. }
  assert (E2 : (Rect.y rect <? Rect.y f + Rect.height f)
               && (Rect.y rect + Rect.height rect >? Rect.y f) = true).
  { rewrite Z.gtb_ltb. apply andb_true_iff. split; apply Z.ltb_lt; lia. }
  rewrite E1, E2. setoid_rewrite elem_of_app. setoid_rewrite elem_of_app.
  destruct (Z.lt_ge_cases cy (Rect.y rect)) as [Hb | Hb].
  { eexists. split.
    - left. left.
      rewrite (proj2 (andb_true_iff _ _)); [apply list_elem_of_singleton; reflexivity|].
      rewrite Z.gtb_ltb. split; apply Z.ltb_lt; lia.
    - apply cellIn_true. simpl. lia. }
  destruct (Z.lt_ge_cases cy (Rect.y rect + Rect.height rect)) as [Ht | Ht].
  2:{ eexists. split.
    - left. right.
      rewrite (proj2 (andb_true_iff _ _)); [apply list_elem_of_singleton; reflexivity|].
      rewrite Z.gtb_ltb. split; apply Z.ltb_lt; lia.
    - apply cellIn_true. simpl. lia. }
  destruct (Z.lt_ge_cases cx (Rect.x rect)) as [Hl | Hl].
  { eexists. split.
    - right. left.
      rewrite (proj2 (andb_true_iff _ _)); [apply list_elem_of_singleton; reflexivity|].
      rewrite Z.gtb_ltb. split; apply Z.ltb_lt; lia.
    - apply cellIn_true. simpl. lia. }
  eexists. split.
  - right. right.
    rewrite (proj2 (andb_true_iff _ _)); [apply list_elem_of_singleton; reflexivity|].
    rewrite Z.gtb_ltb. split; apply Z.ltb_lt; lia.
  - apply cellIn_true. simpl. lia.
Qed.

Lemma split_cover (rect : Rect.t) (spaces : list Rect.t) (f : Rect.t)
    (c : Z * Z) :
  f ∈ spaces -> cellIn f c = true -> cellIn rect c = false ->
  exists g, g ∈ keptSpaces rect spaces ++ newSpaces rect spaces
            /\ cellIn g c = true.
Proof.
  intros Hf Hc Hr. destruct (Bin.isOverlapping f rect) eqn:Hov.
  - destruct (residuals_cover f rect c Hov Hc Hr) as (g & Hg & Hgc).
    exists g. split; [|assumption]. apply elem_of_app. right.
    apply list_elem_of_bind. exists f. rewrite Hov. auto.
  - exists f. split; [|assumption]. apply elem_of_app. left.
    apply list_elem_of_filter. auto.
Qed.

(** ** Bins during packing *)

Lemma sumAreas_app (l1 l2 : list Rect.t) :
  sumAreas (l1 ++ l2) = sumAreas l1 + sumAreas l2.
Proof. rewrite !sumAreas_sumZ. apply sumZ_app. Qed.

Lemma openNewBin_packedBin (self : RBPSolution.t) :
  packedBin (RBPSolution.binWidth self) (RBPSolution.binHeight self)
    (RBPSolution.openNewBin self).
Proof.
  split; simpl; try reflexivity.
  - intros f ->%list_elem_of_singleton. unfold insideBin. simpl. lia.
  - intros p Hp. by apply elem_of_nil in Hp.
  - intros cx cy Hx Hy. eexists. split; [left|].
    apply cellIn_true. simpl. lia.
Qed.

Lemma remembered_packedBin (W H : Z) (b : Bin.t)
    (heur : option PackingHeuristic) :
  packedBin W H b -> packedBin W H (remembered b heur).
Proof.
  unfold remembered. destruct (Bin.packHeur b); [done|].
  intros [? ? ? ? ? ? ?]. split; assumption.
Qed.

Lemma committed_packedBin (W H : Z) (b : Bin.t) (newRect : Rect.t) :
  packedBin W H b -> positive newRect ->
  Rect.width newRect <= W -> Rect.height newRect <= H ->
  packedBin W H (committed b newRect).
Proof.
  intros [HW HH Hrot Hin Hpk Harea Hcov] Hpos Hw Hh.
  destruct (committed_fields b newRect)
    as (EW & EH & Erot & _ & Epacked & Earea & Efree).
  split.
  - congruence.
  - congruence.
  - congruence.
  - intros g Hg. rewrite Efree in Hg. apply pruned_subset in Hg.
    destruct (split_spaces _ _ _ Hg) as (f & Hf & Hwf & _).
    specialize (Hin f Hf). unfold insideBin, within in *.
    rewrite EW, EH. lia.
  - intros p Hp. rewrite Epacked in Hp.
    apply elem_of_app in Hp as [Hp | ->%list_elem_of_singleton]; auto.
  - rewrite Earea, Epacked, sumAreas_app, Harea. simpl. lia.
  - intros cx cy Hx Hy. rewrite Epacked, Efree.
    destruct (cellIn newRect (cx, cy)) eqn:Hnew.
    { exists newRect. split; [|assumption].
      apply elem_of_app. left. apply elem_of_app. right. left. }
    destruct (Hcov cx cy Hx Hy) as (r & [Hr | Hr]%elem_of_app & Hc).
    { exists r. split; [|assumption].
      apply elem_of_app. left. apply elem_of_app. by left. }
    destruct (split_cover newRect _ r (cx, cy) Hr Hc Hnew) as (g & Hg & Hgc).
    apply list_elem_of_lookup_1 in Hg as (k & Hk).
    destruct (pruned_above _ k g Hk) as (g' & Hg' & Hwg).
    exists g'. split; [apply elem_of_app; by right|].
    by eapply cellIn_within.
Qed.

Lemma full_bin_occupancy (W H : Z) (b : Bin.t) :
  0 < W -> 0 < H -> packedBin W H b -> Bin.freeRects b = [] ->
  exists q, Bin.getOccupancy b = Ok q /\ Qltb q 1 = false.
Proof.
  intros HW HH [EW EH _ _ Hpk Harea Hcov] Hfree.
  assert (HB : 0 < W * H) by nia.
  exists (occupancy b). split.
  - apply getOccupancy_hasArea. unfold hasArea. rewrite EW, EH. lia.
  - apply Qltb_ge. unfold occupancy. rewrite EW, EH.
    assert (Hle : W * H <= Bin.occupiedArea b).
    { rewrite Harea. apply covered_area; try lia.
      - apply Forall_forall. intros p Hp. by apply Hpk.
      - intros cx cy Hx Hy. destruct (Hcov cx cy Hx Hy) as (r & Hr & Hc).
        rewrite Hfree, app_nil_r in Hr. eauto. }
    apply Qle_shift_div_l.
    + replace 0%Q with (inject_Z 0) by reflexivity. rewrite <- Zlt_Qlt. lia.
    + rewrite Qmult_1_l, <- Zle_Qle. lia.
Qed.

Lemma pruneMaxSpaces_snd (self : Bin.t) :
  (MaxSpaceBin.pruneMaxSpaces self).2
  = let self' := (MaxSpaceBin.pruneMaxSpaces self).1 in
    if bool_decide (length (Bin.freeRects self') = 0%nat) then
      occupancy ← Bin.getOccupancy self';
      if Qltb occupancy 1 then Raise (ValueError "Error") else Ok ()
    else Ok ().
Proof. reflexivity. Qed.

(** Committing an item never trips the check at the end of
    [pruneMaxSpaces]. *)
Lemma insert_commit (W H : Z) (b : Bin.t) (newRect : Rect.t) :
  0 < W -> 0 < H -> packedBin W H b -> positive newRect ->
  Rect.width newRect <= W -> Rect.height newRect <= H ->
  MaxSpaceBin.pruneMaxSpaces
    (MaxSpaceBin.generateNewMaxSpaces (Bin.packRect b newRect) newRect)
  = (committed b newRect, Ok ()).
Proof.
  intros HW HH Hb Hpos Hw Hh.
  pose proof (committed_packedBin W H b newRect Hb Hpos Hw Hh) as Hc.
  rewrite (surjective_pairing (MaxSpaceBin.pruneMaxSpaces _)).
  rewrite pruneMaxSpaces_snd. fold (committed b newRect). f_equal.
  cbv zeta.
  destruct (bool_decide _) eqn:E; [|reflexivity].
  apply bool_decide_eq_true in E. apply length_zero_iff_nil in E.
  destruct (full_bin_occupancy W H _ HW HH Hc E) as (q & -> & Hq).
  simpl. by rewrite Hq.
Qed.


(** ** pack *)

Arguments MaxSpaceBin.evaluatePacking : simpl never.
Arguments MaxSpaceBin.insert : simpl never.
Arguments RBPSolution.openNewBin : simpl never.
Arguments Rect.removePackingInfo : simpl never.

Lemma removePackingInfo_size (r : Rect.t) :
  Rect.width (Rect.removePackingInfo r) = Rect.width r
  /\ Rect.height (Rect.removePackingInfo r) = Rect.height r
  /\ Rect.isReadyForPacking (Rect.removePackingInfo r) = false.
Proof. repeat split. Qed.

(** A candidate found in a bin of the packing has the size of the item,
    fits the bin and carries a position. *)
Lemma evaluated_fits (W H : Z) (b : Bin.t) (rect c : Rect.t)
    (h : PackingHeuristic) :
  packedBin W H b ->
  (MaxSpaceBin.evaluatePacking b rect (Some h)).2 = Ok (Some c) ->
  Rect.width c = Rect.width rect /\ Rect.height c = Rect.height rect
  /\ Rect.width c <= W /\ Rect.height c <= H
  /\ Rect.isReadyForPacking c = true.
Proof.
  intros Hb Hc.
  destruct (evaluatePacking_evaluated b rect h) as
    [E | (c' & f & rotated & E & Hf & Hfit & Hpl & Hrot)].
  - intros _. apply Hb.
  - congruence.
  - rewrite Hc in E. injection E as <-.
    assert (rotated = false) as ->.
    { destruct rotated; [|reflexivity].
      rewrite (pb_canRotate _ _ _ Hb) in Hrot. by specialize (Hrot eq_refl). }
    destruct Hpl as (Ex & Ey & Ecw & Ech). destruct Hfit as [Hfw Hfh].
    pose proof (pb_inside _ _ _ Hb f Hf) as (? & ? & ? & ?).
    rewrite (pb_binWidth _ _ _ Hb), (pb_binHeight _ _ _ Hb) in *.
    repeat split; try lia.
    unfold Rect.isReadyForPacking. rewrite Ex, Ey.
    destruct (Z.eqb_spec (Rect.x f) (-1)); [lia|].
    destruct (Z.eqb_spec (Rect.y f) (-1)); [lia|]. reflexivity.
Qed.

Lemma evaluatePacking_returns (W H : Z) (b : Bin.t) (rect : Rect.t)
    (h : PackingHeuristic) :
  packedBin W H b ->
  exists o, (MaxSpaceBin.evaluatePacking b rect (Some h)).2 = Ok o.
Proof.
  intros Hb.
  destruct (evaluatePacking_evaluated b rect h) as
    [E | (c' & f & rotated & E & _)]; eauto.
  intros _. apply Hb.
Qed.



Lemma chooseBin_cons (heur : option PackingHeuristic) (curRect : Rect.t)
    (k : nat) (b : Bin.t) (rest : list Bin.t) (st : RBPSolution.BestBin) :
  RBPSolution.chooseBin heur curRect k (b :: rest) st
  = let curRect := Rect.removePackingInfo curRect in
    newRect ← (MaxSpaceBin.evaluatePacking b curRect heur).2;
    '(rest, st) ← RBPSolution.chooseBin heur curRect (S k) rest
                    (updateBest k newRect st);
    Ok (remembered b heur :: rest, st).
Proof.
  cbn [RBPSolution.chooseBin].
  rewrite <- (evaluatePacking_fst b (Rect.removePackingInfo curRect)).
  destruct (MaxSpaceBin.evaluatePacking b _ heur) as [b1 [o|e]]; reflexivity.
Qed.










(** ** removeAndRepack *)

Lemma transposed_length (i j : nat) (l : list Rect.t) :
  length (transposed i j l) = length l.
Proof.
  unfold transposed. destruct (l !! i), (l !! j); try reflexivity.
  by rewrite !length_insert.
Qed.

Lemma swap_in_range (l : list Rect.t) (i j : nat) :
  (i < length l)%nat -> (j < length l)%nat ->
  RBPSolution.swap l i j = Ok (transposed i j l).
Proof.
  intros Hi Hj. unfold RBPSolution.swap, transposed.
  destruct (lookup_lt_is_Some_2 l i Hi) as (a & ->).
  destruct (lookup_lt_is_Some_2 l j Hj) as (b & ->). reflexivity.
Qed.

Lemma randint_range (len : nat) (tp tp' : tape) (idx : Z) :
  (0 < len)%nat ->
  rng_randint 0 (Z.of_nat len - 1) tp = Some (idx, tp') ->
  0 <= idx < Z.of_nat len.
Proof.
  intros Hlen. destruct tp as [|n tp]; [discriminate|]. simpl.
  intros [= <- _].
  pose proof (Z.mod_pos_bound (Z.of_N n) (Z.of_nat len - 1 - 0 + 1)). lia.
Qed.

Lemma redraw_differs (len : nat) (idx1 : Z) (tp : tape) :
  (0 < len)%nat ->
  forall (idx2 idx2' : Z) (tp' : tape),
    0 <= idx2 < Z.of_nat len ->
    RBPSolution.redraw len idx1 idx2 tp = Some (idx2', tp') ->
    idx2' <> idx1 /\ 0 <= idx2' < Z.of_nat len.
Proof.
  intros Hlen. induction tp as [|n tp IH]; intros idx2 idx2' tp' Hr; simpl;
    destruct (Z.eqb_spec idx2 idx1) as [E|E]; try discriminate.
  - intros [= <- _]. auto.
  - apply IH.
    pose proof (Z.mod_pos_bound (Z.of_N n) (Z.of_nat len - 1 - 0 + 1)). lia.
  - intros [= <- _]. auto.
Qed.

(** The loop of [perturb] makes [number] exchanges of two different
    positions and raises nothing. *)
Lemma swaps_spec (number : nat) :
  forall (sub : list Rect.t) (tp : tape) (outcome : result RBPSolution.Perturbed),
    (0 < length sub)%nat ->
    RBPSolution.swaps number sub tp = Some outcome ->
    exists sub' tp' log,
      outcome = Ok (sub', tp', log)
      /\ length log = number
      /\ sub' = applySwaps log sub
      /\ Forall (properSwap (length sub)) log.
Proof.
  induction number as [|number IH]; intros sub tp outcome Hlen Hrun.
  - simpl in Hrun. injection Hrun as <-. exists sub, tp, []. auto.
  - simpl in Hrun.
    destruct (rng_randint 0 (Z.of_nat (length sub) - 1) tp)
      as [[idx1 tp1]|] eqn:E1; [|discriminate].
    simpl in Hrun.
    destruct (rng_randint 0 (Z.of_nat (length sub) - 1) tp1)
      as [[idx2 tp2]|] eqn:E2; [|discriminate].
    simpl in Hrun.
    destruct (RBPSolution.redraw (length sub) idx1 idx2 tp2)
      as [[idx2' tp3]|] eqn:E3; [|discriminate].
    simpl in Hrun.
    pose proof (randint_range _ _ _ _ Hlen E1) as H1.
    pose proof (randint_range _ _ _ _ Hlen E2) as H2.
    destruct (redraw_differs _ _ _ Hlen _ _ _ H2 E3) as [Hne H3].
    rewrite swap_in_range in Hrun by lia.
    destruct (RBPSolution.swaps number _ tp3) as [r|] eqn:E4; [|discriminate].
    simpl in Hrun. injection Hrun as <-.
    assert (Hlen' : (0 < length (transposed (Z.to_nat idx1) (Z.to_nat idx2')
                                    sub))%nat)
      by (by rewrite transposed_length).
    destruct (IH _ _ _ Hlen' E4)
      as (sub' & tp' & log & -> & Hlog & -> & Hall).
    simpl. eexists _, _, _. split; [reflexivity|].
    split; [simpl; by rewrite Hlog|]. split; [reflexivity|].
    constructor.
    + unfold properSwap. simpl. lia.
    + by rewrite transposed_length in Hall.
Qed.

Lemma perturb_spec (sub : list Rect.t) (tp : tape)
    (outcome : result RBPSolution.Perturbed) :
  RBPSolution.perturb sub tp = Some outcome ->
  exists sub' tp' log,
    outcome = Ok (sub', tp', log)
    /\ sub' = applySwaps log sub
    /\ Forall (properSwap (length sub)) log
    /\ ((3 <= length sub)%nat -> log <> [])
    /\ ((length sub <= 2)%nat -> log = [] /\ tp' = tp).
Proof.
  unfold RBPSolution.perturb. destruct (bool_decide _) eqn:E.
  - apply bool_decide_eq_true in E. intros [= <-].
    exists sub, tp, [].
    split; [reflexivity|]. split; [reflexivity|]. split; [constructor|].
    split; [lia | auto].
  - apply bool_decide_eq_false in E.
    destruct (rng_random tp) as [[u tp1]|]; [|discriminate]. simpl.
    intros Hrun.
    assert (Hlen : (0 < length sub)%nat) by lia.
    destruct (swaps_spec _ _ _ _ Hlen Hrun)
      as (sub' & tp' & log & -> & Hlog & -> & Hall).
    exists (applySwaps log sub), tp', log.
    split; [reflexivity|]. split; [reflexivity|]. split; [assumption|].
    split; [|lia].
    intros _ ->. simpl in Hlog. lia.
Qed.

Lemma redraw_distinct (len : nat) (idx1 idx2 : Z) (tp : tape) :
  idx2 <> idx1 -> RBPSolution.redraw len idx1 idx2 tp = Some (idx2, tp).
Proof.
  intros Hne. destruct tp; simpl;
    destruct (Z.eqb_spec idx2 idx1); congruence.
Qed.

Lemma swaps_runs (number : nat) :
  forall (sub : list Rect.t) (rest : tape),
    (2 <= length sub)%nat ->
    exists r,
      RBPSolution.swaps number sub
        (mjoin (replicate number [0%N; 1%N]) ++ rest) = Some (Ok r).
Proof.
  induction number as [|number IH]; intros sub rest Hlen.
  - simpl. eauto.
  - assert (E0 : 0 + 0 `mod` (Z.of_nat (length sub) - 1 - 0 + 1) = 0).
    { rewrite Z.mod_0_l by lia. reflexivity. }
    assert (E1 : 0 + 1 `mod` (Z.of_nat (length sub) - 1 - 0 + 1) = 1).
    { rewrite Z.mod_small by lia. reflexivity. }
    simpl. rewrite E0, E1, redraw_distinct by lia. simpl.
    rewrite swap_in_range by lia.
    destruct (IH (transposed 0 1 sub) rest) as ([[sub' tp'] log] & Hr).
    { by rewrite transposed_length. }
    change (Z.to_nat 0) with 0%nat. change (Z.to_nat 1) with 1%nat.
    rewrite Hr. simpl. eauto.
Qed.

Lemma perturb_runs (sub : list Rect.t) :
  exists tp r, RBPSolution.perturb sub tp = Some (Ok r).
Proof.
  unfold RBPSolution.perturb. destruct (bool_decide _) eqn:E.
  - exists [], (sub, [], []). reflexivity.
  - apply bool_decide_eq_false in E.
    set (number := Z.to_nat (Z.max (py_int
           (((25 # 1000) + (125 # 1000) * (Z.of_N (0 mod 2 ^ 53)%N # 2 ^ 53))
            * inject_Z (Z.of_nat (length sub)) + (1 # 2))%Q) 1)).
    assert (Hlen : (2 <= length sub)%nat) by lia.
    destruct (swaps_runs number sub [] Hlen) as (r & Hr).
    exists (0%N :: mjoin (replicate number [0%N; 1%N]) ++ []), r.
    simpl. exact Hr.
Qed.

Lemma py_int_succ_floor (q : Q) :
  (0 <= q)%Q -> py_int (q + 1)%Q = Qfloor q + 1.
Proof.
  destruct q as [a d]. unfold Qle, py_int, Qfloor, Qplus. simpl.
  intros Ha. rewrite Z.quot_div_nonneg by lia.
  rewrite Pos.mul_1_r, !Z.mul_1_r.
  replace (a + Z.pos d) with (a + 1 * Z.pos d) by lia.
  rewrite Z.div_add by lia. reflexivity.
Qed.

Lemma removalCount_floor (percentage : Q) (n : Z) :
  (0 <= percentage)%Q -> 0 <= n ->
  RBPSolution.removalCount percentage n
  = Z.max 2 (Qfloor (percentage * inject_Z n) + 1).
Proof.
  intros Hp Hn. unfold RBPSolution.removalCount.
  rewrite py_int_succ_floor; [lia|].
  apply Qmult_le_0_compat; [assumption|].
  replace 0%Q with (inject_Z 0) by reflexivity. by rewrite <- Zle_Qle.
Qed.

Lemma selection_length (reverse : bool) (number : Z) (rects : list Rect.t) :
  0 <= number <= Z.of_nat (length rects) ->
  Z.of_nat (length (selection reverse number (Z.of_nat (length rects)) rects))
  = number.
Proof.
  intros Hn. unfold selection. destruct reverse.
  - rewrite length_take. lia.
  - rewrite length_drop. lia.
Qed.

Lemma writtenBack_selection (reverse : bool) (number n : Z)
    (rects : list Rect.t) :
  writtenBack reverse number n rects (selection reverse number n rects)
  = rects.
Proof. unfold writtenBack, selection. destruct reverse; apply take_drop. Qed.


Lemma rng_random_range (tp tp' : tape) (u : Q) :
  rng_random tp = Some (u, tp') -> (0 <= u)%Q /\ (u < 1)%Q.
Proof.
  destruct tp as [|n tp]; [discriminate|]. simpl. intros [= <- _].
  assert (Hlt : (n mod 2 ^ 53 < 2 ^ 53)%N)
    by (apply N.mod_upper_bound; discriminate).
  apply N2Z.inj_lt in Hlt.
  change (Z.of_N (2 ^ 53)) with (Z.pos (2 ^ 53)) in Hlt.
  pose proof (N2Z.is_nonneg (n mod 2 ^ 53)) as Hnn.
  set (z := Z.of_N (n mod 2 ^ 53)) in *. clearbody z.
  unfold Qle, Qlt. simpl Qnum. simpl Qden. lia.
Qed.

(** *** The counts in binary64 *)

Lemma rep_nonneg (g : Q) : Float64.rep g -> (0 <= g)%Q.
Proof.
  intros (k & e & Hg & Hk & _). rewrite Hg.
  apply Qmult_le_0_compat.
  - replace 0%Q with (inject_Z 0) by reflexivity. rewrite <- Zle_Qle. lia.
  - apply Qlt_le_weak, pow2_pos.
Qed.

Lemma int_finite (k : Z) :
  k <= 2 ^ 54 -> (inject_Z k < Float64.pow2 1024)%Q.
Proof.
  intros Hk. eapply Qle_lt_trans; [|apply pow2_54_lt]. by rewrite <- Zle_Qle.
Qed.

Lemma inject_Z_nonneg (k : Z) : 0 <= k -> (0 <= inject_Z k)%Q.
Proof.
  intros Hk. replace 0%Q with (inject_Z 0) by reflexivity.
  by rewrite <- Zle_Qle.
Qed.

Lemma of_int_exact (n : Z) :
  0 <= n < 2 ^ 53 ->
  exists n', Float64.of_int n = Ok n' /\ (n' == inject_Z n)%Q.
Proof.
  intros Hn. apply ret_exact.
  - apply inject_Z_nonneg. lia.
  - apply rep_int. lia.
  - apply int_finite. lia.
Qed.

Lemma py_int_range (s : Q) (lo hi : Z) :
  0 <= lo -> (inject_Z lo <= s)%Q -> (s <= inject_Z hi)%Q ->
  lo <= py_int s <= hi.
Proof.
  intros Hlo H1 H2.
  assert (H0 : (0 <= s)%Q).
  { eapply Qle_trans; [|exact H1]. by apply inject_Z_nonneg. }
  rewrite py_int_floor by exact H0.
  apply Qfloor_resp_le in H1, H2. rewrite Qfloor_Z in H1, H2. lia.
Qed.

(** For a fraction in [0, 1] and fewer than 2^52 items the count is
    computed without overflow and lies between 2 and the item count plus
    one. *)
Lemma removalCount64_returns (p : Q) (n : Z) :
  Float64.rep p -> (p <= 1)%Q -> 0 <= n < 2 ^ 52 ->
  exists number,
    RBPSolution.removalCount64 p n = Ok number
    /\ 2 <= number <= Z.max 2 (n + 1).
Proof.
  intros Hrep Hp1 Hn. pose proof (rep_nonneg p Hrep) as Hp0.
  pose proof (inject_Z_nonneg n ltac:(lia)) as Hn0.
  unfold RBPSolution.removalCount64.
  destruct (of_int_exact n) as (n' & -> & En); [lia|].
  cbn [mbind result_bind].
  destruct (ret_between (p * n') 0 (inject_Z n)) as (x & Ex & Hx0 & Hx1).
  - lra.
  - rewrite En. by apply Qmult_le_0_compat.
  - rewrite En. nra.
  - apply (rep_int 0). lia.
  - apply rep_int. lia.
  - apply int_finite. lia.
  - unfold Float64.mul. rewrite Ex. cbn [mbind result_bind].
    destruct (ret_between (x + 1) 1 (inject_Z (n + 1)))
      as (s & Es & Hs0 & Hs1).
    + lra.
    + lra.
    + rewrite inject_Z_plus. change (inject_Z 1) with 1%Q. lra.
    + apply (rep_int 1). lia.
    + apply rep_int. lia.
    + apply int_finite. lia.
    + unfold Float64.add. rewrite Es. cbn [mbind result_bind].
      eexists. split; [reflexivity|].
      pose proof (py_int_range s 1 (n + 1) ltac:(lia) Hs0 Hs1). lia.
Qed.

(** The count is that of exact arithmetic or one more: neither rounding
    crosses an integer. *)
Lemma removalCount64_near (p : Q) (n number : Z) :
  (0 <= p)%Q -> (p <= 1)%Q -> 0 <= n < 2 ^ 52 ->
  RBPSolution.removalCount64 p n = Ok number ->
  Z.max 2 (Qfloor (p * inject_Z n) + 1) <= number
  <= Z.max 2 (Qfloor (p * inject_Z n) + 2).
Proof.
  intros Hp0 Hp1 Hn.
  pose proof (inject_Z_nonneg n ltac:(lia)) as Hn0.
  set (y := (p * inject_Z n)%Q). set (F := Qfloor y).
  assert (Hy0 : (0 <= y)%Q) by (by apply Qmult_le_0_compat).
  assert (Hyn : (y <= inject_Z n)%Q) by (unfold y; nra).
  assert (HF0 : 0 <= F).
  { pose proof (Qfloor_resp_le _ _ Hy0) as H. exact H. }
  assert (HFn : F <= n).
  { pose proof (Qfloor_resp_le _ _ Hyn) as H. by rewrite Qfloor_Z in H. }
  pose proof (Qfloor_le y) as Hf1. pose proof (Qlt_floor y) as Hf2.
  fold F in Hf1, Hf2.
  assert (E1 : (inject_Z (F + 1) == inject_Z F + 1)%Q)
    by (rewrite inject_Z_plus; reflexivity).
  assert (E2 : (inject_Z (F + 2) == inject_Z F + 2)%Q)
    by (rewrite inject_Z_plus; reflexivity).
  pose proof (inject_Z_nonneg F HF0) as HFq.
  unfold RBPSolution.removalCount64.
  destruct (of_int_exact n) as (n' & -> & En); [lia|].
  cbn [mbind result_bind].
  destruct (ret_between (p * n') (inject_Z F) (inject_Z (F + 1)))
    as (x & Ex & Hx0 & Hx1).
  - exact HFq.
  - rewrite En. exact Hf1.
  - rewrite En. apply Qlt_le_weak. exact Hf2.
  - apply rep_int. lia.
  - apply rep_int. lia.
  - apply int_finite. lia.
  - unfold Float64.mul. rewrite Ex. cbn [mbind result_bind].
    destruct (ret_between (x + 1) (inject_Z (F + 1)) (inject_Z (F + 2)))
      as (s & Es & Hs0 & Hs1).
    + lra.
    + lra.
    + lra.
    + apply rep_int. lia.
    + apply rep_int. lia.
    + apply int_finite. lia.
    + unfold Float64.add. rewrite Es. cbn [mbind result_bind].
      intros [= <-].
      pose proof (py_int_range s (F + 1) (F + 2) ltac:(lia) Hs0 Hs1). lia.
Qed.

(** When the product and the sum are binary64 numbers themselves, the
    count is the one of exact arithmetic. *)
Lemma removalCount64_exact (p : Q) (n : Z) :
  (0 <= p)%Q -> (p <= 1)%Q -> 0 <= n < 2 ^ 52 ->
  Float64.rep (p * inject_Z n) -> Float64.rep (p * inject_Z n + 1) ->
  RBPSolution.removalCount64 p n
  = Ok (Z.max 2 (Qfloor (p * inject_Z n) + 1)).
Proof.
  intros Hp0 Hp1 Hn Hprod Hsum.
  pose proof (inject_Z_nonneg n ltac:(lia)) as Hn0.
  assert (Hpn : (p * inject_Z n <= inject_Z n)%Q) by nra.
  assert (Hpn0 : (0 <= p * inject_Z n)%Q) by (by apply Qmult_le_0_compat).
  pose proof (int_finite (n + 1) ltac:(lia)) as Hfin.
  rewrite inject_Z_plus in Hfin. change (inject_Z 1) with 1%Q in Hfin.
  unfold RBPSolution.removalCount64.
  destruct (of_int_exact n) as (n' & -> & En); [lia|].
  cbn [mbind result_bind].
  set (y := (p * inject_Z n)%Q) in *.
  destruct (ret_between (p * n') y y) as (x & Ex & Hx0 & Hx1);
    try assumption; try (unfold y; rewrite En; apply Qle_refl); try lra.
  unfold Float64.mul. rewrite Ex. cbn [mbind result_bind].
  destruct (ret_between (x + 1) (y + 1) (y + 1)) as (s & Es & Hs0 & Hs1);
    try assumption; try lra.
  unfold Float64.add. rewrite Es. cbn [mbind result_bind].
  f_equal. rewrite Z.max_comm. f_equal.
  pose proof (Qfloor_le y) as Hf1. pose proof (Qlt_floor y) as Hf2.
  assert (Hfl0 : 0 <= Qfloor y).
  { pose proof (Qfloor_resp_le _ _ Hpn0) as H. exact H. }
  rewrite inject_Z_plus in Hf2. change (inject_Z 1) with 1%Q in Hf2.
  apply py_int_between; [lia | |];
    rewrite !inject_Z_plus; change (inject_Z 1) with 1%Q; lra.
Qed.

(** The number of exchanges is computed without overflow for a list of
    fewer than 2^52 items. *)
Lemma swapCount64_returns (u : Q) (len : nat) :
  (0 <= u)%Q -> (u <= 1)%Q -> Z.of_nat len < 2 ^ 52 ->
  exists k, RBPSolution.swapCount64 u len = Ok k.
Proof.
  intros Hu0 Hu1 Hlen.
  set (n := Z.of_nat len) in *.
  assert (Hn : 0 <= n) by (unfold n; lia).
  pose proof (inject_Z_nonneg n Hn) as Hn0.
  unfold RBPSolution.swapCount64.
  assert (E8 : Float64.lit (125 # 1000) = (1 # 8)%Q)
    by (vm_compute; reflexivity).
  assert (E2 : Float64.lit (5 # 10) = (1 # 2)%Q) by (vm_compute; reflexivity).
  assert (H25 : (0 <= Float64.lit (25 # 1000))%Q /\
                (Float64.lit (25 # 1000) <= 1)%Q)
    by (split; vm_compute; discriminate).
  rewrite E8, E2. set (c25 := Float64.lit (25 # 1000)) in *.
  destruct H25 as [H25a H25b].
  destruct (ret_between ((1 # 8) * u) 0 1) as (c & Ec & Hc0 & Hc1);
    [lra | nra | nra | apply (rep_int 0); lia | apply (rep_int 1); lia
     | apply (int_finite 1); lia |].
  change (Float64.mul (1 # 8) u) with (Float64.ret ((1 # 8) * u)).
  rewrite Ec. cbn [mbind result_bind].
  destruct (ret_between (c25 + c) 0 2) as (st & Est & Hst0 & Hst1);
    [lra | lra | lra | apply (rep_int 0); lia | apply (rep_int 2); lia
     | apply (int_finite 2); lia |].
  change (Float64.add c25 c) with (Float64.ret (c25 + c)).
  rewrite Est. cbn [mbind result_bind].
  fold n. destruct (of_int_exact n) as (n' & -> & En); [lia|].
  cbn [mbind result_bind].
  destruct (ret_between (st * n') 0 (inject_Z (2 * n)))
    as (x & Ex & Hx0 & Hx1).
  - lra.
  - rewrite En. by apply Qmult_le_0_compat.
  - rewrite En, inject_Z_mult. change (inject_Z 2) with 2%Q. nra.
  - apply (rep_int 0). lia.
  - apply rep_int. lia.
  - apply int_finite. lia.
  - unfold Float64.mul. rewrite Ex. cbn [mbind result_bind].
    destruct (ret_between (x + (1 # 2)) 0 (inject_Z (2 * n + 1)))
      as (s & Es & Hs0 & Hs1).
    + lra.
    + lra.
    + rewrite inject_Z_plus. change (inject_Z 1) with 1%Q. lra.
    + apply (rep_int 0). lia.
    + apply rep_int. lia.
    + apply int_finite. lia.
    + unfold Float64.add. rewrite Es. cbn [mbind result_bind]. eauto.
Qed.

(** What [perturb] does when it returns. *)
Lemma perturb64_ok (sub sub' : list Rect.t) (tp tp' : tape)
    (log : list (nat * nat)) :
  RBPSolution.perturb64 sub tp = Some (Ok (sub', tp', log)) ->
  sub' = applySwaps log sub
  /\ Forall (properSwap (length sub)) log
  /\ ((3 <= length sub)%nat -> log <> [])
  /\ ((length sub <= 2)%nat -> log = [] /\ tp' = tp).
Proof.
  unfold RBPSolution.perturb64. destruct (bool_decide _) eqn:E.
  - apply bool_decide_eq_true in E. intros [= <- <- <-].
    split; [reflexivity|]. split; [constructor|]. split; [lia | auto].
  - apply bool_decide_eq_false in E.
    destruct (rng_random tp) as [[u tp1]|]; [|discriminate].
    cbn [mbind option_bind].
    destruct (RBPSolution.swapCount64 u (length sub)) as [k|e];
      [|discriminate].
    intros Hrun.
    assert (Hlen : (0 < length sub)%nat) by lia.
    destruct (swaps_spec _ _ _ _ Hlen Hrun)
      as (sub1 & tp1' & log1 & [= <- <- <-] & Hlog & -> & Hall).
    split; [reflexivity|]. split; [assumption|]. split; [|lia].
    intros _ ->. simpl in Hlog. lia.
Qed.

(** On a list of fewer than 2^52 items [perturb] raises nothing. *)
Lemma perturb64_spec (sub : list Rect.t) (tp : tape)
    (outcome : result RBPSolution.Perturbed) :
  Z.of_nat (length sub) < 2 ^ 52 ->
  RBPSolution.perturb64 sub tp = Some outcome ->
  exists sub' tp' log,
    outcome = Ok (sub', tp', log)
    /\ sub' = applySwaps log sub
    /\ Forall (properSwap (length sub)) log
    /\ ((3 <= length sub)%nat -> log <> [])
    /\ ((length sub <= 2)%nat -> log = [] /\ tp' = tp).
Proof.
  intros Hshort Hrun.
  assert (Hok : exists r, outcome = Ok r).
  { unfold RBPSolution.perturb64 in Hrun. destruct (bool_decide _) eqn:E.
    - injection Hrun as <-. eauto.
    - apply bool_decide_eq_false in E.
      destruct (rng_random tp) as [[u tp1]|] eqn:Eu; [|discriminate].
      cbn [mbind option_bind] in Hrun.
      destruct (rng_random_range tp tp1 u Eu) as [Hu0 Hu1].
      destruct (swapCount64_returns u (length sub) Hu0
                  (Qlt_le_weak _ _ Hu1) Hshort) as (k & Ek).
      rewrite Ek in Hrun.
      assert (Hlen : (0 < length sub)%nat) by lia.
      destruct (swaps_spec _ _ _ _ Hlen Hrun) as (s1 & t1 & l1 & -> & _).
      eauto. }
  destruct Hok as ([[sub' tp'] log] & ->).
  exists sub', tp', log. split; [reflexivity|]. by apply perturb64_ok.
Qed.

Lemma perturb64_runs (sub : list Rect.t) :
  Z.of_nat (length sub) < 2 ^ 52 ->
  exists tp r, RBPSolution.perturb64 sub tp = Some (Ok r).
Proof.
  intros Hshort. unfold RBPSolution.perturb64.
  destruct (bool_decide _) eqn:E.
  - exists [], (sub, [], []). reflexivity.
  - apply bool_decide_eq_false in E.
    destruct (swapCount64_returns (Z.of_N (0 mod 2 ^ 53)%N # 2 ^ 53)
                (length sub)) as (k & Ek);
      [unfold Qle; simpl; lia | unfold Qle; simpl; lia | exact Hshort|].
    set (number := Z.to_nat (Z.max k 1)).
    assert (Hlen : (2 <= length sub)%nat) by lia.
    destruct (swaps_runs number sub [] Hlen) as (r & Hr).
    exists (0%N :: mjoin (replicate number [0%N; 1%N]) ++ []), r.
    cbn [rng_random mbind option_bind]. rewrite Ek. exact Hr.
Qed.

(** With a fraction in [0, 1], without sorting and with a removal count
    within the item count, [removeAndRepack] reaches [pack] after
    perturbing the selection. *)
Lemma ruin64_perturbs (self : RBPSolution.t) (percentage : Q)
    (reverse : bool) (rects : list Rect.t) (tp : tape) (number : Z) :
  let n := Z.of_nat (length rects) in
  (0 <= percentage)%Q -> (percentage <= 1)%Q ->
  RBPSolution.rectList self = Some rects ->
  RBPSolution.numRects self = Some n ->
  RBPSolution.removalCount64 percentage n = Ok number ->
  2 <= number <= n ->
  RBPSolution.ruin64 self percentage reverse false tp
  = perturbed ← RBPSolution.perturb64 (selection reverse number n rects) tp;
    Some ('(sub, tp, log) ← perturbed;
          Ok (RBPSolution.mkRuined
                (RBPSolution.set_rectList self
                   (Some (writtenBack reverse number n rects sub)))
                tp (selection reverse number n rects) log)).
Proof.
  intros n Hlo Hhi Hrects Hnum Hcount Hnumber.
  assert (Es : slice_start (n - number) (length rects) = Z.to_nat (n - number)).
  { unfold slice_start. destruct (Z.ltb_spec (n - number) 0); [lia|reflexivity]. }
  assert (E1 : Qltb percentage 0 = false) by (by apply Qltb_ge).
  assert (E2 : Qltb 1 percentage = false) by (by apply Qltb_ge).
  unfold RBPSolution.ruin64.
  rewrite E1, E2, Hrects, Hnum. simpl orb. cbv iota.
  fold n. rewrite Hcount. cbv zeta. rewrite Es.
  destruct rects as [|r0 rects0]; [simpl in n; lia|]. reflexivity.
Qed.

(** C9, as the code behaves.  For a float fraction in [0, 1] and fewer
    than 2^52 items, without sorting: the removal count [number] is
    [max(2, int(fraction * n + 1))] with the product and the sum rounded
    to binary64; it is [max(2, floor(fraction * n) + 1)] or one more, and
    the former when the product and the sum are binary64 numbers
    themselves.  When [number] does not
    exceed the item count [n], exactly [number] items are taken from the
    head or the tail of the working order and written back into the same
    slice after the exchanges [perturb] made, each of two different
    positions of the selection.  When [number] is 3 or more there is at
    least one exchange; when [number] is exactly 2, [perturb] returns at
    once, there is no exchange and the working order is written back
    unchanged. *)
Theorem removeAndRepack_selects_and_perturbs
    (self : RBPSolution.t) (percentage : Q) (reverse : bool)
    (rects : list Rect.t) :
  let n := Z.of_nat (length rects) in
  Float64.rep percentage -> (percentage <= 1)%Q ->
  RBPSolution.rectList self = Some rects ->
  RBPSolution.numRects self = Some n ->
  n < 2 ^ 52 ->
  exists number : Z,
    RBPSolution.removalCount64 percentage n = Ok number
    /\ 2 <= number <= Z.max 2 (n + 1)
    /\ Z.max 2 (Qfloor (percentage * inject_Z n) + 1) <= number
       <= Z.max 2 (Qfloor (percentage * inject_Z n) + 2)
    /\ (Float64.rep (percentage * inject_Z n) ->
        Float64.rep (percentage * inject_Z n + 1) ->
        number = Z.max 2 (Qfloor (percentage * inject_Z n) + 1))
    /\ (number <= n ->
        (forall tp outcome,
           RBPSolution.ruin64 self percentage reverse false tp
           = Some outcome ->
           exists r,
             outcome = Ok r
             /\ RBPSolution.taken r = selection reverse number n rects
             /\ Z.of_nat (length (RBPSolution.taken r)) = number
             /\ RBPSolution.rectList (RBPSolution.ruined r)
                = Some (writtenBack reverse number n rects
                          (applySwaps (RBPSolution.swapped r)
                             (RBPSolution.taken r)))
             /\ Forall (properSwap (length (RBPSolution.taken r)))
                  (RBPSolution.swapped r)
             /\ (3 <= number -> RBPSolution.swapped r <> [])
             /\ (number = 2 ->
                 RBPSolution.swapped r = []
                 /\ RBPSolution.rectList (RBPSolution.ruined r) = Some rects
                 /\ RBPSolution.rest_tape r = tp))
        /\ (exists tp r,
              RBPSolution.ruin64 self percentage reverse false tp
              = Some (Ok r)))
    /\ (forall tp heur first,
          RBPSolution.removeAndRepack64 self heur percentage reverse false
            first tp
          = r ← RBPSolution.ruin64 self percentage reverse false tp;
            Some (r ← r;
                  packed ← RBPSolution.pack (RBPSolution.ruined r) None heur
                             first;
                  Ok (packed, RBPSolution.rest_tape r))).
Proof.
  intros n Hrep Hhi Hrects Hnum Hshort.
  pose proof (rep_nonneg percentage Hrep) as Hlo.
  assert (Hn : 0 <= n < 2 ^ 52) by (unfold n; lia).
  destruct (removalCount64_returns percentage n Hrep Hhi Hn)
    as (number & Ecount & Hnumber).
  exists number. split; [exact Ecount|]. split; [exact Hnumber|].
  split; [exact (removalCount64_near percentage n number Hlo Hhi Hn Ecount)|].
  split; [|split; [|reflexivity]].
  { intros Hprod Hsum.
    rewrite (removalCount64_exact percentage n Hlo Hhi Hn Hprod Hsum)
      in Ecount.
    by injection Ecount. }
  intros Hle.
  assert (Hlen : Z.of_nat (length (selection reverse number n rects)) = number).
  { apply selection_length. lia. }
  assert (Hsel : Z.of_nat (length (selection reverse number n rects)) < 2 ^ 52)
    by lia.
  split.
  - intros tp outcome.
    rewrite (ruin64_perturbs self percentage reverse rects tp number)
      by (assumption || lia).
    fold n.
    destruct (RBPSolution.perturb64 _ tp) as [perturbed|] eqn:Ep;
      [|discriminate].
    simpl. intros [= <-].
    destruct (perturb64_spec _ _ _ Hsel Ep)
      as (sub' & tp' & log & -> & -> & Hall & Hmany & Hfew).
    simpl. eexists. split; [reflexivity|]. simpl.
    split; [reflexivity|]. split; [assumption|]. split; [reflexivity|].
    split; [assumption|]. split.
    + intros H3. apply Hmany. lia.
    + intros H2. destruct Hfew as [-> ->]; [lia|].
      split; [reflexivity|]. simpl. split; [|reflexivity].
      by rewrite writtenBack_selection.
  - destruct (perturb64_runs (selection reverse number n rects) Hsel)
      as (tp & [[sub' tp'] log] & Hrun).
    exists tp.
    rewrite (ruin64_perturbs self percentage reverse rects tp number)
      by (assumption || lia).
    fold n. rewrite Hrun. simpl. eauto.
Qed.

Lemma removeAndRepack_selects_and_perturbs_witness :
  exists self : RBPSolution.t,
    sixItemSolution = Ok self
    /\ RBPSolution.removalCount64 (1 # 2) 6 = Ok 4
    /\ exists tp r,
         RBPSolution.ruin64 self (1 # 2) true false tp = Some (Ok r).
Proof.
  eexists. split; [vm_compute; reflexivity|].
  split; [vm_compute; reflexivity|].
  lazymatch goal with
  | |- exists tp r, RBPSolution.ruin64 ?s _ _ _ tp = _ =>
      edestruct (removeAndRepack_selects_and_perturbs s (1 # 2) true)
        as (number & Ecount & _ & _ & _ & Hsel & _)
  end.
  - exists 1, (-1). split; [reflexivity | lia].
  - unfold Qle. simpl. lia.
  - reflexivity.
  - reflexivity.
  - simpl. lia.
  - assert (E : number = 4).
    { vm_compute in Ecount. by injection Ecount. }
    apply Hsel. rewrite E. simpl. lia.
Defined.

(** C9, as stated, fails when the removal count is exactly 2: with fraction
    0 on three items the last two are selected, [perturb] makes no exchange
    whatever the random draws, and the working order is written back as it
    was. *)
Lemma removeAndRepack_two_items_counterexample :
  exists self : RBPSolution.t,
    threeItemSolution = Ok self
    /\ RBPSolution.removalCount64 0 3 = Ok 2
    /\ forall tp : tape,
         exists r,
           RBPSolution.ruin64 self 0 false false tp = Some (Ok r)
           /\ length (RBPSolution.taken r) = 2%nat
           /\ RBPSolution.swapped r = []
           /\ RBPSolution.rectList (RBPSolution.ruined r)
              = RBPSolution.rectList self.
Proof.
  eexists. split; [vm_compute; reflexivity|].
  split; [vm_compute; reflexivity|].
  intros tp. eexists. split; [vm_compute; reflexivity|].
  repeat split.
Qed.

(** The count is not always that of exact arithmetic: 0.7 of 10 items
    is 8 items, since the float nearest to 7/10 lies below it and its
    product with 10 is rounded to 7; the floor of the exact product of
    that float with 10 is 6. *)
Lemma removalCount64_seven_tenths :
  let p := Float64.lit (7 # 10) in
  RBPSolution.removalCount64 p 10 = Ok 8
  /\ Z.max 2 (Qfloor (p * 10) + 1) = 7.
Proof. split; vm_compute; reflexivity. Qed.

(** Nor always that of the decimal fraction: 0.58 of 50 items is 29
    items, where the floor of 58/100 * 50 plus one is 30. *)
Lemma removalCount64_fifty_eight_hundredths :
  RBPSolution.removalCount64 (Float64.lit (58 # 100)) 50 = Ok 29
  /\ Z.max 2 (Qfloor ((58 # 100) * 50) + 1) = 30.
Proof. split; vm_compute; reflexivity. Qed.

(** * Further properties *)

(** ** The scans of the free spaces *)

Section IndexedInvariants.

Context {A St : Type} (l0 : list A) (Inv : nat -> St -> Prop).

Lemma for_enumerate_ind (body : St -> nat -> A -> St) :
  (forall s i a, l0 !! i = Some a -> Inv i s -> Inv (S i) (body s i a)) ->
  forall l i s, drop i l0 = l -> Inv i s ->
    Inv (i + length l)%nat (for_enumerate body i l s).
Proof.
  intros Hbody. induction l as [|a l IH]; intros i s Hdrop Hs; simpl.
  - by rewrite Nat.add_0_r.
  - apply drop_cons_lookup in Hdrop as [Hi Hdrop].
    rewrite <- Nat.add_succ_comm. apply IH; [exact Hdrop|]. by apply Hbody.
Qed.

Lemma for_enumerate_r_ind (body : St -> nat -> A -> result St) :
  (forall s i a, l0 !! i = Some a -> Inv i s ->
     exists s', body s i a = Ok s' /\ Inv (S i) s') ->
  forall l i s, drop i l0 = l -> Inv i s ->
    exists s', for_enumerate_r body i l s = Ok s'
               /\ Inv (i + length l)%nat s'.
Proof.
  intros Hbody. induction l as [|a l IH]; intros i s Hdrop Hs; simpl.
  - exists s. by rewrite Nat.add_0_r.
  - apply drop_cons_lookup in Hdrop as [Hi Hdrop].
    destruct (Hbody s i a Hi Hs) as (s' & -> & Hs').
    rewrite <- Nat.add_succ_comm. by apply IH.
Qed.

End IndexedInvariants.

Lemma rank_lt_succ (j i : nat) (rot r0 : bool) :
  (rank j rot < S (rank i r0))%nat
  <-> (rank j rot < rank i r0)%nat \/ (j = i /\ rot = r0).
Proof. unfold rank. destruct rot, r0; lia. Qed.

Lemma lexLt_le_trans (a b c : Z * Z) : lexLt a b -> lexLe b c -> lexLt a c.
Proof. unfold lexLt, lexLe. lia. Qed.

Lemma lexLt_lexLe (a b : Z * Z) : lexLt a b -> lexLe a b.
Proof. unfold lexLt, lexLe. lia. Qed.

Lemma lexLe_refl (a : Z * Z) : lexLe a a.
Proof. unfold lexLe. lia. Qed.

Lemma lexLt_irrefl (a : Z * Z) : ~ lexLt a a.
Proof. unfold lexLt. lia. Qed.

Section Trials.

Context (self : Bin.t) (rect : Rect.t) (key : Rect.t -> bool -> Z * Z).

(** A trial that is not open changes nothing. *)
Lemma firstBest_skip (i : nat) (r0 : bool) (index : Z) (rotated : bool) :
  firstBest self rect key (rank i r0) index rotated ->
  (forall g, Bin.freeRects self !! i = Some g -> ~ admits self rect r0 g) ->
  firstBest self rect key (S (rank i r0)) index rotated.
Proof.
  intros [[-> Hnone] | (k & f & -> & Hk & Hf & Had & Hmin)] Hno.
  - left. split; [reflexivity|]. intros j rot g Hj Hg.
    apply rank_lt_succ in Hj as [Hj | [-> ->]]; [by eapply Hnone | by apply Hno].
  - right. exists k, f. split; [reflexivity|].
    split; [lia|]. split; [exact Hf|]. split; [exact Had|].
    intros j rot g Hj Hg Hadm.
    apply rank_lt_succ in Hj as [Hj | [-> ->]]; [by eapply Hmin|].
    by destruct (Hno g Hg).
Qed.

(** An open trial that does not beat the best one changes nothing. *)
Lemma firstBest_keep (i : nat) (r0 : bool) (g : Rect.t) (k : nat)
    (f : Rect.t) (rotated : bool) :
  firstBest self rect key (rank i r0) (Z.of_nat k) rotated ->
  Bin.freeRects self !! i = Some g ->
  Bin.freeRects self !! k = Some f ->
  ~ lexLt (key g r0) (key f rotated) ->
  firstBest self rect key (S (rank i r0)) (Z.of_nat k) rotated.
Proof.
  intros [[E _] | (k' & f' & E & Hk & Hf & Had & Hmin)] Hg Hfk Hnot; [lia|].
  apply Nat2Z.inj in E. subst k'. rewrite Hfk in Hf. injection Hf as <-.
  right. exists k, f. split; [reflexivity|].
  split; [lia|]. split; [exact Hfk|]. split; [exact Had|].
  intros j rot g' Hj Hg' Hadm.
  apply rank_lt_succ in Hj as [Hj | [-> ->]]; [by eapply Hmin|].
  rewrite Hg in Hg'. injection Hg' as <-. split.
  - unfold lexLt, lexLe in *. lia.
  - lia.
Qed.

(** An open trial that beats the best one, or is the first open one,
    becomes the best. *)
Lemma firstBest_take (i : nat) (r0 : bool) (g : Rect.t) (index : Z)
    (rotated : bool) :
  firstBest self rect key (rank i r0) index rotated ->
  Bin.freeRects self !! i = Some g -> admits self rect r0 g ->
  (forall k f, index = Z.of_nat k -> Bin.freeRects self !! k = Some f ->
     lexLt (key g r0) (key f rotated)) ->
  firstBest self rect key (S (rank i r0)) (Z.of_nat i) r0.
Proof.
  intros Hbest Hg Hadm Hbeats. right. exists i, g. split; [reflexivity|].
  split; [lia|]. split; [exact Hg|]. split; [exact Hadm|].
  intros j rot g' Hj Hg' Hadm'.
  apply rank_lt_succ in Hj as [Hj | [-> ->]].
  - destruct Hbest as [[_ Hnone] | (k & f & -> & Hk & Hf & Had & Hmin)].
    + by destruct (Hnone j rot g' Hj Hg').
    + destruct (Hmin j rot g' Hj Hg' Hadm') as [Hle _].
      assert (lexLt (key g r0) (key g' rot))
        by (eapply lexLt_le_trans; [by eapply Hbeats | exact Hle]).
      split; [by apply lexLt_lexLe | auto].
  - rewrite Hg in Hg'. injection Hg' as <-.
    split; [apply lexLe_refl | lia].
Qed.

(** The outcome of a whole scan, from what it knows at its end. *)
Lemma candidate_best (score : Rect.t -> bool -> Score * Score)
    (index : Z) (rotated : bool) (s1 s2 : Score) :
  firstBest self rect key (allTrials self) index rotated ->
  (forall k f, index = Z.of_nat k -> Bin.freeRects self !! k = Some f ->
     s1 = (score f rotated).1 /\ s2 = (score f rotated).2) ->
  bestCandidate self rect key score
    (MaxSpaceBin.candidate self rect index rotated s1 s2).
Proof.
  intros [[-> Hnone] | (k & f & -> & Hmin)] Hscore.
  - left. split; [reflexivity|]. intros rot g Hg.
    apply list_elem_of_lookup_1 in Hg as [j Hj].
    apply (Hnone j rot g); [|exact Hj].
    apply lookup_lt_Some in Hj. unfold allTrials, rank. destruct rot; lia.
  - right. pose proof Hmin as (Hk & Hf & Had & _).
    destruct (Hscore k f eq_refl Hf) as [-> ->].
    unfold MaxSpaceBin.candidate.
    replace (Z.of_nat k =? -1) with false by (symmetry; apply Z.eqb_neq; lia).
    rewrite Nat2Z.id, Hf.
    eexists _, k, rotated, f. split; [reflexivity|].
    split; [exact Hmin|]. split; [|split; reflexivity].
    unfold placedAt. destruct rotated; repeat split.
Qed.

End Trials.

Lemma rank_next (i : nat) :
  rank i true = S (rank i false) /\ rank (S i) false = S (rank i true).
Proof. unfold rank. lia. Qed.

Lemma firstBest_index (self : Bin.t) (rect : Rect.t)
    (key : Rect.t -> bool -> Z * Z) (m : nat) (index : Z) (rotated : bool) :
  firstBest self rect key m index rotated ->
  index = -1
  \/ exists k f, index = Z.of_nat k /\ Bin.freeRects self !! k = Some f.
Proof.
  intros [[-> _] | (k & f & -> & _ & Hf & _)]; [by left|].
  right. by exists k, f.
Qed.

(** *** BestAreaFit *)

Lemma areaBetter_lexLt (w s wb sb : Z) (st : MaxSpaceBin.AreaBest) :
  MaxSpaceBin.bestWastedArea st = Fin wb ->
  MaxSpaceBin.bestShortSide st = Fin sb ->
  MaxSpaceBin.areaBetter w s st = true <-> lexLt (w, s) (wb, sb).
Proof.
  intros E1 E2. unfold MaxSpaceBin.areaBetter, lexLt. rewrite E1, E2. simpl.
  zbool_goal; simpl; lia.
Qed.

Lemma areaStep (self : Bin.t) (rect : Rect.t) (i : nat) (r0 : bool)
    (g : Rect.t) (st : MaxSpaceBin.AreaBest) (b : bool) :
  Bin.freeRects self !! i = Some g ->
  (b = true <-> admits self rect r0 g) ->
  areaInv self rect (rank i r0) st ->
  areaInv self rect (S (rank i r0))
    (if b
     then if MaxSpaceBin.areaBetter (wastedArea rect g) (shortSide rect g r0) st
          then MaxSpaceBin.mkAreaBest (Fin (wastedArea rect g))
                 (Fin (shortSide rect g r0)) (Z.of_nat i) r0
          else st
     else st).
Proof.
  intros Hg Hb [Hbest [Hnone Hsome]]. destruct b.
  - assert (Hadm : admits self rect r0 g) by by apply Hb.
    destruct (MaxSpaceBin.areaBetter _ _ st) eqn:Ebetter.
    + split.
      * eapply firstBest_take; [exact Hbest | exact Hg | exact Hadm |].
        intros k f Ek Hf. destruct (Hsome k f Ek Hf) as [E1 E2].
        by apply (areaBetter_lexLt _ _ _ _ st E1 E2).
      * split; simpl; [lia|]. intros k f Ek Hf. apply Nat2Z.inj in Ek.
        subst k. rewrite Hg in Hf. by injection Hf as <-.
    + destruct (firstBest_index _ _ _ _ _ _ Hbest) as [E | (k & f & Ek & Hf)].
      * destruct (Hnone E) as [E1 _].
        unfold MaxSpaceBin.areaBetter in Ebetter. rewrite E1 in Ebetter.
        discriminate.
      * destruct (Hsome k f Ek Hf) as [E1 E2]. split; [|by split].
        rewrite Ek in *. eapply firstBest_keep; [exact Hbest | exact Hg | exact Hf |].
        intros Hlt. apply (areaBetter_lexLt _ _ _ _ st E1 E2) in Hlt. congruence.
  - split; [|by split].
    apply firstBest_skip; [exact Hbest|]. intros g' Hg' Hadm.
    rewrite Hg in Hg'. injection Hg' as <-. apply Hb in Hadm. discriminate.
Qed.

Lemma areaBody_inv (self : Bin.t) (rect : Rect.t) (i : nat) (g : Rect.t)
    (st : MaxSpaceBin.AreaBest) :
  Bin.freeRects self !! i = Some g ->
  areaInv self rect (rank i false) st ->
  areaInv self rect (rank (S i) false) (MaxSpaceBin.areaBody self rect st i g).
Proof.
  intros Hg Hst. destruct (rank_next i) as [E1 E2]. rewrite E2.
  unfold MaxSpaceBin.areaBody. cbv zeta.
  apply (areaStep self rect i true g _ _ Hg).
  - unfold admits, fitsIn. rewrite !Z.geb_leb, !andb_true_iff, !Z.leb_le.
    destruct (Bin.canRotate self); intuition congruence.
  - rewrite E1. apply (areaStep self rect i false g _ _ Hg); [|exact Hst].
    unfold admits, fitsIn. rewrite !Z.geb_leb, !andb_true_iff, !Z.leb_le.
    intuition congruence.
Qed.

Lemma insertBestArea_best (self : Bin.t) (rect : Rect.t) :
  bestCandidate self rect (areaKey rect) (areaScore rect)
    (MaxSpaceBin.insertBestArea self rect).
Proof.
  unfold MaxSpaceBin.insertBestArea. cbv zeta.
  pose proof (for_enumerate_ind (Bin.freeRects self)
                (fun i st => areaInv self rect (rank i false) st)
                (MaxSpaceBin.areaBody self rect)
                (fun s i a Hi Hs => areaBody_inv self rect i a s Hi Hs)
                (Bin.freeRects self) 0 (MaxSpaceBin.mkAreaBest Inf Inf (-1) false)
                eq_refl) as Hloop.
  destruct Hloop as [Hbest [Hnone Hsome]].
  { split; [|split; simpl; [auto | lia]].
    left. split; [reflexivity|]. unfold rank. lia. }
  replace (rank _ false) with (allTrials self) in Hbest
    by (unfold rank, allTrials; lia).
  apply candidate_best; [exact Hbest|].
  intros k f Ek Hf. apply (Hsome k f Ek Hf).
Qed.

(** *** TouchingPerimeter *)

Lemma itemsContact_nonneg (x y width height : Z) (items : list Rect.t) :
  0 <= itemsContact x y width height items.
Proof.
  induction items as [|r items IH]; simpl; [lia|].
  unfold itemContact, overlapLength.
  repeat match goal with |- context [if ?c then _ else _] => destruct c end;
    lia.
Qed.

Lemma computeTouchingPerimeter_nonneg (self : Bin.t) (x y width height : Z) :
  0 < width -> 0 < height -> Forall positive (Bin.packedRects self) ->
  0 <= Bin.computeTouchingPerimeter self x y width height.
Proof.
  intros Hw Hh Hpacked. unfold Bin.computeTouchingPerimeter. cbv zeta.
  rewrite (touching_foldl x y width height _ Hw Hh Hpacked).
  pose proof (itemsContact_nonneg x y width height (Bin.packedRects self)).
  repeat match goal with |- context [if ?c then _ else _] => destruct c end;
    lia.
Qed.

Lemma perimeterAt_nonneg (self : Bin.t) (rect f : Rect.t) (rotated : bool) :
  positive rect -> Forall positive (Bin.packedRects self) ->
  0 <= perimeterAt self rect f rotated.
Proof.
  intros [Hw Hh] Hpacked. unfold perimeterAt.
  destruct rotated; by apply computeTouchingPerimeter_nonneg.
Qed.

Lemma perimeterStep (self : Bin.t) (rect : Rect.t) (i : nat) (r0 : bool)
    (g : Rect.t) (st : MaxSpaceBin.PerimeterBest) (b : bool) :
  0 <= perimeterAt self rect g r0 ->
  Bin.freeRects self !! i = Some g ->
  (b = true <-> admits self rect r0 g) ->
  perimeterInv self rect (rank i r0) st ->
  perimeterInv self rect (S (rank i r0))
    (if b
     then if perimeterAt self rect g r0
             >? MaxSpaceBin.largestTouchingPerimeter st
          then MaxSpaceBin.mkPerimeterBest (perimeterAt self rect g r0)
                 (Z.of_nat i) r0
          else st
     else st).
Proof.
  intros Hpos Hg Hb [Hbest [Hnone Hsome]]. destruct b.
  - assert (Hadm : admits self rect r0 g) by by apply Hb.
    destruct (_ >? _) eqn:Ebetter; zbool_hyps.
    + split.
      * eapply firstBest_take; [exact Hbest | exact Hg | exact Hadm |].
        intros k f Ek Hf. rewrite (Hsome k f Ek Hf) in Ebetter.
        unfold lexLt, perimeterKey. simpl. lia.
      * split; simpl; [lia|]. intros k f Ek Hf. apply Nat2Z.inj in Ek.
        subst k. rewrite Hg in Hf. by injection Hf as <-.
    + destruct (firstBest_index _ _ _ _ _ _ Hbest) as [E | (k & f & Ek & Hf)].
      * rewrite (Hnone E) in Ebetter. lia.
      * rewrite (Hsome k f Ek Hf) in Ebetter. split; [|by split].
        rewrite Ek in *.
        eapply firstBest_keep; [exact Hbest | exact Hg | exact Hf |].
        unfold lexLt, perimeterKey. simpl. lia.
  - split; [|by split].
    apply firstBest_skip; [exact Hbest|]. intros g' Hg' Hadm.
    rewrite Hg in Hg'. injection Hg' as <-. apply Hb in Hadm. discriminate.
Qed.

Lemma perimeterBody_inv (self : Bin.t) (rect : Rect.t) (i : nat)
    (g : Rect.t) (st : MaxSpaceBin.PerimeterBest) :
  positive rect -> Forall positive (Bin.packedRects self) ->
  Bin.freeRects self !! i = Some g ->
  perimeterInv self rect (rank i false) st ->
  perimeterInv self rect (rank (S i) false)
    (MaxSpaceBin.perimeterBody self rect st i g).
Proof.
  intros Hrect Hpacked Hg Hst. destruct (rank_next i) as [E1 E2]. rewrite E2.
  unfold MaxSpaceBin.perimeterBody. cbv zeta.
  apply (perimeterStep self rect i true g _ _
           (perimeterAt_nonneg self rect g true Hrect Hpacked) Hg).
  - unfold admits, fitsIn. rewrite !andb_true_iff, !Z.leb_le.
    destruct (Bin.canRotate self); intuition congruence.
  - rewrite E1.
    apply (perimeterStep self rect i false g _ _
             (perimeterAt_nonneg self rect g false Hrect Hpacked) Hg);
      [|exact Hst].
    unfold admits, fitsIn. rewrite !andb_true_iff, !Z.leb_le.
    intuition congruence.
Qed.

Lemma insertTouchingPerimeter_best (self : Bin.t) (rect : Rect.t) :
  positive rect -> Forall positive (Bin.packedRects self) ->
  bestCandidate self rect (perimeterKey self rect) (perimeterScore self rect)
    (MaxSpaceBin.insertTouchingPerimeter self rect).
Proof.
  intros Hrect Hpacked. unfold MaxSpaceBin.insertTouchingPerimeter. cbv zeta.
  pose proof (for_enumerate_ind (Bin.freeRects self)
                (fun i st => perimeterInv self rect (rank i false) st)
                (MaxSpaceBin.perimeterBody self rect)
                (fun s i a Hi Hs =>
                   perimeterBody_inv self rect i a s Hrect Hpacked Hi Hs)
                (Bin.freeRects self) 0
                (MaxSpaceBin.mkPerimeterBest (-1) (-1) false)
                eq_refl) as Hloop.
  destruct Hloop as [Hbest [Hnone Hsome]].
  { split; [|split; simpl; [auto | lia]].
    left. split; [reflexivity|]. unfold rank. lia. }
  replace (rank _ false) with (allTrials self) in Hbest
    by (unfold rank, allTrials; lia).
  apply candidate_best; [exact Hbest|].
  intros k f Ek Hf. rewrite (Hsome k f Ek Hf). by split.
Qed.

(** *** TopRightCornerDistance *)

Lemma cornerDistSq_nonneg (self : Bin.t) (rect f : Rect.t) :
  0 <= cornerDistSq self rect f.
Proof.
  unfold cornerDistSq, Bin.computeDistanceSq.
  apply Z.add_nonneg_nonneg; apply Z.square_nonneg.
Qed.

Lemma cornerStep (self : Bin.t) (rect : Rect.t) (i : nat)
    (g : Rect.t) (st : MaxSpaceBin.CornerBest) (b : bool) :
  Bin.freeRects self !! i = Some g ->
  (b = true <-> admits self rect false g) ->
  cornerInv self rect (rank i false) st ->
  cornerInv self rect (S (rank i false))
    (if b
     then if cornerDistSq self rect g >? MaxSpaceBin.largestDist st
          then MaxSpaceBin.mkCornerBest (cornerDistSq self rect g)
                 (Z.of_nat i) false
          else st
     else st).
Proof.
  intros Hg Hb [Hbest [Hnone Hsome]].
  pose proof (cornerDistSq_nonneg self rect g) as Hpos. destruct b.
  - assert (Hadm : admits self rect false g) by by apply Hb.
    destruct (_ >? _) eqn:Ebetter; zbool_hyps.
    + split.
      * eapply firstBest_take; [exact Hbest | exact Hg | exact Hadm |].
        intros k f Ek Hf. rewrite (Hsome k f Ek Hf) in Ebetter.
        unfold lexLt, cornerKey. simpl. lia.
      * split; simpl; [lia|]. intros k f Ek Hf. apply Nat2Z.inj in Ek.
        subst k. rewrite Hg in Hf. by injection Hf as <-.
    + destruct (firstBest_index _ _ _ _ _ _ Hbest) as [E | (k & f & Ek & Hf)].
      * rewrite (Hnone E) in Ebetter. lia.
      * rewrite (Hsome k f Ek Hf) in Ebetter. split; [|by split].
        rewrite Ek in *.
        eapply firstBest_keep; [exact Hbest | exact Hg | exact Hf |].
        unfold lexLt, cornerKey. simpl. lia.
  - split; [|by split].
    apply firstBest_skip; [exact Hbest|]. intros g' Hg' Hadm.
    rewrite Hg in Hg'. injection Hg' as <-. apply Hb in Hadm. discriminate.
Qed.

Lemma cornerBody_inv (self : Bin.t) (rect : Rect.t) (i : nat) (g : Rect.t)
    (st : MaxSpaceBin.CornerBest) :
  Bin.canRotate self = false ->
  Bin.freeRects self !! i = Some g ->
  cornerInv self rect (rank i false) st ->
  exists st',
    MaxSpaceBin.cornerBody self rect st i g = Ok st'
    /\ cornerInv self rect (rank (S i) false) st'.
Proof.
  intros Hcan Hg Hst. destruct (rank_next i) as [E1 E2]. rewrite E2, E1.
  unfold MaxSpaceBin.cornerBody. cbv zeta. rewrite Hcan. simpl andb. cbv iota.
  eexists. split; [reflexivity|].
  assert (H1 : cornerInv self rect (S (rank i false))
                 (if (Rect.width rect <=? Rect.width g)
                     && (Rect.height rect <=? Rect.height g)
                  then if cornerDistSq self rect g >? MaxSpaceBin.largestDist st
                       then MaxSpaceBin.mkCornerBest (cornerDistSq self rect g)
                              (Z.of_nat i) false
                       else st
                  else st)).
  { apply (cornerStep self rect i g st _ Hg); [|exact Hst].
    unfold admits, fitsIn. rewrite !andb_true_iff, !Z.leb_le.
    intuition congruence. }
  destruct H1 as [Hbest Hscores]. split; [|exact Hscores].
  rewrite <- E1 in Hbest |- *. apply firstBest_skip; [exact Hbest|].
  intros g' _ [_ Hrot]. specialize (Hrot eq_refl). congruence.
Qed.

Lemma insertTopRightCornerDistance_best (self : Bin.t) (rect : Rect.t) :
  Bin.canRotate self = false ->
  bestCandidate self rect (cornerKey self rect) (cornerScore self rect)
    (MaxSpaceBin.insertTopRightCornerDistance self rect).
Proof.
  intros Hcan. unfold MaxSpaceBin.insertTopRightCornerDistance.
  destruct (for_enumerate_r_ind (Bin.freeRects self)
              (fun i st => cornerInv self rect (rank i false) st)
              (MaxSpaceBin.cornerBody self rect)
              (fun s i a Hi Hs => cornerBody_inv self rect i a s Hcan Hi Hs)
              (Bin.freeRects self) 0
              (MaxSpaceBin.mkCornerBest (-1) (-1) false)
              eq_refl) as (st & -> & Hbest & Hnone & Hsome).
  { split; [|split; simpl; [auto | lia]].
    left. split; [reflexivity|]. unfold rank. lia. }
  replace (rank _ false) with (allTrials self) in Hbest
    by (unfold rank, allTrials; lia).
  cbn [mbind result_bind].
  apply candidate_best; [exact Hbest|].
  intros k f Ek Hf. rewrite (Hsome k f Ek Hf). by split.
Qed.

(** ** The turns of [pack] *)

Lemma better_scored (h : PackingHeuristic) (c1 c2 : Rect.t) (k1 k2 : Z * Z)
    (st : RBPSolution.BestBin) :
  scored h c1 k1 -> scored h c2 k2 ->
  RBPSolution.bestValue1 st = Rect.score1 c2 ->
  RBPSolution.bestValue2 st = Rect.score2 c2 ->
  RBPSolution.better c1 st = true <-> lexLt k1 k2.
Proof.
  unfold RBPSolution.better, lexLt. intros H1 H2 -> ->.
  destruct h; simpl in H1, H2.
  - destruct H1 as [-> ->], H2 as [-> ->]. simpl. zbool_goal; simpl; lia.
  - destruct H1 as (-> & -> & ?), H2 as (-> & -> & ?). simpl.
    zbool_goal; simpl; lia.
  - destruct H1 as (-> & -> & ?), H2 as (-> & -> & ?). simpl.
    zbool_goal; simpl; lia.
Qed.

Lemma scored_unique (h : PackingHeuristic) (c : Rect.t) (k1 k2 : Z * Z) :
  scored h c k1 -> scored h c k2 -> k1 = k2.
Proof.
  destruct k1 as [a1 b1], k2 as [a2 b2].
  destruct h; simpl; intros H1 H2.
  - destruct H1 as [E1 E1'], H2 as [E2 E2']. congruence.
  - destruct H1 as (E1 & _ & ->), H2 as (E2 & _ & ->). congruence.
  - destruct H1 as (E1 & _ & ->), H2 as (E2 & _ & ->).
    rewrite E1 in E2. injection E2 as E2. f_equal. lia.
Qed.

Lemma better_first (h : PackingHeuristic) (c : Rect.t) (key : Z * Z)
    (st : RBPSolution.BestBin) :
  scored h c key -> RBPSolution.bestValue1 st = Inf ->
  RBPSolution.better c st = true.
Proof.
  unfold RBPSolution.better. intros Hc ->.
  destruct h; simpl in Hc; destruct Hc as (-> & _); reflexivity.
Qed.

(** A candidate for an item of positive size in a bin of a packing: it is
    the item, upright, at the origin of a free space it fits, and it
    carries the scores of its heuristic. *)
Lemma candidate_placed (W H : Z) (b : Bin.t) (rect c : Rect.t)
    (h : PackingHeuristic) :
  packedBin W H b -> positive rect ->
  (MaxSpaceBin.evaluatePacking b rect (Some h)).2 = Ok (Some c) ->
  exists (f : Rect.t) (key : Z * Z),
    f ∈ Bin.freeRects b /\ fitsIn false rect f /\ placedAt rect f false c
    /\ scored h c key.
Proof.
  intros Hb Hrect. rewrite evaluatePacking_snd. unfold dispatch.
  assert (Hpacked : Forall positive (Bin.packedRects b)).
  { apply Forall_forall. intros p Hp. by apply (pb_packed _ _ _ Hb p Hp). }
  assert (Hbest : exists key score,
             bestCandidate b rect key score
               match h with
               | BestAreaFit => MaxSpaceBin.insertBestArea b rect
               | TouchingPerimeter => MaxSpaceBin.insertTouchingPerimeter b rect
               | TopRightCornerDistance =>
                   MaxSpaceBin.insertTopRightCornerDistance b rect
               end
             /\ forall f rot c, Rect.score1 c = (score f rot).1 ->
                  Rect.score2 c = (score f rot).2 -> exists key, scored h c key).
  { destruct h.
    - exists (areaKey rect), (areaScore rect).
      split; [apply insertBestArea_best|].
      intros f rot c' E1 E2. by exists (wastedArea rect f, shortSide rect f rot).
    - exists (perimeterKey b rect), (perimeterScore b rect).
      split; [by apply insertTouchingPerimeter_best|].
      intros f rot c' E1 E2. by exists (- perimeterAt b rect f rot, 0).
    - exists (cornerKey b rect), (cornerScore b rect).
      split; [apply insertTopRightCornerDistance_best, (pb_canRotate _ _ _ Hb)|].
      intros f rot c' E1 E2. exists (- cornerDistSq b rect f, 0).
      simpl. rewrite Z.opp_involutive. auto. }
  destruct Hbest as (key & score & Hbest & Hscored).
  intros E. rewrite E in Hbest.
  destruct Hbest as [[? _] | (c' & k & rot & f & Ec & Hmin & Hpl & E1 & E2)];
    [discriminate|].
  injection Ec as <-. destruct Hmin as (_ & Hf & [Hfit Hrot] & _).
  assert (rot = false) as ->.
  { destruct rot; [|reflexivity].
    rewrite (pb_canRotate _ _ _ Hb) in Hrot. by specialize (Hrot eq_refl). }
  destruct (Hscored f false c E1 E2) as (key' & Hkey).
  exists f, key'. split; [by eapply list_elem_of_lookup_2|]. auto.
Qed.

Lemma removePackingInfo_idempotent (r : Rect.t) :
  Rect.removePackingInfo (Rect.removePackingInfo r) = Rect.removePackingInfo r.
Proof. reflexivity. Qed.

Lemma removePackingInfo_positive (r : Rect.t) :
  positive r -> positive (Rect.removePackingInfo r).
Proof. intros H. exact H. Qed.

(** One more bin visited. *)
Lemma updateBest_inv (W H : Z) (h : PackingHeuristic) (all : list Bin.t)
    (rect : Rect.t) (k : nat) (b : Bin.t) (o : option Rect.t)
    (st : RBPSolution.BestBin) :
  packedBin W H b -> positive rect -> all !! k = Some b ->
  (MaxSpaceBin.evaluatePacking b rect (Some h)).2 = Ok o ->
  bestBinInv h all rect k st ->
  bestBinInv h all rect (S k) (updateBest k o st).
Proof.
  intros Hb Hrect Hk Ho Hst. unfold updateBest. destruct o as [c|].
  - destruct (candidate_placed W H b rect c h Hb Hrect Ho)
      as (_ & key & _ & _ & _ & Hkey).
    destruct Hst as [(Enone & E1 & E2 & Hnone)
                    | (k0 & c0 & Ebest & E1 & E2 & Hamong)].
    + rewrite (better_first h c key st Hkey E1).
      right. exists k, c. simpl. repeat split.
      exists b, key. split; [lia|]. split; [exact Hk|].
      split; [exact Ho|]. split; [exact Hkey|].
      intros j b' c' key' Hj Hb' Hc' Hkey'.
      destruct (decide (j = k)) as [->|Hne].
      * rewrite Hk in Hb'. injection Hb' as <-. rewrite Ho in Hc'.
        injection Hc' as <-. rewrite (scored_unique h c key' key Hkey' Hkey).
        split; [apply lexLe_refl | lia].
      * rewrite (Hnone j b') in Hc' by (lia || assumption). discriminate.
    + destruct Hamong as (b0 & key0 & Hk0 & Hb0 & Hc0 & Hkey0 & Hmin).
      pose proof (better_scored h c c0 key key0 st Hkey Hkey0 E1 E2) as Hbetter.
      destruct (RBPSolution.better c st).
      * assert (Hlt : lexLt key key0) by by apply Hbetter.
        right. exists k, c. simpl. repeat split.
        exists b, key. split; [lia|]. split; [exact Hk|].
        split; [exact Ho|]. split; [exact Hkey|].
        intros j b' c' key' Hj Hb' Hc' Hkey'.
        destruct (decide (j = k)) as [->|Hne].
        -- rewrite Hk in Hb'. injection Hb' as <-. rewrite Ho in Hc'.
           injection Hc' as <-. rewrite (scored_unique h c key' key Hkey' Hkey).
           split; [apply lexLe_refl | lia].
        -- destruct (Hmin j b' c' key') as [Hle _]; try (assumption || lia).
           assert (lexLt key key') by (eapply lexLt_le_trans; eassumption).
           split; [by apply lexLt_lexLe | auto].
      * assert (Hge : lexLe key0 key).
        { destruct (decide (lexLt key key0)) as [Hlt|Hnlt].
          - apply Hbetter in Hlt. discriminate.
          - unfold lexLt, lexLe in *. lia. }
        right. exists k0, c0. repeat split; try assumption.
        exists b0, key0. split; [lia|]. split; [exact Hb0|].
        split; [exact Hc0|]. split; [exact Hkey0|].
        intros j b' c' key' Hj Hb' Hc' Hkey'.
        destruct (decide (j = k)) as [->|Hne].
        -- rewrite Hk in Hb'. injection Hb' as <-. rewrite Ho in Hc'.
           injection Hc' as <-. rewrite (scored_unique h c key' key Hkey' Hkey).
           split; [exact Hge | lia].
        -- apply (Hmin j b' c' key'); (assumption || lia).
  - destruct Hst as [(Enone & E1 & E2 & Hnone)
                    | (k0 & c0 & Ebest & E1 & E2 & Hamong)].
    + left. repeat split; try assumption. intros j b' Hj Hb'.
      destruct (decide (j = k)) as [->|Hne].
      * rewrite Hk in Hb'. by injection Hb' as <-.
      * apply (Hnone j b'); (assumption || lia).
    + destruct Hamong as (b0 & key0 & Hk0 & Hb0 & Hc0 & Hkey0 & Hmin).
      right. exists k0, c0. repeat split; try assumption.
      exists b0, key0. split; [lia|]. split; [exact Hb0|].
      split; [exact Hc0|]. split; [exact Hkey0|].
      intros j b' c' key' Hj Hb' Hc' Hkey'.
      destruct (decide (j = k)) as [->|Hne].
      * rewrite Hk in Hb'. injection Hb' as <-. rewrite Ho in Hc'.
        discriminate.
      * apply (Hmin j b' c' key'); (assumption || lia).
Qed.

(** The loop over the bins returns, records the heuristic in every bin,
    and ends with the best bin among those it visited. *)
Lemma chooseBin_best (W H : Z) (h : PackingHeuristic) (all : list Bin.t)
    (rect : Rect.t) :
  positive rect ->
  forall (bins : list Bin.t) (k : nat) (st : RBPSolution.BestBin)
    (cur : Rect.t),
    Rect.removePackingInfo cur = rect ->
    Forall (packedBin W H) bins -> drop k all = bins ->
    bestBinInv h all rect k st ->
    exists st',
      RBPSolution.chooseBin (Some h) cur k bins st
      = Ok ((fun b => remembered b (Some h)) <$> bins, st')
      /\ bestBinInv h all rect (k + length bins) st'.
Proof.
  intros Hrect.
  induction bins as [|b bins IH]; intros k st cur Ecur Hbins Hdrop Hst.
  - exists st. simpl. rewrite Nat.add_0_r. auto.
  - apply drop_cons_lookup in Hdrop as [Hk Hdrop].
    apply Forall_cons in Hbins as [Hb Hbins].
    rewrite chooseBin_cons. cbv zeta. rewrite Ecur.
    destruct (evaluatePacking_returns W H b rect h Hb) as (o & Ho).
    rewrite Ho. cbn [mbind result_bind].
    pose proof (updateBest_inv W H h all rect k b o st Hb Hrect Hk Ho Hst)
      as Hst1.
    destruct (IH (S k) (updateBest k o st) rect) as (st' & -> & Hst');
      try assumption.
    { subst rect. apply removePackingInfo_idempotent. }
    cbn [mbind result_bind]. exists st'. split; [reflexivity|].
    simpl length. by rewrite <- Nat.add_succ_comm.
Qed.

Lemma openNewBin_fresh (self : RBPSolution.t) :
  RBPSolution.openNewBin self
  = freshBin (RBPSolution.binWidth self) (RBPSolution.binHeight self).
Proof. reflexivity. Qed.

Lemma freshBin_packedBin (W H : Z) : packedBin W H (freshBin W H).
Proof. apply (openNewBin_packedBin (RBPSolution.new W H)). Qed.

(** [insert] of a candidate that carries its position. *)
Lemma insert_placed (W H : Z) (b : Bin.t) (c : Rect.t)
    (heur : option PackingHeuristic) :
  0 < W -> 0 < H -> packedBin W H b -> positive c ->
  Rect.width c <= W -> Rect.height c <= H ->
  Rect.isReadyForPacking c = true ->
  MaxSpaceBin.insert b c heur = (committed b c, Ok true).
Proof.
  intros HW HH Hb Hc Hw Hh Hready. unfold MaxSpaceBin.insert.
  rewrite Hready. simpl negb. cbv iota.
  by rewrite (insert_commit W H b c).
Qed.

(** [insert] of an item that carries none. *)
Lemma insert_unplaced (W H : Z) (b : Bin.t) (rect : Rect.t)
    (h : PackingHeuristic) (o : option Rect.t) :
  0 < W -> 0 < H -> packedBin W H b -> positive rect ->
  Rect.isReadyForPacking rect = false ->
  (MaxSpaceBin.evaluatePacking b rect (Some h)).2 = Ok o ->
  MaxSpaceBin.insert b rect (Some h)
  = match o with
    | Some c => (committed (remembered b (Some h)) c, Ok true)
    | None => (remembered b (Some h), Ok false)
    end.
Proof.
  intros HW HH Hb Hrect Hready Ho. unfold MaxSpaceBin.insert.
  rewrite Hready. simpl negb. cbv iota.
  pose proof (evaluatePacking_fst b rect (Some h)) as Hfst.
  destruct o as [c|].
  - destruct (evaluated_fits W H b rect c h Hb Ho) as (Ew & Eh & Hw & Hh & _).
    destruct (MaxSpaceBin.evaluatePacking b rect (Some h)) as [b1 r1].
    simpl in Ho, Hfst. subst b1 r1.
    rewrite (insert_commit W H _ c); try assumption; [reflexivity| |].
    + by apply remembered_packedBin.
    + destruct Hrect. unfold positive. lia.
  - destruct (MaxSpaceBin.evaluatePacking b rect (Some h)) as [b1 r1].
    simpl in Ho, Hfst. by subst b1 r1.
Qed.

(** One turn of the loop of [pack]. *)
Lemma packOne_turn (W H : Z) (self : RBPSolution.t) (h : PackingHeuristic)
    (bins : list Bin.t) (cur : Rect.t) :
  0 < W -> 0 < H ->
  RBPSolution.binWidth self = W -> RBPSolution.binHeight self = H ->
  Forall (packedBin W H) bins -> bins <> [] -> positive cur ->
  exists bins',
    RBPSolution.packOne self (Some h) bins cur
    = Ok (bins', Rect.removePackingInfo cur)
    /\ turn W H h bins cur bins'.
Proof.
  intros HW HH EW EH Hbins Hne Hcur. unfold RBPSolution.packOne.
  destruct (chooseBin_best W H h bins (Rect.removePackingInfo cur) Hcur bins 0
              (RBPSolution.mkBestBin Inf Inf None) cur eq_refl Hbins eq_refl)
    as (st & -> & Hst).
  { left. repeat split. intros j b Hj. lia. }
  cbn [mbind result_bind]. simpl plus in Hst.
  assert (Ecur : match bins with
                 | [] => cur
                 | _ :: _ => Rect.removePackingInfo cur
                 end = Rect.removePackingInfo cur).
  { destruct bins; [congruence | reflexivity]. }
  rewrite Ecur. clear Ecur.
  rewrite openNewBin_fresh, EW, EH.
  destruct Hst as [(-> & _ & _ & Hnone) | (k & c & -> & _ & _ & Hamong)].
  - assert (Hall : forall b, b ∈ bins ->
              (MaxSpaceBin.evaluatePacking b (Rect.removePackingInfo cur)
                 (Some h)).2 = Ok None).
    { intros b Hb. apply list_elem_of_lookup_1 in Hb as [j Hj].
      apply (Hnone j b); [|exact Hj]. by eapply lookup_lt_Some. }
    destruct (evaluatePacking_returns W H (freshBin W H)
                (Rect.removePackingInfo cur) h (freshBin_packedBin W H))
      as (o & Ho).
    rewrite (insert_unplaced W H (freshBin W H) (Rect.removePackingInfo cur) h o
               HW HH (freshBin_packedBin W H) Hcur eq_refl Ho).
    destruct o as [c|]; cbn [mbind result_bind];
      (eexists; split; [reflexivity|]); right; (split; [exact Hall|]).
    + left. by exists c.
    + by right.
  - pose proof Hamong as (b & key & Hk & Hb & Hc & _).
    rewrite list_lookup_fmap, Hb. simpl.
    assert (Hpb : packedBin W H b).
    { rewrite Forall_forall in Hbins. apply Hbins.
      by eapply list_elem_of_lookup_2. }
    destruct (evaluated_fits W H b _ c h Hpb Hc) as (Ew & Eh & Hw & Hh & Hready).
    rewrite (insert_placed W H (remembered b (Some h)) c (Some h));
      try assumption.
    + cbn [mbind result_bind]. eexists. split; [reflexivity|].
      left. exists k, b, c. auto.
    + by apply remembered_packedBin.
    + destruct Hcur. simpl in Ew, Eh. unfold positive. lia.
Qed.


(** *** [pack], unfolded *)






(** ** Feasible bins *)

Lemma interiors_intersect_sym (a b : Rect.t) :
  interiors_intersect a b -> interiors_intersect b a.
Proof. intros (px & py & Ha & Hb). by exists px, py. Qed.

Lemma Rect_isOverlapping_interiors (a b : Rect.t) :
  positive a -> positive b ->
  Rect.isOverlapping a b = true <-> interiors_intersect a b.
Proof.
  intros Ha Hb. rewrite (Rect_isOverlapping_true a b Ha Hb).
  rewrite interiors_intersect_iff. unfold positive in *. lia.
Qed.

Lemma apart_cons (r : Rect.t) (rest : list Rect.t) :
  apart (r :: rest)
  <-> (forall q, q ∈ rest -> ~ interiors_intersect r q) /\ apart rest.
Proof.
  split.
  - intros Hap. split.
    + intros q Hq. apply list_elem_of_lookup_1 in Hq as [j Hj].
      apply (Hap 0%nat (S j) r q); [lia | reflexivity | exact Hj].
    + intros i j p q Hne Hi Hj. apply (Hap (S i) (S j) p q); [lia | | ]; assumption.
  - intros [Hr Hap] i j p q Hne Hi Hj.
    destruct i as [|i], j as [|j]; simpl in Hi, Hj.
    + lia.
    + injection Hi as <-. apply Hr. by eapply list_elem_of_lookup_2.
    + injection Hj as <-. intros Hint. apply interiors_intersect_sym in Hint.
      revert Hint. apply Hr. by eapply list_elem_of_lookup_2.
    + apply (Hap i j p q); [lia | | ]; assumption.
Qed.

Lemma apart_snoc (rects : list Rect.t) (c : Rect.t) :
  apart rects -> (forall p, p ∈ rects -> ~ interiors_intersect p c) ->
  apart (rects ++ [c]).
Proof.
  intros Hap Hc i j p q Hne Hi Hj.
  apply lookup_app_Some in Hi as [Hi | [Hi Hi']];
    apply lookup_app_Some in Hj as [Hj | [Hj Hj']].
  - by apply (Hap i j p q).
  - apply list_lookup_singleton_Some in Hj' as [_ <-].
    apply Hc. by eapply list_elem_of_lookup_2.
  - apply list_lookup_singleton_Some in Hi' as [_ <-].
    intros Hint. apply interiors_intersect_sym in Hint. revert Hint.
    apply Hc. by eapply list_elem_of_lookup_2.
  - apply list_lookup_singleton_Some in Hi' as [Hi' _].
    apply list_lookup_singleton_Some in Hj' as [Hj' _]. lia.
Qed.

Lemma noneOverlapping_true (r : Rect.t) (rest : list Rect.t) :
  positive r -> Forall positive rest ->
  Bin.noneOverlapping r rest = true
  <-> forall q, q ∈ rest -> ~ interiors_intersect r q.
Proof.
  intros Hr. unfold Bin.noneOverlapping.
  induction 1 as [|q rest Hq _ IH]; simpl.
  - split; [|reflexivity]. intros _ q Hq. by apply elem_of_nil in Hq.
  - rewrite andb_true_iff, IH, negb_true_iff. split.
    + intros [Hov Hrest] q' Hq'. apply elem_of_cons in Hq' as [-> | Hq'].
      * rewrite <- (Rect_isOverlapping_interiors r q Hr Hq). congruence.
      * by apply Hrest.
    + intros Hall. split.
      * apply not_true_is_false.
        rewrite (Rect_isOverlapping_interiors r q Hr Hq).
        apply Hall. left.
      * intros q' Hq'. apply Hall. by right.
Qed.

Lemma isFeasible_loop_true (self : Bin.t) (rects : list Rect.t) :
  Forall positive rects ->
  Bin.isFeasible_loop self rects = true
  <-> (forall p, p ∈ rects -> insideBin self p) /\ apart rects.
Proof.
  induction 1 as [|r rects Hr Hrects IH]; simpl.
  - split; [|reflexivity]. intros _. split.
    + intros p Hp. by apply elem_of_nil in Hp.
    + intros i j p q _ Hi. by rewrite lookup_nil in Hi.
  - rewrite apart_cons, <- (noneOverlapping_true r rects Hr Hrects).
    destruct Hr as [Hw Hh]. unfold insideBin.
    destruct (Bin.noneOverlapping r rects).
    + simpl negb. cbv iota. split.
      * intros Hfeas.
        destruct (_ || _) eqn:E1; [discriminate|].
        destruct (_ || _) eqn:E2 in Hfeas; [discriminate|].
        destruct (_ || _) eqn:E3 in Hfeas; [discriminate|].
        apply IH in Hfeas as [Hin Hap]. zbool_hyps.
        split; [|by split]. intros p Hp.
        apply elem_of_cons in Hp as [-> | Hp]; [lia | by apply Hin].
      * intros [Hin [_ Hap]].
        pose proof (Hin r (list_elem_of_here r rects)) as (? & ? & ? & ?).
        replace (Rect.x r <? 0) with false by (symmetry; apply Z.ltb_ge; lia).
        replace (Rect.x r >? Bin.binWidth self) with false
          by (symmetry; rewrite Z.gtb_ltb; apply Z.ltb_ge; lia).
        replace (Rect.y r <? 0) with false by (symmetry; apply Z.ltb_ge; lia).
        replace (Rect.y r >? Bin.binHeight self) with false
          by (symmetry; rewrite Z.gtb_ltb; apply Z.ltb_ge; lia).
        replace (Rect.x r + Rect.width r >? Bin.binWidth self) with false
          by (symmetry; rewrite Z.gtb_ltb; apply Z.ltb_ge; lia).
        replace (Rect.y r + Rect.height r >? Bin.binHeight self) with false
          by (symmetry; rewrite Z.gtb_ltb; apply Z.ltb_ge; lia).
        simpl. apply IH. split; [|exact Hap].
        intros p Hp. apply Hin. by right.
    + simpl negb. cbv iota. split.
      * intros Hfeas. repeat destruct (_ || _) in Hfeas; discriminate.
      * intros [_ [Hnone _]]. discriminate.
Qed.










(** ** Areas of placed items *)

Lemma sumZ_ext_in {A : Type} (f g : A -> Z) (l : list A) :
  (forall a, a ∈ l -> f a = g a) -> sumZ f l = sumZ g l.
Proof.
  intros H. induction l as [|a l IH]; simpl; [reflexivity|].
  rewrite (H a) by left. rewrite IH; [reflexivity|].
  intros b Hb. apply H. by right.
Qed.

Lemma span_count_eq (s len : Z) (n : nat) :
  sumZ (fun c => ind (inSpan s len c)) (seqZ 0 (Z.of_nat n))
  = Z.max 0 (Z.min (s + len) (Z.of_nat n) - Z.max s 0).
Proof.
  induction n as [|n IH].
  - simpl. lia.
  - rewrite seqZ_S, sumZ_app. simpl sumZ. unfold inSpan at 2, ind at 2.
    zbool_goal; lia.
Qed.

Lemma span_count_inside (s len W : Z) :
  0 <= s -> 0 <= len -> s + len <= W ->
  sumZ (fun c => ind (inSpan s len c)) (seqZ 0 W) = len.
Proof.
  intros Hs Hlen HW. pose proof (span_count_eq s len (Z.to_nat W)) as H.
  rewrite Z2Nat.id in H by lia. lia.
Qed.

(** A rectangle inside the bin has [width * height] cells. *)
Lemma cell_count_inside (W H : Z) (r : Rect.t) :
  0 <= Rect.x r -> 0 <= Rect.y r ->
  Rect.x r + Rect.width r <= W -> Rect.y r + Rect.height r <= H ->
  0 <= Rect.width r -> 0 <= Rect.height r ->
  sumZ (fun c => ind (cellIn r c)) (grid W H)
  = Rect.width r * Rect.height r.
Proof.
  intros Hx Hy HxW HyH Hw Hh. unfold grid. rewrite sumZ_bind.
  rewrite (sumZ_ext _
    (fun cx => sumZ (fun cy => ind (inSpan (Rect.y r) (Rect.height r) cy))
                 (seqZ 0 H)
               * ind (inSpan (Rect.x r) (Rect.width r) cx))).
  - rewrite sumZ_scale.
    rewrite (span_count_inside (Rect.x r) (Rect.width r) W) by assumption.
    rewrite (span_count_inside (Rect.y r) (Rect.height r) H) by assumption.
    lia.
  - intros cx. rewrite sumZ_fmap, Z.mul_comm, <- sumZ_scale.
    apply sumZ_ext. intros cy. unfold cellIn, ind. simpl.
    destruct (inSpan (Rect.x r) (Rect.width r) cx),
      (inSpan (Rect.y r) (Rect.height r) cy); reflexivity.
Qed.

Lemma shared_cell (p q : Rect.t) (c : Z * Z) :
  cellIn p c = true -> cellIn q c = true -> interiors_intersect p q.
Proof.
  destruct c as [cx cy]. rewrite !cellIn_true, interiors_intersect_iff. lia.
Qed.

(** A cell lies in at most one of rectangles that are apart. *)
Lemma apart_count (ps : list Rect.t) (c : Z * Z) :
  apart ps -> 0 <= sumZ (fun p => ind (cellIn p c)) ps <= 1.
Proof.
  induction ps as [|p ps IH]; intros Hap; simpl; [lia|].
  apply apart_cons in Hap as [Hp Hap]. specialize (IH Hap).
  destruct (cellIn p c) eqn:Ep; simpl; [|lia].
  rewrite (sumZ_ext_in _ (fun _ => 0)).
  - rewrite sumZ_const. lia.
  - intros q Hq. destruct (cellIn q c) eqn:Eq; [|reflexivity].
    destruct (Hp q Hq). by apply (shared_cell p q c).
Qed.

(** Rectangles placed inside the bin and apart from each other have a
    total area of at most the area of the bin. *)
Lemma placed_area (W H : Z) (ps : list Rect.t) :
  0 <= W -> 0 <= H ->
  (forall p, p ∈ ps ->
     0 <= Rect.x p /\ 0 <= Rect.y p /\ Rect.x p + Rect.width p <= W
     /\ Rect.y p + Rect.height p <= H
     /\ 0 <= Rect.width p /\ 0 <= Rect.height p) ->
  apart ps ->
  sumAreas ps <= W * H.
Proof.
  intros HW HH Hin Hap. rewrite sumAreas_sumZ.
  rewrite <- (length_grid W H) by assumption.
  rewrite (sumZ_ext_in _ (fun p => sumZ (fun c => ind (cellIn p c)) (grid W H))).
  - rewrite sumZ_swap.
    transitivity (sumZ (fun _ : Z * Z => 1) (grid W H)).
    + apply sumZ_le. intros c _. by apply apart_count.
    + rewrite sumZ_const. lia.
  - intros p Hp. destruct (Hin p Hp) as (? & ? & ? & ? & ? & ?).
    symmetry. by apply cell_count_inside.
Qed.


(** ** The solutions [pack] builds *)




(** X2.  For a bin whose items have positive sizes, [Bin.isFeasible] returns
    [True] exactly when every item lies inside the bin and no two items
    have interior points in common. *)
Theorem Bin_isFeasible_iff_inside_and_apart (b : Bin.t) :
  Forall positive (Bin.packedRects b) ->
  Bin.isFeasible b = true
  <-> (forall p, p ∈ Bin.packedRects b -> insideBin b p)
      /\ apart (Bin.packedRects b).
Proof. intros Hpos. by apply isFeasible_loop_true. Qed.

Lemma Bin_isFeasible_iff_inside_and_apart_witness :
  let b :=
    Bin.packRect
      (Bin.packRect (MaxSpaceBin.init (MaxSpaceBin.new 10 10))
         (Rect.set_y (Rect.set_x (Rect.new 6 4) 0) 0))
      (Rect.set_y (Rect.set_x (Rect.new 4 6) 6) 0) in
  Bin.isFeasible b = true
  <-> (forall p, p ∈ Bin.packedRects b -> insideBin b p)
      /\ apart (Bin.packedRects b).
Proof.
  intros b. apply (Bin_isFeasible_iff_inside_and_apart b).
  repeat constructor; simpl; lia.
Defined.

(** ** The three heuristics pick the best free space *)

Lemma bestCandidate_explicit (self : Bin.t) (rect : Rect.t)
    (key : Rect.t -> bool -> Z * Z) (score : Rect.t -> bool -> Score * Score)
    (r : result (option Rect.t)) :
  bestCandidate self rect key score r ->
  (r = Ok None
   /\ forall rot g, g ∈ Bin.freeRects self -> ~ admits self rect rot g)
  \/ exists (c : Rect.t) (k : nat) (rotated : bool) (f : Rect.t),
       r = Ok (Some c)
       /\ Bin.freeRects self !! k = Some f /\ admits self rect rotated f
       /\ placedAt rect f rotated c
       /\ Rect.score1 c = (score f rotated).1
       /\ Rect.score2 c = (score f rotated).2
       /\ forall j rot g,
            Bin.freeRects self !! j = Some g -> admits self rect rot g ->
            lexLe (key f rotated) (key g rot)
            /\ ((rank j rot < rank k rotated)%nat ->
                lexLt (key f rotated) (key g rot)).
Proof.
  intros [H | (c & k & rotated & f & E & (_ & Hf & Had & Hmin) & Hpl & E1 & E2)];
    [by left|].
  right. exists c, k, rotated, f. repeat (split; [assumption|]).
  intros j rot g Hg Hadm. apply (Hmin j rot g); [|assumption..].
  apply lookup_lt_Some in Hg. unfold allTrials, rank. destruct rot; lia.
Qed.

(** X3.  BestAreaFit.  [insertBestArea] never raises.  It returns [None]
    exactly when the item fits no free space, upright or (in a bin that
    rotates) turned.  Otherwise it returns the item placed at the origin
    of a free space it fits, with the wasted area and the shorter leftover
    side of that placement as scores; no other placement has a smaller
    wasted area, or the same wasted area and a smaller short side, and
    every placement tried before it is strictly worse. *)
Theorem insertBestArea_takes_least_wasted_area (self : Bin.t)
    (rect : Rect.t) :
  MaxSpaceBin.insertBestArea self rect
  = (MaxSpaceBin.evaluatePacking self rect (Some BestAreaFit)).2
  /\ ((MaxSpaceBin.insertBestArea self rect = Ok None
       /\ forall rot g, g ∈ Bin.freeRects self -> ~ admits self rect rot g)
      \/ exists (c : Rect.t) (k : nat) (rotated : bool) (f : Rect.t),
           MaxSpaceBin.insertBestArea self rect = Ok (Some c)
           /\ Bin.freeRects self !! k = Some f /\ admits self rect rotated f
           /\ placedAt rect f rotated c
           /\ Rect.score1 c = Fin (wastedArea rect f)
           /\ Rect.score2 c = Fin (shortSide rect f rotated)
           /\ forall j rot g,
                Bin.freeRects self !! j = Some g -> admits self rect rot g ->
                lexLe (wastedArea rect f, shortSide rect f rotated)
                      (wastedArea rect g, shortSide rect g rot)
                /\ ((rank j rot < rank k rotated)%nat ->
                    lexLt (wastedArea rect f, shortSide rect f rotated)
                          (wastedArea rect g, shortSide rect g rot))).
Proof.
  split; [by rewrite evaluatePacking_snd|].
  exact (bestCandidate_explicit self rect (areaKey rect) (areaScore rect) _
           (insertBestArea_best self rect)).
Qed.

(** X4.  TouchingPerimeter, for an item and packed items of positive size.
    [insertTouchingPerimeter] never raises.  It returns [None] exactly
    when the item fits no free space, upright or (in a bin that rotates)
    turned.  Otherwise it returns the item placed at the origin of a free
    space it fits, with minus the touching perimeter of that placement as
    first score; no other placement has a larger touching perimeter, and
    every placement tried before it has a smaller one. *)
Theorem insertTouchingPerimeter_takes_largest_perimeter (self : Bin.t)
    (rect : Rect.t) :
  positive rect -> Forall positive (Bin.packedRects self) ->
  MaxSpaceBin.insertTouchingPerimeter self rect
  = (MaxSpaceBin.evaluatePacking self rect (Some TouchingPerimeter)).2
  /\ ((MaxSpaceBin.insertTouchingPerimeter self rect = Ok None
       /\ forall rot g, g ∈ Bin.freeRects self -> ~ admits self rect rot g)
      \/ exists (c : Rect.t) (k : nat) (rotated : bool) (f : Rect.t),
           MaxSpaceBin.insertTouchingPerimeter self rect = Ok (Some c)
           /\ Bin.freeRects self !! k = Some f /\ admits self rect rotated f
           /\ placedAt rect f rotated c
           /\ Rect.score1 c = Fin (- perimeterAt self rect f rotated)
           /\ Rect.score2 c = Inf
           /\ forall j rot g,
                Bin.freeRects self !! j = Some g -> admits self rect rot g ->
                perimeterAt self rect g rot <= perimeterAt self rect f rotated
                /\ ((rank j rot < rank k rotated)%nat ->
                    perimeterAt self rect g rot
                    < perimeterAt self rect f rotated)).
Proof.
  intros Hrect Hpacked. split; [by rewrite evaluatePacking_snd|].
  destruct (bestCandidate_explicit self rect _ _ _
              (insertTouchingPerimeter_best self rect Hrect Hpacked))
    as [H | (c & k & rotated & f & E & Hf & Had & Hpl & E1 & E2 & Hmin)];
    [by left|].
  right. exists c, k, rotated, f. repeat (split; [assumption|]).
  intros j rot g Hg Hadm. destruct (Hmin j rot g Hg Hadm) as [Hle Hlt].
  unfold lexLe, lexLt, perimeterKey in Hle, Hlt. simpl in Hle, Hlt. lia.
Qed.

Lemma insertTouchingPerimeter_takes_largest_perimeter_witness :
  let self :=
    (MaxSpaceBin.insert (MaxSpaceBin.setup (MaxSpaceBin.new 10 10))
       (Rect.new 6 4) (Some TouchingPerimeter)).1 in
  let rect := Rect.new 4 6 in
  MaxSpaceBin.insertTouchingPerimeter self rect
  = (MaxSpaceBin.evaluatePacking self rect (Some TouchingPerimeter)).2
  /\ ((MaxSpaceBin.insertTouchingPerimeter self rect = Ok None
       /\ forall rot g, g ∈ Bin.freeRects self -> ~ admits self rect rot g)
      \/ exists (c : Rect.t) (k : nat) (rotated : bool) (f : Rect.t),
           MaxSpaceBin.insertTouchingPerimeter self rect = Ok (Some c)
           /\ Bin.freeRects self !! k = Some f /\ admits self rect rotated f
           /\ placedAt rect f rotated c
           /\ Rect.score1 c = Fin (- perimeterAt self rect f rotated)
           /\ Rect.score2 c = Inf
           /\ forall j rot g,
                Bin.freeRects self !! j = Some g -> admits self rect rot g ->
                perimeterAt self rect g rot <= perimeterAt self rect f rotated
                /\ ((rank j rot < rank k rotated)%nat ->
                    perimeterAt self rect g rot
                    < perimeterAt self rect f rotated)).
Proof.
  intros self rect.
  apply (insertTouchingPerimeter_takes_largest_perimeter self rect).
  - unfold positive. simpl. lia.
  - repeat constructor; simpl; lia.
Defined.

(** *** Binary64 square roots *)

Lemma binade_int (n : Z) : 0 < n -> Float64.binade (inject_Z n) = Z.log2 n.
Proof.
  intros Hn. unfold Float64.binade. simpl Qnum. simpl Qden.
  change (Z.log2 1) with 0. rewrite Z.sub_0_r.
  assert (E : Qle_bool (Float64.pow2 (Z.log2 n)) (inject_Z n) = true).
  { apply Qle_bool_iff. rewrite pow2_Z by apply Z.log2_nonneg.
    rewrite <- Zle_Qle. apply Z.log2_spec. lia. }
  by rewrite E.
Qed.

Lemma Qred_int (n : Z) : Qred (inject_Z n) = inject_Z n.
Proof.
  unfold Qred, inject_Z.
  pose proof (Z.ggcd_gcd n 1) as Hg.
  pose proof (Z.ggcd_correct_divisors n 1) as Hd.
  destruct (Z.ggcd n 1) as [g [r1 r2]]. simpl in *.
  rewrite Z.gcd_1_r in Hg. subst g. destruct Hd as [H1 H2].
  rewrite Z.mul_1_l in H1, H2. by subst.
Qed.

Lemma of_int_id (n : Z) :
  0 <= n < 2 ^ 53 -> Float64.of_int n = Ok (inject_Z n).
Proof.
  intros Hn. destruct (of_int_exact n Hn) as (r & E & Hr). rewrite E. f_equal.
  assert (Hcanon : Qred r = r).
  { unfold Float64.of_int, Float64.ret in E.
    destruct (Qle_bool _ _); [discriminate|]. injection E as <-.
    unfold Float64.round64. destruct (Qnum (inject_Z n));
      [reflexivity | apply Qred_complete, Qred_correct..]. }
  rewrite <- Hcanon, (Qred_complete _ _ Hr). apply Qred_int.
Qed.

(** The rounded root [r] of an integer below 2^52 has its square within
    one half of the integer. *)
Lemma sqrt_int_near (n : Z) :
  0 <= n < 2 ^ 52 ->
  exists r,
    Float64.sqrt (inject_Z n) = Ok r
    /\ (0 <= r)%Q
    /\ (r * r - (1 # 2) < inject_Z n)%Q
    /\ (inject_Z n <= r * r + (1 # 2))%Q.
Proof.
  intros Hn. unfold Float64.sqrt.
  destruct n as [|p|p]; [|..]; simpl Qnum.
  - exists 0%Q. split; [reflexivity|]. repeat split; unfold Qle, Qlt; simpl; lia.
  - set (n := Z.pos p) in *. assert (Hpos : 0 < n) by lia.
    rewrite (binade_int n Hpos).
    set (e := Z.log2 n / 2). set (u := e - 52).
    assert (Hl : 0 <= Z.log2 n < 52).
    { split; [apply Z.log2_nonneg|]. apply Z.log2_lt_pow2; lia. }
    assert (He2 : 2 * e <= Z.log2 n < 2 * e + 2).
    { unfold e. pose proof (Z.mod_pos_bound (Z.log2 n) 2 ltac:(lia)).
      pose proof (Z.div_mod (Z.log2 n) 2 ltac:(lia)). lia. }
    assert (He : 0 <= e <= 25) by lia.
    set (j := 104 - 2 * e).
    assert (EN : (inject_Z n / Float64.pow2 (2 * u)
                  == inject_Z (n * 2 ^ j))%Q).
    { replace (2 * u) with (- j) by (unfold u, j; lia).
      rewrite pow2_neg by (unfold j; lia). rewrite inject_Z_mult.
      field. change 0%Q with (inject_Z 0). rewrite inject_Z_injective.
      apply Z.pow_nonzero; unfold j; lia. }
    rewrite (Qfloor_comp _ _ EN), Qfloor_Z.
    set (N := n * 2 ^ j). set (s := Z.sqrt N).
    set (m := if s <? N - s * s then s + 1 else s).
    assert (HN0 : 0 < N).
    { unfold N. apply Z.mul_pos_pos; [lia|]. apply Z.pow_pos_nonneg; unfold j; lia. }
    assert (HN : N < 2 ^ 106).
    { unfold N. destruct (Z.log2_spec n Hpos) as [_ Hup].
      assert (n < 2 ^ (2 * e + 2)).
      { eapply Z.lt_le_trans; [exact Hup|]. apply Z.pow_le_mono_r; lia. }
      replace 106 with ((2 * e + 2) + j) by (unfold j; lia).
      rewrite Z.pow_add_r by (unfold j; lia).
      apply Z.mul_lt_mono_pos_r; [apply Z.pow_pos_nonneg; unfold j; lia|lia]. }
    destruct (Z.sqrt_spec N ltac:(lia)) as [Hs1 Hs2]. fold s in Hs1, Hs2.
    assert (Hs0 : 0 <= s) by apply Z.sqrt_nonneg.
    assert (Hs53 : s < 2 ^ 53).
    { apply Z.sqrt_lt_square; [lia | lia |].
      replace (2 ^ 53 * 2 ^ 53) with (2 ^ 106) by reflexivity. exact HN. }
    assert (Hm : 0 <= m <= 2 ^ 53 /\ m * m - m < N <= m * m + m).
    { unfold m. destruct (Z.ltb_spec s (N - s * s)); split; nia. }
    destruct Hm as [Hm53 Hmn].
    eexists. split; [reflexivity|]. rewrite Qred_correct.
    set (P := Float64.pow2 u). assert (HP : (0 < P)%Q) by apply pow2_pos.
    assert (EPP : (P * P == / inject_Z (2 ^ j))%Q).
    { unfold P. rewrite <- pow2_add. replace (u + u) with (- j) by (unfold u, j; lia).
      apply pow2_neg. unfold j; lia. }
    assert (Hj0 : (0 < inject_Z (2 ^ j))%Q).
    { change 0%Q with (inject_Z 0). rewrite <- Zlt_Qlt.
      apply Z.pow_pos_nonneg; unfold j; lia. }
    assert (En : (inject_Z n == inject_Z N * (P * P))%Q).
    { rewrite EPP. unfold N. rewrite inject_Z_mult. field. lra. }
    assert (Hhalf : (inject_Z m * (P * P) <= 1 # 2)%Q).
    { rewrite EPP.
      assert (Hmj : (inject_Z m * 2 <= inject_Z (2 ^ j))%Q).
      { change 2%Q with (inject_Z 2). rewrite <- inject_Z_mult, <- Zle_Qle.
        assert (2 ^ 54 <= 2 ^ j) by (apply Z.pow_le_mono_r; unfold j; lia).
        lia. }
      change (inject_Z m / inject_Z (2 ^ j) <= 1 # 2)%Q.
      apply Qle_shift_div_r; [exact Hj0 | lra]. }
    assert (Hm0 : (0 <= inject_Z m)%Q) by (apply inject_Z_nonneg; lia).
    assert (Hup : (inject_Z N <= inject_Z m * inject_Z m + inject_Z m)%Q).
    { rewrite <- inject_Z_mult, <- inject_Z_plus, <- Zle_Qle. lia. }
    assert (Hlo : (inject_Z m * inject_Z m - inject_Z m < inject_Z N)%Q).
    { unfold Qminus. rewrite <- inject_Z_mult, <- inject_Z_opp, <- inject_Z_plus,
        <- Zlt_Qlt. lia. }
    assert (HPP : (0 < P * P)%Q) by (apply Qmult_lt_0_compat; exact HP).
    rewrite En. clear En EN EPP.
    set (M := inject_Z m) in *. set (Nq := inject_Z N) in *.
    split; [apply Qmult_le_0_compat; lra|].
    split; nra.
  - lia.
Qed.

(** Below 2^52 the rounded roots of two integers order as the integers. *)
Lemma sqrt_int_order (a b : Z) :
  0 <= a < 2 ^ 52 -> 0 <= b < 2 ^ 52 ->
  exists ra rb,
    Float64.sqrt (inject_Z a) = Ok ra /\ Float64.sqrt (inject_Z b) = Ok rb
    /\ (a < b <-> (ra < rb)%Q) /\ (a <= b <-> (ra <= rb)%Q).
Proof.
  intros Ha Hb.
  destruct (sqrt_int_near a Ha) as (ra & Ea & Ha0 & Ha1 & Ha2).
  destruct (sqrt_int_near b Hb) as (rb & Eb & Hb0 & Hb1 & Hb2).
  exists ra, rb. split; [exact Ea|]. split; [exact Eb|].
  assert (Hmono : forall x y rx ry,
            (0 <= rx)%Q -> (0 <= ry)%Q ->
            (rx * rx - (1 # 2) < inject_Z x)%Q ->
            (inject_Z y <= ry * ry + (1 # 2))%Q ->
            x < y -> (rx < ry)%Q).
  { intros x y rx ry Hrx Hry Hx Hy Hxy.
    apply Qnot_le_lt. intros Hle.
    assert (Hsq : (ry * ry <= rx * rx)%Q) by nra.
    assert (Hlt : (inject_Z y < inject_Z x + 1)%Q) by lra.
    change 1%Q with (inject_Z 1) in Hlt.
    rewrite <- inject_Z_plus, <- Zlt_Qlt in Hlt. lia. }
  assert (Heq : a = b -> (ra == rb)%Q).
  { intros ->. rewrite Ea in Eb. injection Eb as ->. reflexivity. }
  split; split.
  - by apply Hmono.
  - intros Hlt. destruct (Z_lt_le_dec a b) as [|Hge]; [assumption|].
    exfalso. destruct (Z.eq_dec a b) as [E|Hne].
    + specialize (Heq E). lra.
    + assert (H : (rb < ra)%Q) by (apply (Hmono b a); (assumption || lia)).
      lra.
  - intros Hle. destruct (Z.eq_dec a b) as [E|Hne].
    + specialize (Heq E). lra.
    + apply Qlt_le_weak. apply (Hmono a b); (assumption || lia).
  - intros Hle. destruct (Z_lt_le_dec b a) as [Hlt|]; [|assumption].
    exfalso.
    assert (H : (rb < ra)%Q) by (apply (Hmono b a); (assumption || lia)).
    lra.
Qed.

(** [computeDistance] orders two pairs of points as their squared
    distances do, when these are below 2^52. *)
Lemma computeDistance64_order (x1 y1 x2 y2 x1' y1' x2' y2' : Z) :
  let a := Bin.computeDistanceSq x1 y1 x2 y2 in
  let b := Bin.computeDistanceSq x1' y1' x2' y2' in
  a < 2 ^ 52 -> b < 2 ^ 52 ->
  exists da db,
    Bin.computeDistance64 x1 y1 x2 y2 = Ok da
    /\ Bin.computeDistance64 x1' y1' x2' y2' = Ok db
    /\ (a < b <-> (da < db)%Q) /\ (a <= b <-> (da <= db)%Q).
Proof.
  intros a b Ha Hb.
  assert (Ha0 : 0 <= a).
  { unfold a, Bin.computeDistanceSq.
    pose proof (Z.square_nonneg (x1 - x2)).
    pose proof (Z.square_nonneg (y1 - y2)). lia. }
  assert (Hb0 : 0 <= b).
  { unfold b, Bin.computeDistanceSq.
    pose proof (Z.square_nonneg (x1' - x2')).
    pose proof (Z.square_nonneg (y1' - y2')). lia. }
  unfold Bin.computeDistance64. fold a b.
  rewrite (of_int_id a), (of_int_id b) by lia.
  cbn [mbind result_bind]. apply sqrt_int_order; lia.
Qed.

(** From 2^53 on the order can be lost: the points (2^27, 0) and
    (2^27, 1) are at different distances from the origin, and Python
    computes the same distance for both. *)
Lemma computeDistance64_tie :
  Bin.computeDistanceSq (2 ^ 27) 0 0 0 < Bin.computeDistanceSq (2 ^ 27) 1 0 0
  /\ Bin.computeDistance64 (2 ^ 27) 0 0 0 = Bin.computeDistance64 (2 ^ 27) 1 0 0.
Proof. split; [reflexivity | vm_compute; reflexivity]. Qed.

(** X5.  TopRightCornerDistance, in a bin that does not rotate and whose
    squared corner distances are below 2^52.  Python compares the
    distances as binary64 square roots ([cornerDist64]); below 2^52 these
    order as the squares do ([computeDistance64_order]), so the
    comparison of the squares decides as Python does.
    [insertTopRightCornerDistance] does not raise.  It returns [None]
    exactly when the item fits no free space.  Otherwise it returns the
    item, upright, at the origin of a free space it fits, with minus the
    distance from its top right corner to that of the bin as first score
    (kept by the square of the distance); no other free space that the
    item fits gives a larger distance, and every one before it gives a
    smaller one. *)
Theorem insertTopRightCornerDistance_takes_largest_distance (self : Bin.t)
    (rect : Rect.t) :
  Bin.canRotate self = false ->
  Forall (fun g => fitsIn false rect g -> cornerDistSq self rect g < 2 ^ 52)
    (Bin.freeRects self) ->
  MaxSpaceBin.insertTopRightCornerDistance self rect
  = (MaxSpaceBin.evaluatePacking self rect (Some TopRightCornerDistance)).2
  /\ ((MaxSpaceBin.insertTopRightCornerDistance self rect = Ok None
       /\ forall g, g ∈ Bin.freeRects self -> ~ fitsIn false rect g)
      \/ exists (c : Rect.t) (k : nat) (f : Rect.t) (d : Q),
           MaxSpaceBin.insertTopRightCornerDistance self rect = Ok (Some c)
           /\ Bin.freeRects self !! k = Some f /\ fitsIn false rect f
           /\ placedAt rect f false c
           /\ Rect.score1 c = NegRoot (cornerDistSq self rect f)
           /\ Rect.score2 c = Inf
           /\ cornerDist64 self rect f = Ok d
           /\ forall j g,
                Bin.freeRects self !! j = Some g -> fitsIn false rect g ->
                exists dg : Q,
                  cornerDist64 self rect g = Ok dg
                  /\ (dg <= d)%Q
                  /\ cornerDistSq self rect g <= cornerDistSq self rect f
                  /\ ((j < k)%nat ->
                      (dg < d)%Q
                      /\ cornerDistSq self rect g < cornerDistSq self rect f)).
Proof.
  intros Hcan Hsmall. split; [by rewrite evaluatePacking_snd|].
  destruct (bestCandidate_explicit self rect _ _ _
              (insertTopRightCornerDistance_best self rect Hcan))
    as [[E Hnone] | (c & k & rotated & f & E & Hf & Had & Hpl & E1 & E2 & Hmin)].
  - left. split; [exact E|]. intros g Hg Hfit. apply (Hnone false g Hg).
    split; [exact Hfit | discriminate].
  - assert (rotated = false) as ->.
    { destruct rotated; [|reflexivity]. destruct Had as [_ Hrot].
      specialize (Hrot eq_refl). congruence. }
    right. destruct Had as [Hfit _].
    pose proof (Forall_lookup_1 _ _ _ _ Hsmall Hf Hfit) as Hfs.
    destruct (computeDistance64_order
                (Rect.x f + Rect.width rect) (Rect.y f + Rect.height rect)
                (Bin.binWidth self) (Bin.binHeight self)
                (Rect.x f + Rect.width rect) (Rect.y f + Rect.height rect)
                (Bin.binWidth self) (Bin.binHeight self) Hfs Hfs)
      as (d & _ & Ed & _).
    exists c, k, f, d.
    repeat (split; [assumption|]).
    intros j g Hg Hfitg.
    pose proof (Forall_lookup_1 _ _ _ _ Hsmall Hg Hfitg) as Hgs.
    destruct (computeDistance64_order
                (Rect.x g + Rect.width rect) (Rect.y g + Rect.height rect)
                (Bin.binWidth self) (Bin.binHeight self)
                (Rect.x f + Rect.width rect) (Rect.y f + Rect.height rect)
                (Bin.binWidth self) (Bin.binHeight self) Hgs Hfs)
      as (dg & d' & Edg & Ed' & Hlt & Hle).
    rewrite Ed in Ed'. injection Ed' as <-.
    fold (cornerDistSq self rect g) (cornerDistSq self rect f) in Hlt, Hle.
    exists dg. split; [exact Edg|].
    destruct (Hmin j false g Hg) as [Hle' Hlt'];
      [split; [exact Hfitg | discriminate]|].
    unfold lexLe, lexLt, cornerKey, rank in Hle', Hlt'. simpl in Hle', Hlt'.
    split; [apply Hle; lia|]. split; [lia|].
    intros Hjk. split; [apply Hlt; lia | lia].
Qed.

Lemma insertTopRightCornerDistance_takes_largest_distance_witness :
  let self :=
    (MaxSpaceBin.insert (MaxSpaceBin.setup (MaxSpaceBin.new 10 10))
       (Rect.new 6 4) (Some TopRightCornerDistance)).1 in
  let rect := Rect.new 4 6 in
  MaxSpaceBin.insertTopRightCornerDistance self rect
  = (MaxSpaceBin.evaluatePacking self rect (Some TopRightCornerDistance)).2
  /\ ((MaxSpaceBin.insertTopRightCornerDistance self rect = Ok None
       /\ forall g, g ∈ Bin.freeRects self -> ~ fitsIn false rect g)
      \/ exists (c : Rect.t) (k : nat) (f : Rect.t) (d : Q),
           MaxSpaceBin.insertTopRightCornerDistance self rect = Ok (Some c)
           /\ Bin.freeRects self !! k = Some f /\ fitsIn false rect f
           /\ placedAt rect f false c
           /\ Rect.score1 c = NegRoot (cornerDistSq self rect f)
           /\ Rect.score2 c = Inf
           /\ cornerDist64 self rect f = Ok d
           /\ forall j g,
                Bin.freeRects self !! j = Some g -> fitsIn false rect g ->
                exists dg : Q,
                  cornerDist64 self rect g = Ok dg
                  /\ (dg <= d)%Q
                  /\ cornerDistSq self rect g <= cornerDistSq self rect f
                  /\ ((j < k)%nat ->
                      (dg < d)%Q
                      /\ cornerDistSq self rect g < cornerDistSq self rect f)).
Proof.
  intros self rect.
  apply (insertTopRightCornerDistance_takes_largest_distance self rect).
  - reflexivity.
  - repeat constructor.
Defined.

(** The squared corner distance of an item at a free space of a bin of a
    packing is below the squared diagonal of the bin. *)
Lemma cornerDistSq_below_diagonal (W H : Z) (b : Bin.t) (rect f : Rect.t) :
  packedBin W H b -> f ∈ Bin.freeRects b -> positive rect ->
  fitsIn false rect f ->
  0 <= cornerDistSq b rect f < W * W + H * H.
Proof.
  intros Hb Hf [Hw Hh] [Hfw Hfh].
  destruct (pb_inside W H b Hb f Hf) as (Hx & Hy & Hxw & Hyh).
  rewrite (pb_binWidth W H b Hb) in Hxw.
  rewrite (pb_binHeight W H b Hb) in Hyh.
  unfold cornerDistSq, Bin.computeDistanceSq.
  rewrite (pb_binWidth W H b Hb), (pb_binHeight W H b Hb). nia.
Qed.

(** So with a squared diagonal below 2^52 the distances Python computes
    for two candidates, of one bin or of two, order as their squares. *)
Lemma cornerDist64_order_in_packing (W H : Z) (b b' : Bin.t)
    (rect f f' : Rect.t) :
  W * W + H * H < 2 ^ 52 ->
  packedBin W H b -> packedBin W H b' -> positive rect ->
  f ∈ Bin.freeRects b -> f' ∈ Bin.freeRects b' ->
  fitsIn false rect f -> fitsIn false rect f' ->
  exists d d' : Q,
    cornerDist64 b rect f = Ok d /\ cornerDist64 b' rect f' = Ok d'
    /\ (cornerDistSq b rect f < cornerDistSq b' rect f' <-> (d < d')%Q)
    /\ (cornerDistSq b rect f <= cornerDistSq b' rect f' <-> (d <= d')%Q).
Proof.
  intros Hdiag Hb Hb' Hrect Hf Hf' Hfit Hfit'.
  pose proof (cornerDistSq_below_diagonal W H b rect f Hb Hf Hrect Hfit)
    as Hd.
  pose proof (cornerDistSq_below_diagonal W H b' rect f' Hb' Hf' Hrect Hfit')
    as Hd'.
  assert (Hs : cornerDistSq b rect f < 2 ^ 52) by lia.
  assert (Hs' : cornerDistSq b' rect f' < 2 ^ 52) by lia.
  exact (computeDistance64_order
           (Rect.x f + Rect.width rect) (Rect.y f + Rect.height rect)
           (Bin.binWidth b) (Bin.binHeight b)
           (Rect.x f' + Rect.width rect) (Rect.y f' + Rect.height rect)
           (Bin.binWidth b') (Bin.binHeight b') Hs Hs').
Qed.

(** X6.  One turn of the loop of [pack], for bins of a packing and an item of
    positive size; with TopRightCornerDistance, for a bin whose squared
    diagonal is below 2^52, so that the binary64 square roots Python
    compares as scores order as their squares do
    ([cornerDist64_order_in_packing]).  The turn returns normally.  If some
    open bin offers a candidate, the item is committed to the bin whose
    candidate has the smallest pair of scores, the earliest such bin when
    several tie, and no bin is opened.  If no open bin offers one, a new
    bin is opened and appended; the item is committed to it if it fits the
    bin.  Every bin visited has its heuristic recorded and is otherwise
    unchanged. *)
Theorem packOne_packs_into_best_bin (self : RBPSolution.t)
    (h : PackingHeuristic) (bins : list Bin.t) (cur : Rect.t) :
  let W := RBPSolution.binWidth self in
  let H := RBPSolution.binHeight self in
  0 < W -> 0 < H ->
  (h = TopRightCornerDistance -> W * W + H * H < 2 ^ 52) ->
  Forall (packedBin W H) bins -> bins <> [] -> positive cur ->
  exists bins',
    RBPSolution.packOne self (Some h) bins cur
    = Ok (bins', Rect.removePackingInfo cur)
    /\ turn W H h bins cur bins'.
Proof.
  intros W H HW HH _ Hbins Hne Hcur.
  by apply (packOne_turn W H self h bins cur).
Qed.

Lemma packOne_packs_into_best_bin_witness :
  let self := RBPSolution.new 10 10 in
  let bins := [RBPSolution.openNewBin self; RBPSolution.openNewBin self] in
  exists bins',
    RBPSolution.packOne self (Some TopRightCornerDistance) bins (Rect.new 6 4)
    = Ok (bins', Rect.removePackingInfo (Rect.new 6 4))
    /\ turn 10 10 TopRightCornerDistance bins (Rect.new 6 4) bins'.
Proof.
  intros self bins.
  apply (packOne_packs_into_best_bin self TopRightCornerDistance bins
           (Rect.new 6 4)).
  - simpl. lia.
  - simpl. lia.
  - intros _. simpl. lia.
  - do 2 (apply Forall_cons_2; [apply (openNewBin_packedBin self)|]).
    apply Forall_nil_2.
  - discriminate.
  - unfold positive. simpl. lia.
Defined.

(** *** Every item that fits is packed once *)













(** ** When the solution value exists *)






(** *** Occupancy after [pack] *)





(** ** Packing again *)






(** ** Bins stay feasible under [insert] *)

Section ReturningLoops.

Context {A St : Type} (l0 : list A) (Inv : St -> Prop).

Lemma for_enumerate_r_ok (body : St -> nat -> A -> result St) :
  (forall s i a s', l0 !! i = Some a -> Inv s -> body s i a = Ok s' ->
     Inv s') ->
  forall l i s s', drop i l0 = l -> Inv s ->
    for_enumerate_r body i l s = Ok s' -> Inv s'.
Proof.
  intros Hbody. induction l as [|a l IH]; intros i s s' Hdrop Hs E; simpl in E.
  - by injection E as <-.
  - apply drop_cons_lookup in Hdrop as [Hi Hdrop].
    destruct (body s i a) as [s1|e] eqn:E1; [|discriminate].
    apply (IH (S i) s1 s' Hdrop); [|exact E]. by eapply Hbody.
Qed.

End ReturningLoops.

Lemma cornerBody_chosen_ok (self : Bin.t) (rect : Rect.t)
    (st st' : MaxSpaceBin.CornerBest) (i : nat) (f : Rect.t) :
  Bin.freeRects self !! i = Some f ->
  chosen self rect (MaxSpaceBin.cd_index st) (MaxSpaceBin.cd_rotated st) ->
  MaxSpaceBin.cornerBody self rect st i f = Ok st' ->
  chosen self rect (MaxSpaceBin.cd_index st') (MaxSpaceBin.cd_rotated st').
Proof.
  intros Hi Hst. unfold MaxSpaceBin.cornerBody. cbv zeta.
  destruct (Bin.canRotate self && _ && _); [discriminate|].
  intros [= <-].
  repeat match goal with
  | |- context [if ?c then _ else _] => destruct c eqn:?
  end; simpl; try assumption.
  right; exists i, f; zbool_hyps; unfold fitsIn.
  split; [reflexivity|]. split; [assumption|]. split; [lia|]. congruence.
Qed.

(** An evaluation that returns, whatever the bin. *)
Lemma evaluatePacking_ok_evaluated (self : Bin.t) (rect : Rect.t)
    (heur : option PackingHeuristic) (o : option Rect.t) :
  (MaxSpaceBin.evaluatePacking self rect heur).2 = Ok o ->
  evaluated self rect (Ok o).
Proof.
  rewrite evaluatePacking_snd. unfold dispatch.
  destruct heur as [[ | | ]|]; [| | |discriminate]; intros E.
  - rewrite <- E. apply insertBestArea_evaluated.
  - rewrite <- E. apply insertTouchingPerimeter_evaluated.
  - unfold MaxSpaceBin.insertTopRightCornerDistance in E.
    destruct (for_enumerate_r _ _ _ _) as [st|e] eqn:Eloop; [|discriminate].
    cbn [mbind result_bind] in E. rewrite <- E.
    apply evaluated_of_candidate.
    apply (for_enumerate_r_ok (Bin.freeRects self)
             (fun st => chosen self rect (MaxSpaceBin.cd_index st)
                          (MaxSpaceBin.cd_rotated st))
             (MaxSpaceBin.cornerBody self rect)
             (fun s i a s' Hi Hs Es =>
                cornerBody_chosen_ok self rect s s' i a Hi Hs Es)
             (Bin.freeRects self) 0%nat
             (MaxSpaceBin.mkCornerBest (-1) (-1) false) st eq_refl);
      [by left | exact Eloop].
Qed.

(** Committing a candidate, upright or turned, keeps the items placed. *)
Lemma committed_placed (b : Bin.t) (rect c : Rect.t)
    (heur : option PackingHeuristic) :
  freeSpaceInvariant b -> placedBin b ->
  (MaxSpaceBin.evaluatePacking b rect heur).2 = Ok (Some c) ->
  placedBin (committed (remembered b heur) c)
  /\ Rect.width c * Rect.height c = Rect.width rect * Rect.height rect
  /\ (positive rect -> positive c).
Proof.
  intros Hfs [Hin Hap] Hc.
  destruct (evaluatePacking_ok_evaluated b rect heur _ Hc)
    as [E | (c' & f & rot & E & Hf & Hfit & (Ex & Ey & Ew & Eh) & _)];
    [discriminate|].
  injection E as <-.
  assert (Hwithin : within c f).
  { unfold within. unfold fitsIn in Hfit. destruct rot; lia. }
  destruct (committed_fields (remembered b heur) c)
    as (EW & EH & _ & _ & Ep & _).
  destruct (remembered_fields b heur) as (EW1 & EH1 & _ & _ & Ep1 & _).
  split; [|split].
  - split; rewrite Ep, Ep1.
    + intros p Hp. unfold insideBin. rewrite EW, EH, EW1, EH1.
      apply elem_of_app in Hp as [Hp | Hp]; [by apply Hin|].
      apply list_elem_of_singleton in Hp as ->.
      pose proof (spaces_inside _ Hfs f Hf) as (? & ? & ? & ?).
      unfold within in Hwithin. lia.
    + apply apart_snoc; [exact Hap|]. intros p Hp Hint.
      apply interiors_intersect_sym in Hint. revert Hint.
      apply (within_disjoint c f p Hwithin).
      by apply (spaces_clear _ Hfs f p Hf).
  - rewrite Ew, Eh. destruct rot; lia.
  - unfold positive. rewrite Ew, Eh. destruct rot; lia.
Qed.

Lemma afterPlacements_invariant (start self : Bin.t) :
  afterPlacements (MaxSpaceBin.setup start) self ->
  freeSpaceInvariant self /\ placedBin self
  /\ Forall positive (Bin.packedRects self)
  /\ Bin.occupiedArea self = sumAreas (Bin.packedRects self)
  /\ Bin.binWidth self = Bin.binWidth start
  /\ Bin.binHeight self = Bin.binHeight start.
Proof.
  induction 1 as [|self rect heur self' _ IH Hready Hrect Hins].
  - split; [apply setup_invariant|]. split; [|by repeat split].
    split.
    + intros p Hp. by apply elem_of_nil in Hp.
    + intros i j p q _ Hi. simpl in Hi. discriminate.
  - destruct IH as (Hfs & Hpl & Hpos & Harea & EW & EH).
    apply insert_true in Hins
      as (self1 & c & -> & [(Hr & _) | (_ & -> & Hc)]); [congruence|].
    destruct (committed_placed self rect c heur Hfs Hpl Hc)
      as (Hpl' & Earea & Hcpos).
    destruct (committed_fields (remembered self heur) c)
      as (EW' & EH' & _ & _ & Ep & Ea & _).
    destruct (remembered_fields self heur) as (EW1 & EH1 & Ea1 & _ & Ep1 & _).
    split; [by apply committed_invariant, remembered_invariant|].
    split; [exact Hpl'|]. split; [|split; [|split]].
    + rewrite Ep, Ep1. apply Forall_app. split; [exact Hpos|].
      constructor; [by apply Hcpos | constructor].
    + rewrite Ea, Ea1, Ep, Ep1, sumAreas_app, Harea. simpl. lia.
    + by rewrite EW', EW1.
    + by rewrite EH', EH1.
Qed.

(** X11.  A bin set up and then filled by [insert] alone, with items of positive
    size that carry no position, in a bin that may rotate and with any
    heuristics: after every insert that returns [True] the items lie
    inside the bin, no two of them overlap, [isFeasible] returns [True],
    the occupied area is the sum of the areas of the items and is at most
    the area of the bin. *)
Theorem inserts_keep_the_bin_feasible (start self : Bin.t) :
  afterPlacements (MaxSpaceBin.setup start) self ->
  placedBin self
  /\ Bin.isFeasible self = true
  /\ Bin.getPackedArea self = sumAreas (Bin.packedRects self)
  /\ (0 <= Bin.binWidth self -> 0 <= Bin.binHeight self ->
      Bin.getPackedArea self <= Bin.binWidth self * Bin.binHeight self).
Proof.
  intros Hafter.
  destruct (afterPlacements_invariant start self Hafter)
    as (_ & Hpl & Hpos & Harea & _ & _).
  split; [exact Hpl|]. split; [|split].
  - apply isFeasible_loop_true; [exact Hpos|]. by destruct Hpl.
  - exact Harea.
  - intros HW HH. unfold Bin.getPackedArea. rewrite Harea.
    destruct Hpl as [Hin Hap]. apply placed_area; try assumption.
    intros p Hp. destruct (Hin p Hp) as (? & ? & ? & ?).
    rewrite Forall_forall in Hpos. destruct (Hpos p Hp). lia.
Qed.

Lemma inserts_keep_the_bin_feasible_witness :
  let start := Bin.set_canRotate (MaxSpaceBin.new 10 10) true in
  let self :=
    (MaxSpaceBin.insert (MaxSpaceBin.setup start) (Rect.new 4 10)
       (Some BestAreaFit)).1 in
  let self' := (MaxSpaceBin.insert self (Rect.new 10 6) (Some BestAreaFit)).1 in
  placedBin self'
  /\ Bin.isFeasible self' = true
  /\ Bin.getPackedArea self' = sumAreas (Bin.packedRects self')
  /\ (0 <= Bin.binWidth self' -> 0 <= Bin.binHeight self' ->
      Bin.getPackedArea self' <= Bin.binWidth self' * Bin.binHeight self').
Proof.
  intros start self self'.
  apply (inserts_keep_the_bin_feasible start self').
  apply (afterPlacements_step _ self (Rect.new 10 6) (Some BestAreaFit) self').
  - apply (afterPlacements_step _ (MaxSpaceBin.setup start) (Rect.new 4 10)
             (Some BestAreaFit) self).
    + apply afterPlacements_none.
    + reflexivity.
    + unfold positive. simpl. lia.
    + vm_compute. reflexivity.
  - reflexivity.
  - unfold positive. simpl. lia.
  - vm_compute. reflexivity.
Defined.

(** ** The free spaces, cell by cell *)

Lemma residuals_clear (f rect g : Rect.t) :
  g ∈ MaxSpaceBin.residuals f rect -> Bin.isOverlapping g rect = false.
Proof.
  unfold MaxSpaceBin.residuals. intros Hg.
  repeat match type of Hg with
  | _ ∈ _ ++ _ => apply elem_of_app in Hg as [Hg | Hg]
  | _ ∈ (if ?c then _ else _) => destruct c eqn:?
  | _ ∈ [] => by apply elem_of_nil in Hg
  | _ ∈ [_] => apply list_elem_of_singleton in Hg; subst g
  end;
    zbool_hyps; unfold Bin.isOverlapping; simpl;
    apply negb_false_iff, orb_true_iff;
    rewrite !orb_true_iff, !Z.geb_leb, !Z.leb_le; lia.
Qed.

Lemma overlapping_cell (g rect : Rect.t) (c : Z * Z) :
  cellIn g c = true -> cellIn rect c = true ->
  Bin.isOverlapping g rect = true.
Proof.
  destruct c as [cx cy]. rewrite !cellIn_true, Bin_isOverlapping_true. lia.
Qed.

Lemma split_clear (rect : Rect.t) (spaces : list Rect.t) (g : Rect.t) :
  g ∈ keptSpaces rect spaces ++ newSpaces rect spaces ->
  Bin.isOverlapping g rect = false.
Proof.
  intros Hg. apply elem_of_app in Hg as [Hg | Hg].
  - unfold keptSpaces in Hg. by apply list_elem_of_filter in Hg as [Hg _].
  - unfold newSpaces in Hg. apply list_elem_of_bind in Hg as (f & Hg & _).
    destruct (Bin.isOverlapping f rect); [|by apply elem_of_nil in Hg].
    by eapply residuals_clear.
Qed.

(** X12.  [generateNewMaxSpaces] keeps, in their order, the free spaces that do
    not overlap the item, and puts after them the residual spaces of the
    others; it changes nothing else of the bin.  No free space it leaves
    overlaps the item, and a unit cell lies in one of them exactly when it
    lay in a free space before and does not lie in the item: the split
    frees no cell and loses none. *)
Theorem generateNewMaxSpaces_keeps_the_uncovered_cells (self : Bin.t)
    (rect : Rect.t) :
  let self' := MaxSpaceBin.generateNewMaxSpaces self rect in
  self' = Bin.set_freeRects self (Bin.freeRects self')
  /\ Bin.freeRects self'
     = keptSpaces rect (Bin.freeRects self)
       ++ newSpaces rect (Bin.freeRects self)
  /\ (forall g, g ∈ Bin.freeRects self' ->
        Bin.isOverlapping g rect = false
        /\ exists f, f ∈ Bin.freeRects self /\ within g f)
  /\ (forall c : Z * Z,
        (exists g, g ∈ Bin.freeRects self' /\ cellIn g c = true)
        <-> (exists f, f ∈ Bin.freeRects self /\ cellIn f c = true)
            /\ cellIn rect c = false).
Proof.
  intros self'. pose proof (generateNewMaxSpaces_freeRects self rect) as E.
  fold self' in E. split; [reflexivity|]. split; [exact E|]. split.
  - intros g Hg. rewrite E in Hg. split; [by eapply split_clear|].
    destruct (split_spaces rect _ g Hg) as (f & Hf & Hw & _). by exists f.
  - intros c. rewrite E. split.
    + intros (g & Hg & Hc).
      destruct (split_spaces rect _ g Hg) as (f & Hf & Hw & _). split.
      * exists f. split; [exact Hf | by eapply cellIn_within].
      * destruct (cellIn rect c) eqn:Er; [|reflexivity].
        pose proof (overlapping_cell g rect c Hc Er) as Hov.
        rewrite (split_clear rect _ g Hg) in Hov. discriminate.
    + intros [(f & Hf & Hc) Hr]. by eapply split_cover.
Qed.

Lemma antichain_cons (r : Rect.t) (rest : list Rect.t) :
  antichain (r :: rest) ->
  (forall q, q ∈ rest -> ~ within r q /\ ~ within q r) /\ antichain rest.
Proof.
  intros Han. split.
  - intros q Hq. apply list_elem_of_lookup_1 in Hq as [j Hj]. split.
    + apply (Han 0%nat (S j) r q); [lia | reflexivity | exact Hj].
    + apply (Han (S j) 0%nat q r); [lia | exact Hj | reflexivity].
  - intros i j p q Hne Hi Hj. apply (Han (S i) (S j) p q); [lia | | ]; assumption.
Qed.

Lemma pruneInner_antichain (rectI : Rect.t) (i : nat) (rest : list Rect.t) :
  (forall q, q ∈ rest -> ~ within rectI q /\ ~ within q rectI) ->
  forall (j : nat) (T : gset nat),
    MaxSpaceBin.pruneInner rectI i j rest T = T.
Proof.
  induction rest as [|q rest IH]; intros Hall j T; [reflexivity|].
  simpl. destruct (Hall q (list_elem_of_here q rest)) as [H1 H2].
  rewrite <- isContainedIn_within in H1, H2.
  apply not_true_is_false in H1, H2. rewrite H1, H2.
  apply IH. intros q' Hq'. apply Hall. by right.
Qed.

Lemma pruneOuter_antichain (rects : list Rect.t) :
  antichain rects ->
  forall (i : nat) (T : gset nat), MaxSpaceBin.pruneOuter i rects T = T.
Proof.
  induction rects as [|r rects IH]; intros Han i T; [reflexivity|].
  apply antichain_cons in Han as [Hr Han]. simpl.
  rewrite (pruneInner_antichain r i rects Hr). by apply IH.
Qed.

Lemma keepUnmarked_empty (rects : list Rect.t) :
  forall i : nat, MaxSpaceBin.keepUnmarked ∅ i rects = rects.
Proof.
  induction rects as [|r rects IH]; intros i; [reflexivity|].
  simpl. rewrite bool_decide_eq_false_2 by apply not_elem_of_empty.
  by rewrite IH.
Qed.

Lemma pruned_of_antichain (spaces : list Rect.t) :
  antichain spaces -> pruned spaces = spaces.
Proof.
  intros Han. unfold pruned. rewrite (pruneOuter_antichain spaces Han).
  apply keepUnmarked_empty.
Qed.

Lemma keepUnmarked_sublist (R : gset nat) (rects : list Rect.t) :
  forall i : nat, sublist (MaxSpaceBin.keepUnmarked R i rects) rects.
Proof.
  induction rects as [|r rects IH]; intros i; [constructor|].
  simpl. destruct (bool_decide (i ∈ R)).
  - apply sublist_cons, IH.
  - apply sublist_skip, IH.
Qed.

(** X13.  [pruneMaxSpaces] changes only the list of free spaces.  The list it
    leaves holds spaces of the old list, in their order; every space of
    the old list lies within one that is left, so the same unit cells are
    covered; a list in which no space lies within another is left as it
    is, and pruning twice is pruning once.  It raises only when the bin
    had no free space at all: then the occupancy is read, and a value
    below 1 raises [ValueError]. *)
Theorem pruneMaxSpaces_keeps_the_largest_spaces (self : Bin.t) :
  let spaces := Bin.freeRects self in
  let outcome := MaxSpaceBin.pruneMaxSpaces self in
  outcome.1 = Bin.set_freeRects self (pruned spaces)
  /\ sublist (pruned spaces) spaces
  /\ (forall f, f ∈ spaces -> exists g, g ∈ pruned spaces /\ within f g)
  /\ (forall c : Z * Z,
        (exists g, g ∈ pruned spaces /\ cellIn g c = true)
        <-> (exists f, f ∈ spaces /\ cellIn f c = true))
  /\ (antichain spaces -> pruned spaces = spaces)
  /\ MaxSpaceBin.pruneMaxSpaces outcome.1 = outcome
  /\ (spaces <> [] -> outcome.2 = Ok ())
  /\ (spaces = [] ->
      outcome.2
      = (occupancy ← Bin.getOccupancy self;
         if Qltb occupancy 1 then Raise (ValueError "Error") else Ok ())).
Proof.
  intros spaces outcome.
  assert (Habove : forall f, f ∈ spaces -> exists g, g ∈ pruned spaces /\ within f g).
  { intros f Hf. apply list_elem_of_lookup_1 in Hf as [a Ha].
    by apply (pruned_above spaces a f). }
  split; [reflexivity|]. split; [apply keepUnmarked_sublist|].
  split; [exact Habove|]. split; [|split; [apply pruned_of_antichain|]].
  - intros c. split.
    + intros (g & Hg & Hc). exists g. split; [by apply pruned_subset | exact Hc].
    + intros (f & Hf & Hc). destruct (Habove f Hf) as (g & Hg & Hw).
      exists g. split; [exact Hg | by eapply cellIn_within].
  - split; [|split].
    + unfold outcome. rewrite pruneMaxSpaces_fst.
      unfold MaxSpaceBin.pruneMaxSpaces. simpl Bin.freeRects.
      fold spaces. fold (pruned spaces). fold (pruned (pruned spaces)).
      by rewrite (pruned_of_antichain (pruned spaces) (pruned_antichain spaces)).
    + intros Hne. unfold outcome. rewrite pruneMaxSpaces_snd, pruneMaxSpaces_fst.
      cbv zeta. simpl Bin.freeRects. fold spaces.
      rewrite bool_decide_eq_false_2; [reflexivity|].
      intros E. apply length_zero_iff_nil in E.
      destruct spaces as [|f l] eqn:Es; [congruence|].
      destruct (Habove f (list_elem_of_here f l)) as (g & Hg & _).
      rewrite E in Hg. by apply elem_of_nil in Hg.
    + intros E. unfold outcome, MaxSpaceBin.pruneMaxSpaces. fold spaces.
      rewrite E. reflexivity.
Qed.

(** ** Comparisons of rectangles and of bins *)

(** X14.  The ordering operators of [Rect] compare areas and are consistent with
    one another: [>] is [<] with the operands exchanged, [>=] is the
    negation of [<] and is [<=] exchanged.  Equality compares the two
    sides, not the area and not the position: equal rectangles are [<=]
    and [>=] each other, but two rectangles that are [<=] and [>=] each
    other need only have the same area.  [__hash__] reads the position
    that equality ignores: two equal rectangles have the same hash only
    at positions with the same [79 * x + y], as when neither is placed. *)
Theorem Rect_comparisons_order_by_area (a b : Rect.t) :
  let area := fun r => Rect.width r * Rect.height r in
  (Rect.lt a b = true <-> area a < area b)
  /\ (Rect.le a b = true <-> area a <= area b)
  /\ (Rect.gt a b = true <-> area b < area a)
  /\ (Rect.ge a b = true <-> area b <= area a)
  /\ Rect.gt a b = Rect.lt b a
  /\ Rect.ge a b = Rect.le b a
  /\ Rect.ge a b = negb (Rect.lt a b)
  /\ (Rect.eq a b = true
      <-> Rect.width a = Rect.width b /\ Rect.height a = Rect.height b)
  /\ Rect.ne a b = negb (Rect.eq a b)
  /\ Rect.eq a b = Rect.eq b a
  /\ (Rect.eq a b = true -> Rect.le a b = true /\ Rect.ge a b = true)
  /\ (Rect.le a b = true /\ Rect.ge a b = true <-> area a = area b)
  /\ (Rect.eq a b = true ->
      (Rect.hash a = Rect.hash b
       <-> 79 * Rect.x a + Rect.y a = 79 * Rect.x b + Rect.y b))
  /\ (Rect.eq a b = true ->
      Rect.hash (Rect.removePackingInfo a)
      = Rect.hash (Rect.removePackingInfo b)).
Proof.
  intros area. unfold area, Rect.lt, Rect.le, Rect.gt, Rect.ge, Rect.eq,
    Rect.ne, Rect.lt, Rect.hash. cbv zeta. simpl Rect.x. simpl Rect.y.
  simpl Rect.width. simpl Rect.height.
  repeat split; try intros [? ?]; try intros ?; zbool_hyps;
    repeat match goal with
    | H : _ || _ = true |- _ => apply orb_true_iff in H; destruct H
    end; zbool_hyps; zbool_goal; simpl; try reflexivity; try lia; try nia;
    try congruence.
Qed.

(** X15.  [isContainedIn] is a preorder on rectangles by extent: every rectangle
    is contained in itself (equal extents count), containment is
    transitive, and two rectangles contained in each other have the same
    position and size.  A rectangle of positive size that is contained in
    another overlaps it. *)
Theorem isContainedIn_is_a_preorder (a b c : Rect.t) :
  Rect.isContainedIn a a = true
  /\ (Rect.isContainedIn a b = true -> Rect.isContainedIn b c = true ->
      Rect.isContainedIn a c = true)
  /\ (Rect.isContainedIn a b = true -> Rect.isContainedIn b a = true ->
      Rect.x a = Rect.x b /\ Rect.y a = Rect.y b
      /\ Rect.width a = Rect.width b /\ Rect.height a = Rect.height b)
  /\ (Rect.isContainedIn a b = true ->
      Rect.width a <= Rect.width b /\ Rect.height a <= Rect.height b)
  /\ (Rect.isContainedIn a b = true -> positive a ->
      Bin.isOverlapping a b = true /\ Rect.isOverlapping a b = true).
Proof.
  rewrite !isContainedIn_within. split; [apply within_refl|].
  split; [apply within_trans|]. unfold within.
  split; [lia|]. split; [lia|].
  intros Hw Ha. assert (Hb : positive b) by (unfold positive in *; lia).
  rewrite Bin_isOverlapping_true, (Rect_isOverlapping_true a b Ha Hb).
  unfold positive in *. lia.
Qed.

(** X16.  The two helpers [computeCommonHorizLength] and
    [computeCommonVertLength] are symmetric in the two rectangles and give
    the signed length of the common part of the two extents: for two
    rectangles with sides of positive length it is positive in both
    directions exactly when the rectangles overlap, its positive part is
    what [computeCommonLength] returns, and for extents that do not meet
    it is minus the gap between them. *)
Theorem common_lengths_are_signed_overlaps (a b : Rect.t) :
  Rect.computeCommonHorizLength a b = Rect.computeCommonHorizLength b a
  /\ Rect.computeCommonVertLength a b = Rect.computeCommonVertLength b a
  /\ (positive a -> positive b ->
      (Rect.isOverlapping a b = true
       <-> 0 < Rect.computeCommonHorizLength a b
           /\ 0 < Rect.computeCommonVertLength a b)
      /\ Rect.computeCommonLength (Rect.x a) (Rect.x a + Rect.width a)
           (Rect.x b) (Rect.x b + Rect.width b)
         = Z.max 0 (Rect.computeCommonHorizLength a b)
      /\ Rect.computeCommonLength (Rect.y a) (Rect.y a + Rect.height a)
           (Rect.y b) (Rect.y b + Rect.height b)
         = Z.max 0 (Rect.computeCommonVertLength a b))
  /\ (Rect.x a + Rect.width a <= Rect.x b -> 0 <= Rect.width a ->
      0 <= Rect.width b ->
      Rect.computeCommonHorizLength a b
      = - (Rect.x b - (Rect.x a + Rect.width a)))
  /\ (Rect.y a + Rect.height a <= Rect.y b -> 0 <= Rect.height a ->
      0 <= Rect.height b ->
      Rect.computeCommonVertLength a b
      = - (Rect.y b - (Rect.y a + Rect.height a))).
Proof.
  unfold Rect.computeCommonHorizLength, Rect.computeCommonVertLength.
  cbv zeta. split; [lia|]. split; [lia|]. split; [|split; lia].
  intros Ha Hb. rewrite (Rect_isOverlapping_true a b Ha Hb).
  unfold Rect.computeCommonLength, positive in *.
  split; [lia|]. split; zbool_goal; simpl; lia.
Qed.

Lemma eq_loop_sizes (rects1 rects2 : list Rect.t) :
  length rects1 = length rects2 ->
  Bin.eq_loop rects1 rects2 = true <-> sizes rects1 = sizes rects2.
Proof.
  revert rects2. induction rects1 as [|r1 rects1 IH]; intros [|r2 rects2] Hlen;
    simpl in Hlen; try discriminate.
  - by split.
  - injection Hlen as Hlen. cbn [Bin.eq_loop]. unfold Rect.ne, Rect.eq.
    change (sizes (r1 :: rects1))
      with ((Rect.width r1, Rect.height r1) :: sizes rects1).
    change (sizes (r2 :: rects2))
      with ((Rect.width r2, Rect.height r2) :: sizes rects2).
    destruct (Z.eqb_spec (Rect.width r2) (Rect.width r1)) as [Ew|Ew];
      destruct (Z.eqb_spec (Rect.height r2) (Rect.height r1)) as [Eh|Eh];
      simpl; rewrite ?(IH rects2 Hlen); split;
        try discriminate; try (intros [= ? ? ?]; congruence);
        try (intros ->; by rewrite Ew, Eh).
Qed.

(** X17.  Two bins are equal exactly when they hold items of the same sizes in
    the same order: the positions of the items, the free spaces and the
    size of the bins are not compared.  [__eq__] is then an equivalence,
    and [__ne__] its negation. *)
Theorem Bin_eq_compares_item_sizes (a b c : Bin.t) :
  (Bin.eq a b = true <-> sizes (Bin.packedRects a) = sizes (Bin.packedRects b))
  /\ Bin.eq a a = true
  /\ Bin.eq a b = Bin.eq b a
  /\ (Bin.eq a b = true -> Bin.eq b c = true -> Bin.eq a c = true)
  /\ Bin.ne a b = negb (Bin.eq a b)
  /\ (Bin.eq a b = true -> Bin.len a = Bin.len b).
Proof.
  assert (Hiff : forall a b, Bin.eq a b = true
            <-> sizes (Bin.packedRects a) = sizes (Bin.packedRects b)).
  { intros a' b'. unfold Bin.eq.
    destruct (Nat.eqb_spec (length (Bin.packedRects a'))
                (length (Bin.packedRects b'))) as [Hlen|Hlen]; simpl.
    - by apply eq_loop_sizes.
    - split; [discriminate|]. intros E. apply (f_equal length) in E.
      unfold sizes in E. by rewrite !length_fmap in E. }
  split; [apply Hiff|]. split; [by apply Hiff|]. split; [|split; [|split]].
  - destruct (Bin.eq a b) eqn:E1, (Bin.eq b a) eqn:E2; try reflexivity.
    + apply Hiff in E1. symmetry in E1. apply Hiff in E1. congruence.
    + apply Hiff in E2. symmetry in E2. apply Hiff in E2. congruence.
  - rewrite !Hiff. congruence.
  - reflexivity.
  - rewrite Hiff. intros E. apply (f_equal length) in E.
    unfold sizes in E. rewrite !length_fmap in E. unfold Bin.len. lia.
Qed.

(** ** Errors of [pack] and [removeAndRepack] *)



(** X19.  [pack] on a solution that has no working list yet, called without
    items or with an empty list, raises [TypeError] (for bins of non-zero
    area; the empty list is not stored, and [None] is iterated over).  On
    a solution that has its lower bound, an empty list is the same as no
    list: the stored working list is packed again. *)
Theorem pack_without_items_raises (self : RBPSolution.t)
    (heur : option PackingHeuristic) (first : bool) :
  (RBPSolution.rectList self = None ->
   RBPSolution.binWidth self * RBPSolution.binHeight self <> 0 ->
   RBPSolution.pack self None heur first = Raise TypeError
   /\ RBPSolution.pack self (Some []) heur first = Raise TypeError)
  /\ (RBPSolution.noLowerBound self = false ->
      RBPSolution.pack self (Some []) heur first
      = RBPSolution.pack self None heur first)
  /\ (RBPSolution.noLowerBound self = true ->
      RBPSolution.pack self None heur first = Raise TypeError).
Proof.
  split; [|split].
  - intros Erects Harea. unfold RBPSolution.pack. cbv beta iota.
    change (RBPSolution.noLowerBound (RBPSolution.set_binList self []))
      with (RBPSolution.noLowerBound self).
    destruct (RBPSolution.noLowerBound self); split;
      try reflexivity; cbn [mbind result_bind];
      try (simpl RBPSolution.rectList; by rewrite Erects).
    unfold RBPSolution.computeLowerBound, truediv. simpl RBPSolution.binWidth.
    simpl RBPSolution.binHeight.
    destruct (Z.eqb_spec (RBPSolution.binWidth self * RBPSolution.binHeight self) 0);
      [contradiction|].
    cbn [mbind result_bind]. simpl RBPSolution.rectList. by rewrite Erects.
  - intros Enl. unfold RBPSolution.pack. cbv beta iota.
    change (RBPSolution.noLowerBound (RBPSolution.set_binList self []))
      with (RBPSolution.noLowerBound self).
    by rewrite Enl.
  - intros Enl. unfold RBPSolution.pack. cbv beta iota.
    change (RBPSolution.noLowerBound (RBPSolution.set_binList self []))
      with (RBPSolution.noLowerBound self).
    by rewrite Enl.
Qed.

(** X20.  [removeAndRepack] checks its arguments before it does anything: a
    percentage below 0 or above 1 raises [ValueError], whatever the state
    of the solution; for a percentage in range, a solution whose working
    list is missing or empty raises [RuntimeError].  In both cases no
    random number is drawn. *)
Theorem removeAndRepack_checks_its_arguments (self : RBPSolution.t)
    (heur : option PackingHeuristic) (percentage : Q)
    (reverse sort first : bool) (tp : tape) :
  ((percentage < 0)%Q \/ (1 < percentage)%Q ->
   RBPSolution.removeAndRepack self heur percentage reverse sort first tp
   = Some (Raise (ValueError
       "The value of percentage should be in the range [0, 1]")))
  /\ ((0 <= percentage)%Q -> (percentage <= 1)%Q ->
      RBPSolution.rectList self = None \/ RBPSolution.rectList self = Some [] ->
      RBPSolution.removeAndRepack self heur percentage reverse sort first tp
      = Some (Raise (RuntimeError
          "The current solution has no items. Please call `Solution.pack` first."))).
Proof.
  unfold RBPSolution.removeAndRepack, RBPSolution.ruin. split.
  - intros Hout.
    assert (E : Qltb percentage 0 || Qltb 1 percentage = true).
    { apply orb_true_iff. rewrite !Qltb_lt. exact Hout. }
    by rewrite E.
  - intros H0 H1 Hnone.
    assert (E : Qltb percentage 0 || Qltb 1 percentage = false).
    { apply orb_false_iff. by rewrite !Qltb_ge. }
    rewrite E. by destruct Hnone as [-> | ->].
Qed.

(** ** Reordering the working list *)

Lemma transposed_perm (i j : nat) (l : list Rect.t) : transposed i j l ≡ₚ l.
Proof.
  unfold transposed.
  destruct (l !! i) as [a|] eqn:Ei; [|reflexivity].
  destruct (l !! j) as [b|] eqn:Ej; [|reflexivity].
  by apply Permutation_insert_swap.
Qed.

Lemma applySwaps_perm (log : list (nat * nat)) :
  forall l : list Rect.t, applySwaps log l ≡ₚ l.
Proof.
  induction log as [|p log IH]; intros l; [reflexivity|].
  unfold applySwaps in *. simpl. rewrite IH. apply transposed_perm.
Qed.

Lemma insertDescending_perm (r : Rect.t) (l : list Rect.t) :
  RBPSolution.insertDescending r l ≡ₚ r :: l.
Proof.
  induction l as [|h l IH]; [reflexivity|]. simpl.
  destruct (Rect.lt r h); [|reflexivity].
  rewrite IH. apply Permutation_swap.
Qed.

Lemma sortDescending_perm (l : list Rect.t) :
  RBPSolution.sortDescending l ≡ₚ l.
Proof.
  unfold RBPSolution.sortDescending.
  induction l as [|r l IH]; [reflexivity|]. simpl.
  by rewrite insertDescending_perm, IH.
Qed.

Lemma insertDescending_descending (r : Rect.t) (l : list Rect.t) :
  descending l -> descending (RBPSolution.insertDescending r l).
Proof.
  induction l as [|h l IH]; intros Hl; simpl.
  - split; [constructor | exact I].
  - destruct Hl as [Hh Hl]. unfold Rect.lt.
    destruct (Z.ltb_spec (Rect.width r * Rect.height r)
                (Rect.width h * Rect.height h)) as [Hlt|Hge]; simpl.
    + split; [|by apply IH].
      rewrite insertDescending_perm. constructor; [lia | exact Hh].
    + split; [|by split]. constructor; [exact Hge|].
      eapply Forall_impl; [exact Hh|]. simpl. intros q Hq. lia.
Qed.

Lemma sortDescending_descending (l : list Rect.t) :
  descending (RBPSolution.sortDescending l).
Proof.
  unfold RBPSolution.sortDescending.
  induction l as [|r l IH]; [exact I|]. simpl.
  by apply insertDescending_descending.
Qed.

Lemma sortDescending_of_descending (l : list Rect.t) :
  descending l -> RBPSolution.sortDescending l = l.
Proof.
  unfold RBPSolution.sortDescending.
  induction l as [|r l IH]; intros Hl; [reflexivity|].
  destruct Hl as [Hr Hl]. simpl. rewrite (IH Hl).
  destruct l as [|h l]; [reflexivity|]. simpl.
  apply Forall_cons in Hr as [Hh _]. unfold Rect.lt.
  by rewrite (proj2 (Z.ltb_ge _ _) Hh).
Qed.

(** X21.  What [removeAndRepack] does to the working list before it packs
    again, in both modes and for every count, the count being the one
    Python computes in binary64 ([removalCount64], at least 2): it takes
    the first [number] items when [reverse] and otherwise the slice from
    [numRects - number] on (from the end when that is negative), reorders
    the slice, and writes it back in place; it changes nothing else of the
    solution.  So the working list keeps its items and its length.  With
    [sort] the slice comes back by non-increasing area, a slice that was
    so already comes back as it was, and no random number is drawn. *)
Theorem removeAndRepack_only_reorders_the_items (self : RBPSolution.t)
    (percentage : Q) (reverse sort : bool) (tp : tape)
    (r : RBPSolution.Ruined) :
  RBPSolution.ruin64 self percentage reverse sort tp = Some (Ok r) ->
  exists (rects sub : list Rect.t) (n number : Z),
    RBPSolution.rectList self = Some rects
    /\ RBPSolution.numRects self = Some n
    /\ RBPSolution.removalCount64 percentage n = Ok number
    /\ 2 <= number
    /\ let start := slice_start (n - number) (length rects) in
       RBPSolution.taken r = sliceTaken reverse number start rects
       /\ RBPSolution.ruined r
          = RBPSolution.set_rectList self
              (Some (sliceReplaced reverse number start rects sub))
       /\ sub ≡ₚ RBPSolution.taken r
       /\ sliceReplaced reverse number start rects sub ≡ₚ rects
       /\ length (sliceReplaced reverse number start rects sub) = length rects
       /\ (sort = true ->
           sub = RBPSolution.sortDescending (RBPSolution.taken r)
           /\ descending sub
           /\ (descending (RBPSolution.taken r) -> sub = RBPSolution.taken r)
           /\ RBPSolution.rest_tape r = tp
           /\ RBPSolution.swapped r = [])
       /\ (sort = false ->
           sub = applySwaps (RBPSolution.swapped r) (RBPSolution.taken r)).
Proof.
  unfold RBPSolution.ruin64.
  destruct (Qltb percentage 0 || Qltb 1 percentage); [discriminate|].
  destruct (RBPSolution.rectList self) as [rects|] eqn:Erects; [|discriminate].
  destruct rects as [|r0 rects0]; [discriminate|].
  set (rects := r0 :: rects0) in *. clearbody rects. clear r0 rects0.
  destruct (RBPSolution.numRects self) as [n|] eqn:En; [|discriminate].
  destruct (RBPSolution.removalCount64 percentage n) as [number|e] eqn:Ecount;
    [|discriminate].
  assert (Hnumber : 2 <= number).
  { unfold RBPSolution.removalCount64 in Ecount.
    destruct (Float64.of_int n) as [n'|]; [|discriminate].
    cbn [mbind result_bind] in Ecount.
    destruct (Float64.mul percentage n') as [x|]; [|discriminate].
    cbn [mbind result_bind] in Ecount.
    destruct (Float64.add x 1) as [s|]; [|discriminate].
    cbn [mbind result_bind] in Ecount. injection Ecount as <-. lia. }
  cbv zeta.
  set (start := slice_start (n - number) (length rects)).
  fold (sliceTaken reverse number start rects).
  set (sel := sliceTaken reverse number start rects).
  intros E.
  assert (Hout : exists sub tp' log,
            (if sort then Some (Ok (RBPSolution.sortDescending sel, tp, []))
             else RBPSolution.perturb64 sel tp) = Some (Ok (sub, tp', log))
            /\ r = RBPSolution.mkRuined
                     (RBPSolution.set_rectList self
                        (Some (sliceReplaced reverse number start rects sub)))
                     tp' sel log).
  { destruct (if sort then _ else _) as [[[[sub tp'] log]|e]|];
      simpl in E; [|discriminate..].
    exists sub, tp', log. split; [reflexivity|]. by injection E as <-. }
  clear E. destruct Hout as (sub & tp' & log & Esub & ->).
  assert (Hperm : sub ≡ₚ sel
                  /\ (sort = true ->
                      sub = RBPSolution.sortDescending sel /\ tp' = tp
                      /\ log = [])
                  /\ (sort = false -> sub = applySwaps log sel)).
  { destruct sort.
    - injection Esub as <- <- <-. split; [apply sortDescending_perm|].
      split; [auto | discriminate].
    - destruct (perturb64_ok sel sub tp tp' log Esub) as (-> & _).
      split; [apply applySwaps_perm|]. split; [discriminate | auto]. }
  destruct Hperm as (Hperm & Hsort & Hswap).
  assert (Hwhole : sliceReplaced reverse number start rects sub ≡ₚ rects).
  { unfold sliceReplaced, sel, sliceTaken in *. destruct reverse.
    - rewrite Hperm. by rewrite take_drop.
    - rewrite Hperm. by rewrite take_drop. }
  exists rects, sub, n, number. split; [reflexivity|]. split; [reflexivity|].
  split; [exact Ecount|]. split; [exact Hnumber|].
  cbv zeta. split; [reflexivity|]. split; [reflexivity|].
  split; [exact Hperm|]. split; [exact Hwhole|].
  split; [apply Permutation_length; exact Hwhole|]. split.
  - intros Es. destruct (Hsort Es) as (-> & -> & ->).
    split; [reflexivity|]. split; [apply sortDescending_descending|].
    split; [apply sortDescending_of_descending | by split].
  - exact Hswap.
Qed.

Lemma removeAndRepack_only_reorders_the_items_witness :
  let self :=
    RBPSolution.mk 10 10 []
      (Some [Rect.new 4 6; Rect.new 5 5; Rect.new 6 4; Rect.new 2 2;
             Rect.new 3 3; Rect.new 1 7; Rect.new 2 5; Rect.new 8 1;
             Rect.new 3 4; Rect.new 2 2])
      (Some 10) (Some 1) in
  let percentage := Float64.lit (7 # 10) in
  exists r, RBPSolution.ruin64 self percentage true true [] = Some (Ok r)
  /\ exists (rects sub : list Rect.t) (n number : Z),
    RBPSolution.rectList self = Some rects
    /\ RBPSolution.numRects self = Some n
    /\ RBPSolution.removalCount64 percentage n = Ok number
    /\ 2 <= number
    /\ let start := slice_start (n - number) (length rects) in
       RBPSolution.taken r = sliceTaken true number start rects
       /\ RBPSolution.ruined r
          = RBPSolution.set_rectList self
              (Some (sliceReplaced true number start rects sub))
       /\ sub ≡ₚ RBPSolution.taken r
       /\ sliceReplaced true number start rects sub ≡ₚ rects
       /\ length (sliceReplaced true number start rects sub) = length rects
       /\ (true = true ->
           sub = RBPSolution.sortDescending (RBPSolution.taken r)
           /\ descending sub
           /\ (descending (RBPSolution.taken r) -> sub = RBPSolution.taken r)
           /\ RBPSolution.rest_tape r = []
           /\ RBPSolution.swapped r = [])
       /\ (true = false ->
           sub = applySwaps (RBPSolution.swapped r) (RBPSolution.taken r)).
Proof.
  intros self percentage. eexists. split; [vm_compute; reflexivity|].
  apply (removeAndRepack_only_reorders_the_items self percentage true true []).
  vm_compute. reflexivity.
Defined.

(** With the fraction 0.7 and ten items the slice that is sorted has
    eight items: the binary64 value of 0.7 lies below 7/10 and its exact
    product with 10 below 7, but Python's product rounds to 7.0. *)
Lemma ruin64_seven_tenths_takes_eight :
  let self :=
    RBPSolution.mk 10 10 []
      (Some [Rect.new 4 6; Rect.new 5 5; Rect.new 6 4; Rect.new 2 2;
             Rect.new 3 3; Rect.new 1 7; Rect.new 2 5; Rect.new 8 1;
             Rect.new 3 4; Rect.new 2 2])
      (Some 10) (Some 1) in
  exists r,
    RBPSolution.ruin64 self (Float64.lit (7 # 10)) true true [] = Some (Ok r)
    /\ length (RBPSolution.taken r) = 8%nat.
Proof.
  eexists. split; vm_compute; reflexivity.
Qed.

(** X22.  [swap] exchanges the items at two positions of the list and touches
    no other position; the list it leaves has the same items, and a
    second [swap] of the same positions restores it.  A position past the
    end of the list raises [IndexError]. *)
Theorem swap_exchanges_two_positions (l : list Rect.t) (i j : nat) :
  ((i < length l)%nat -> (j < length l)%nat ->
   exists l',
     RBPSolution.swap l i j = Ok l'
     /\ l' !! i = l !! j /\ l' !! j = l !! i
     /\ (forall k, k <> i -> k <> j -> l' !! k = l !! k)
     /\ length l' = length l /\ l' ≡ₚ l
     /\ RBPSolution.swap l' i j = Ok l)
  /\ ((length l <= i)%nat \/ (length l <= j)%nat ->
      RBPSolution.swap l i j = Raise IndexError).
Proof.
  unfold RBPSolution.swap. split.
  - intros Hi Hj.
    destruct (lookup_lt_is_Some_2 l i Hi) as (a & Ea).
    destruct (lookup_lt_is_Some_2 l j Hj) as (b & Eb).
    rewrite Ea, Eb. eexists. split; [reflexivity|].
    assert (Ei' : <[j:=a]> (<[i:=b]> l) !! i = Some b).
    { destruct (decide (i = j)) as [->|Hne].
      - rewrite list_lookup_insert_eq by (rewrite length_insert; lia).
        congruence.
      - rewrite list_lookup_insert_ne by auto.
        by rewrite list_lookup_insert_eq by lia. }
    assert (Ej' : <[j:=a]> (<[i:=b]> l) !! j = Some a).
    { by rewrite list_lookup_insert_eq by (rewrite length_insert; lia). }
    split; [congruence|]. split; [congruence|]. split; [|split; [|split]].
    + intros k Hki Hkj. by rewrite !list_lookup_insert_ne by auto.
    + by rewrite !length_insert.
    + by apply Permutation_insert_swap.
    + rewrite Ei', Ej'. f_equal.
      apply list_eq. intros k.
      destruct (decide (k = j)) as [->|Hkj].
      * rewrite list_lookup_insert_eq by (rewrite !length_insert; lia).
        congruence.
      * rewrite list_lookup_insert_ne by auto.
        destruct (decide (k = i)) as [->|Hki].
        -- rewrite list_lookup_insert_eq by (rewrite !length_insert; lia).
           congruence.
        -- by rewrite !list_lookup_insert_ne by auto.
  - intros [Hi | Hj].
    + by rewrite (lookup_ge_None_2 l i Hi).
    + rewrite (lookup_ge_None_2 l j Hj). by destruct (l !! i).
Qed.

(** ** The number of bins *)

Lemma chooseBin_length (heur : option PackingHeuristic) (bins : list Bin.t) :
  forall (cur : Rect.t) (k : nat) (st st' : RBPSolution.BestBin)
    (bins' : list Bin.t),
    RBPSolution.chooseBin heur cur k bins st = Ok (bins', st') ->
    length bins' = length bins.
Proof.
  induction bins as [|b bins IH]; intros cur k st st' bins' E.
  - simpl in E. by injection E as <- <-.
  - rewrite chooseBin_cons in E. cbv zeta in E.
    destruct (MaxSpaceBin.evaluatePacking b _ heur).2 as [o|e]; [|discriminate].
    cbn [mbind result_bind] in E.
    destruct (RBPSolution.chooseBin heur _ (S k) bins (updateBest k o st))
      as [[rest st1]|e] eqn:Erest; [|discriminate].
    cbn [mbind result_bind] in E. injection E as <- <-.
    simpl. f_equal. by eapply IH.
Qed.

(** A turn that returns keeps the bins it had and opens at most one. *)
Lemma packOne_length (self : RBPSolution.t) (heur : option PackingHeuristic)
    (bins bins' : list Bin.t) (cur cur' : Rect.t) :
  RBPSolution.packOne self heur bins cur = Ok (bins', cur') ->
  (length bins <= length bins' <= S (length bins))%nat.
Proof.
  unfold RBPSolution.packOne.
  destruct (RBPSolution.chooseBin heur cur 0 bins _) as [[bins1 st]|e] eqn:E;
    [|discriminate].
  cbn [mbind result_bind].
  pose proof (chooseBin_length heur bins _ _ _ _ _ E) as Hlen.
  destruct (RBPSolution.best st) as [[k c]|].
  - destruct (bins1 !! k) as [bestBin|]; [|discriminate].
    destruct (MaxSpaceBin.insert bestBin c heur) as [b1 [done|e]];
      [|discriminate].
    cbn [mbind result_bind]. intros [= <- _]. rewrite length_insert. lia.
  - destruct (MaxSpaceBin.insert _ _ heur) as [b1 [done|e]]; [|discriminate].
    cbn [mbind result_bind]. intros [= <- _]. rewrite length_app. simpl. lia.
Qed.

Lemma packLoop_length (self : RBPSolution.t) (heur : option PackingHeuristic)
    (rects : list Rect.t) :
  forall (bins bins' : list Bin.t) (rects' : list Rect.t),
    RBPSolution.packLoop self heur rects bins = Ok (bins', rects') ->
    (length bins <= length bins' <= length bins + length rects)%nat.
Proof.
  induction rects as [|r rects IH]; intros bins bins' rects' E; simpl in E.
  - injection E as <- _. simpl. lia.
  - destruct (RBPSolution.packOne self heur bins r) as [[bins1 r1]|e] eqn:E1;
      [|discriminate].
    cbn [mbind result_bind] in E.
    destruct (RBPSolution.packLoop self heur rects bins1) as [[bins2 rs]|e]
      eqn:E2; [|discriminate].
    cbn [mbind result_bind] in E. injection E as <- _.
    apply packOne_length in E1. apply IH in E2. simpl. lia.
Qed.

(** X23.  The lower bound and the item count are set by the first [pack] and
    never again: a [pack] on a solution that has a non-zero lower bound,
    with whatever list of items and heuristic, returns (when it returns) a
    solution with the lower bound it had and the item count ([size]) it
    had, not those of the new list.  It starts from that many bins, or from one bin when
    [first] is set, and opens at most one more bin for each item of the
    working list it leaves. *)
Theorem pack_keeps_the_first_lower_bound (self packed : RBPSolution.t)
    (items : option (list Rect.t)) (heur : option PackingHeuristic)
    (first : bool) (lb : Z) :
  RBPSolution.lowerbnd self = Some lb -> lb <> 0 ->
  RBPSolution.pack self items heur first = Ok packed ->
  RBPSolution.lowerbnd packed = Some lb
  /\ RBPSolution.size packed = RBPSolution.size self
  /\ RBPSolution.binWidth packed = RBPSolution.binWidth self
  /\ RBPSolution.binHeight packed = RBPSolution.binHeight self
  /\ exists rects,
       RBPSolution.rectList packed = Some rects
       /\ let opened := if first then 1%nat else Z.to_nat lb in
          (opened <= length (RBPSolution.binList packed)
           <= opened + length rects)%nat.
Proof.
  intros Elb Hlb. unfold RBPSolution.pack. cbv beta iota.
  set (self1 := match items with
                | Some (_ :: _) =>
                    RBPSolution.set_rectList (RBPSolution.set_binList self [])
                      items
                | _ => RBPSolution.set_binList self []
                end).
  assert (E1 : RBPSolution.lowerbnd self1 = Some lb
               /\ RBPSolution.numRects self1 = RBPSolution.numRects self
               /\ RBPSolution.binWidth self1 = RBPSolution.binWidth self
               /\ RBPSolution.binHeight self1 = RBPSolution.binHeight self).
  { unfold self1. destruct items as [[|? ?]|]; by repeat split. }
  destruct E1 as (Elb1 & En1 & EW1 & EH1).
  assert (Enl : RBPSolution.noLowerBound self1 = false).
  { unfold RBPSolution.noLowerBound. rewrite Elb1. by apply Z.eqb_neq. }
  rewrite Enl. cbn [mbind result_bind].
  simpl RBPSolution.rectList. simpl RBPSolution.lowerbnd. rewrite Elb1.
  simpl default.
  destruct (RBPSolution.rectList self1) as [rects|]; [|discriminate].
  destruct (RBPSolution.packLoop _ heur rects _) as [[bins rects']|e] eqn:Eloop;
    [|discriminate].
  cbn [mbind result_bind]. intros [= <-]. simpl.
  repeat (split; [assumption|]).
  exists rects'. split; [reflexivity|].
  assert (Hlen : length rects' = length rects).
  { clear -Eloop. revert Eloop.
    generalize (if negb first
                then replicate (Z.to_nat lb)
                       (RBPSolution.openNewBin (RBPSolution.set_binList self1 []))
                else [RBPSolution.openNewBin (RBPSolution.set_binList self1 [])]).
    revert bins rects'.
    induction rects as [|r rects IH]; intros bins rects' bins0 E; simpl in E.
    - by injection E as _ <-.
    - destruct (RBPSolution.packOne _ heur bins0 r) as [[bins1 r1]|e];
        [|discriminate].
      cbn [mbind result_bind] in E.
      destruct (RBPSolution.packLoop _ heur rects bins1) as [[bins2 rs]|e]
        eqn:E2; [|discriminate].
      cbn [mbind result_bind] in E. injection E as _ <-.
      simpl. f_equal. by eapply IH. }
  apply packLoop_length in Eloop. rewrite Hlen.
  destruct first; simpl in Eloop |- *; rewrite ?length_replicate in Eloop; lia.
Qed.

Lemma pack_keeps_the_first_lower_bound_witness :
  let self := RBPSolution.mk 10 10 [] None (Some 7) (Some 3) in
  exists packed : RBPSolution.t,
    RBPSolution.pack self (Some [Rect.new 6 4]) (Some BestAreaFit) false
    = Ok packed
    /\ RBPSolution.lowerbnd packed = Some 3
    /\ RBPSolution.size packed = RBPSolution.size self
    /\ RBPSolution.binWidth packed = RBPSolution.binWidth self
    /\ RBPSolution.binHeight packed = RBPSolution.binHeight self
    /\ exists rects,
         RBPSolution.rectList packed = Some rects
         /\ let opened := if false then 1%nat else Z.to_nat 3 in
            (opened <= length (RBPSolution.binList packed)
             <= opened + length rects)%nat.
Proof.
  intros self. eexists. split; [vm_compute; reflexivity|].
  apply (pack_keeps_the_first_lower_bound self _ (Some [Rect.new 6 4])
           (Some BestAreaFit) false 3).
  - reflexivity.
  - lia.
  - vm_compute. reflexivity.
Defined.





(** ** The size of a perturbation *)

Lemma py_int_le (q : Q) : (0 <= q)%Q -> (inject_Z (py_int q) <= q)%Q.
Proof.
  destruct q as [a d]. unfold Qle, py_int. simpl. intros Ha.
  rewrite Z.quot_div_nonneg by lia. rewrite Z.mul_1_r in Ha.
  pose proof (Z.mul_div_le a (Z.pos d)). lia.
Qed.

(** X25.  [perturb] leaves a list of at most two items alone and draws nothing.
    On a longer list it draws its strength and makes at least one
    exchange and, beyond one, at most 15% of the length of the list plus
    a half; the list keeps its items and its length. *)
Theorem perturb_makes_few_exchanges (sub sub' : list Rect.t) (tp tp' : tape)
    (log : list (nat * nat)) :
  RBPSolution.perturb sub tp = Some (Ok (sub', tp', log)) ->
  sub' = applySwaps log sub /\ sub' ≡ₚ sub /\ length sub' = length sub
  /\ ((length sub <= 2)%nat -> log = [] /\ sub' = sub /\ tp' = tp)
  /\ ((3 <= length sub)%nat ->
      (1 <= length log)%nat
      /\ (length log = 1%nat \/ (20 * length log <= 3 * length sub + 10)%nat)).
Proof.
  intros Hrun.
  destruct (perturb_spec sub tp _ Hrun)
    as (sub1 & tp1 & log1 & [= <- <- <-] & -> & _ & Hlong & Hshort).
  split; [reflexivity|]. split; [apply applySwaps_perm|].
  split; [apply Permutation_length, applySwaps_perm|].
  split.
  - intros Hlen. destruct (Hshort Hlen) as [-> ->]. by repeat split.
  - intros Hlen. unfold RBPSolution.perturb in Hrun.
    rewrite bool_decide_eq_false_2 in Hrun by lia.
    destruct (rng_random tp) as [[u tp1]|] eqn:Eu; [|discriminate].
    simpl in Hrun.
    destruct (rng_random_range tp tp1 u Eu) as [Hu0 Hu1].
    set (L := inject_Z (Z.of_nat (length sub))) in *.
    set (q := (((25 # 1000) + (125 # 1000) * u) * L + (1 # 2))%Q) in *.
    assert (HL : (0 < L)%Q).
    { unfold L. replace 0%Q with (inject_Z 0) by reflexivity.
      rewrite <- Zlt_Qlt. lia. }
    assert (Hq0 : (0 <= q)%Q) by (unfold q; nra).
    assert (Hq1 : (q < (3 # 20) * L + (1 # 2))%Q) by (unfold q; nra).
    pose proof (py_int_le q Hq0) as Hfloor.
    assert (Hbound : 20 * py_int q < 3 * Z.of_nat (length sub) + 10).
    { assert (Hlt : (inject_Z (py_int q) < (3 # 20) * L + (1 # 2))%Q)
        by (eapply Qle_lt_trans; eassumption).
      set (k := py_int q) in *. clearbody k.
      unfold L, Qlt in Hlt. simpl in Hlt. lia. }
    assert (Hsome : (0 < length sub)%nat) by lia.
    destruct (swaps_spec _ _ _ _ Hsome Hrun)
      as (sub2 & tp2 & log2 & [= _ _ <-] & Hcount & _).
    rewrite Hcount. split; [lia|].
    destruct (Z.max_spec (py_int q) 1) as [[_ ->] | [_ ->]]; [by left | lia].
Qed.

Lemma perturb_makes_few_exchanges_witness :
  let sub := [Rect.new 6 4; Rect.new 4 6; Rect.new 5 5] in
  exists sub' tp' log,
    RBPSolution.perturb sub [0%N; 0%N; 1%N] = Some (Ok (sub', tp', log))
    /\ sub' = applySwaps log sub /\ sub' ≡ₚ sub /\ length sub' = length sub
    /\ ((length sub <= 2)%nat -> log = [] /\ sub' = sub /\ tp' = [0%N; 0%N; 1%N])
    /\ ((3 <= length sub)%nat ->
        (1 <= length log)%nat
        /\ (length log = 1%nat \/ (20 * length log <= 3 * length sub + 10)%nat)).
Proof.
  intros sub. eexists _, _, _. split; [vm_compute; reflexivity|].
  apply (perturb_makes_few_exchanges sub _ [0%N; 0%N; 1%N]).
  vm_compute. reflexivity.
Defined.

(** ** Taking every item *)

Lemma removalCount_one (n : Z) :
  1 <= n -> RBPSolution.removalCount 1 n = n + 1.
Proof.
  intros Hn. rewrite removalCount_floor by (unfold Qle; simpl; lia).
  unfold Qfloor. simpl. rewrite Z.div_1_r. destruct n; lia.
Qed.

Lemma sortDescending_one (l : list Rect.t) :
  length l = 1%nat -> RBPSolution.sortDescending l = l.
Proof. destruct l as [|x [|y l]]; try discriminate. reflexivity. Qed.

(** X26.  [removeAndRepack] with [percentage] 1.0 counts one item more than the
    list has.  When it takes the items from the front ([reverse]) that is
    the whole list; when it takes them from the back the slice starts at
    index -1, so only the last item is taken, nothing is reordered and no
    random number is drawn. *)
Theorem removeAndRepack_of_every_item_takes_the_last (self : RBPSolution.t)
    (rects : list Rect.t) (sort : bool) (tp : tape) :
  RBPSolution.rectList self = Some rects ->
  RBPSolution.numRects self = Some (Z.of_nat (length rects)) ->
  (2 <= length rects)%nat ->
  RBPSolution.removalCount 1 (Z.of_nat (length rects))
  = Z.of_nat (length rects) + 1
  /\ (exists r,
        RBPSolution.ruin self 1 false sort tp = Some (Ok r)
        /\ RBPSolution.taken r = drop (length rects - 1) rects
        /\ length (RBPSolution.taken r) = 1%nat
        /\ RBPSolution.ruined r = RBPSolution.set_rectList self (Some rects)
        /\ RBPSolution.rest_tape r = tp
        /\ RBPSolution.swapped r = [])
  /\ (forall r,
        RBPSolution.ruin self 1 true sort tp = Some (Ok r) ->
        RBPSolution.taken r = rects).
Proof.
  intros Erects En Hlen.
  assert (Ecount : RBPSolution.removalCount 1 (Z.of_nat (length rects))
                   = Z.of_nat (length rects) + 1)
    by (apply removalCount_one; lia).
  split; [exact Ecount|]. unfold RBPSolution.ruin.
  replace (Qltb 1 0 || Qltb 1 1) with false by reflexivity.
  rewrite Erects, En.
  destruct rects as [|r0 rects0] eqn:Es; [simpl in Hlen; lia|].
  rewrite <- Es in *. clear Es. cbv zeta. rewrite Ecount. split.
  - assert (Estart : slice_start (Z.of_nat (length rects)
                                  - (Z.of_nat (length rects) + 1))
                       (length rects) = (length rects - 1)%nat).
    { unfold slice_start.
      replace (Z.of_nat (length rects) - (Z.of_nat (length rects) + 1))
        with (-1) by lia.
      simpl. lia. }
    rewrite Estart.
    assert (Hone : length (drop (length rects - 1) rects) = 1%nat)
      by (rewrite length_drop; lia).
    assert (Esub : (if sort
                    then Some (Ok (RBPSolution.sortDescending
                                     (drop (length rects - 1) rects), tp, []))
                    else RBPSolution.perturb (drop (length rects - 1) rects) tp)
                   = Some (Ok (drop (length rects - 1) rects, tp, []))).
    { destruct sort.
      - by rewrite sortDescending_one.
      - unfold RBPSolution.perturb. by rewrite bool_decide_eq_true_2 by lia. }
    rewrite Esub. simpl. rewrite take_drop.
    eexists. split; [reflexivity|]. by repeat split.
  - intros r Hr.
    destruct (if sort then _ else _) as [[[[sub tp'] log]|e]|];
      simpl in Hr; [|discriminate..].
    injection Hr as <-. simpl. apply take_ge. lia.
Qed.

Lemma removeAndRepack_of_every_item_takes_the_last_witness :
  let rects := [Rect.new 6 4; Rect.new 4 6; Rect.new 5 5] in
  let self := RBPSolution.mk 10 10 [] (Some rects) (Some 3) (Some 1) in
  RBPSolution.removalCount 1 (Z.of_nat (length rects))
  = Z.of_nat (length rects) + 1
  /\ (exists r,
        RBPSolution.ruin self 1 false false [] = Some (Ok r)
        /\ RBPSolution.taken r = drop (length rects - 1) rects
        /\ length (RBPSolution.taken r) = 1%nat
        /\ RBPSolution.ruined r = RBPSolution.set_rectList self (Some rects)
        /\ RBPSolution.rest_tape r = []
        /\ RBPSolution.swapped r = [])
  /\ (forall r,
        RBPSolution.ruin self 1 true false [] = Some (Ok r) ->
        RBPSolution.taken r = rects).
Proof.
  intros rects self.
  apply (removeAndRepack_of_every_item_takes_the_last self rects false []).
  - reflexivity.
  - reflexivity.
  - simpl. lia.
Defined.

(** ** The free spaces are the maximal empty rectangles *)

Lemma residuals_complete (f c r : Rect.t) :
  positive r -> positive c -> Bin.isOverlapping f c = true ->
  within r f -> ~ interiors_intersect r c ->
  exists g, g ∈ MaxSpaceBin.residuals f c /\ within r g.
Proof.
  intros [Hrw Hrh] [Hcw Hch] Hov Hw Hclear.
  apply Bin_isOverlapping_true in Hov.
  rewrite interiors_intersect_iff in Hclear. unfold within in Hw.
  unfold MaxSpaceBin.residuals.
  assert (E1 : (Rect.x c <? Rect.x f + Rect.width f)
               && (Rect.x c + Rect.width c >? Rect.x f) = true).
  { rewrite Z.gtb_ltb. apply andb_true_iff. split; apply Z.ltb_lt; lia. }
  assert (E2 : (Rect.y c <? Rect.y f + Rect.height f)
               && (Rect.y c + Rect.height c >? Rect.y f) = true).
  { rewrite Z.gtb_ltb. apply andb_true_iff. split; apply Z.ltb_lt; lia. }
  rewrite E1, E2. setoid_rewrite elem_of_app. setoid_rewrite elem_of_app.
  destruct (Z.le_gt_cases (Rect.y r + Rect.height r) (Rect.y c)) as [Hb | Hb].
  { eexists. split.
    - left. left.
      rewrite (proj2 (andb_true_iff _ _));
        [apply list_elem_of_singleton; reflexivity|].
      rewrite Z.gtb_ltb. split; apply Z.ltb_lt; lia.
    - unfold within. simpl. lia. }
  destruct (Z.le_gt_cases (Rect.y c + Rect.height c) (Rect.y r)) as [Ht | Ht].
  { eexists. split.
    - left. right.
      rewrite (proj2 (andb_true_iff _ _));
        [apply list_elem_of_singleton; reflexivity|].
      rewrite Z.gtb_ltb. split; apply Z.ltb_lt; lia.
    - unfold within. simpl. lia. }
  destruct (Z.le_gt_cases (Rect.x r + Rect.width r) (Rect.x c)) as [Hl | Hl].
  { eexists. split.
    - right. left.
      rewrite (proj2 (andb_true_iff _ _));
        [apply list_elem_of_singleton; reflexivity|].
      rewrite Z.gtb_ltb. split; apply Z.ltb_lt; lia.
    - unfold within. simpl. lia. }
  eexists. split.
  - right. right.
    rewrite (proj2 (andb_true_iff _ _));
      [apply list_elem_of_singleton; reflexivity|].
    rewrite Z.gtb_ltb. split; apply Z.ltb_lt; lia.
  - unfold within. simpl. lia.
Qed.

Lemma setup_complete (start : Bin.t) : complete (MaxSpaceBin.setup start).
Proof.
  intros r _ [Hin _]. eexists. split; [simpl; apply list_elem_of_here|].
  unfold within, insideBin in *. simpl in *. lia.
Qed.

Lemma remembered_complete (self : Bin.t) (heur : option PackingHeuristic) :
  complete self -> complete (remembered self heur).
Proof.
  unfold remembered. destruct (Bin.packHeur self); [done|].
  intros Hc r Hr He. exact (Hc r Hr He).
Qed.

Lemma committed_complete (self : Bin.t) (c : Rect.t) :
  positive c -> complete self -> complete (committed self c).
Proof.
  intros Hc Hcomp r Hr [Hin Hclear].
  destruct (committed_fields self c) as (EW & EH & _ & _ & Ep & _ & Ef).
  destruct (Hcomp r Hr) as (f & Hf & Hw).
  { split.
    - unfold insideBin in *. by rewrite EW, EH in Hin.
    - intros p Hp. apply Hclear. rewrite Ep. apply elem_of_app. by left. }
  assert (Hrc : ~ interiors_intersect r c).
  { apply Hclear. rewrite Ep. apply elem_of_app. right.
    apply list_elem_of_here. }
  assert (Hg : exists g,
            g ∈ keptSpaces c (Bin.freeRects self)
                ++ newSpaces c (Bin.freeRects self)
            /\ within r g).
  { destruct (Bin.isOverlapping f c) eqn:Hov.
    - destruct (residuals_complete f c r Hr Hc Hov Hw Hrc) as (g & Hg & Hwg).
      exists g. split; [|exact Hwg]. apply elem_of_app. right.
      apply list_elem_of_bind. exists f. rewrite Hov. auto.
    - exists f. split; [|exact Hw]. apply elem_of_app. left.
      apply list_elem_of_filter. auto. }
  destruct Hg as (g & Hg & Hwg). apply list_elem_of_lookup_1 in Hg as [a Ha].
  destruct (pruned_above _ a g Ha) as (g' & Hg' & Hw').
  exists g'. rewrite Ef. split; [exact Hg'|]. by eapply within_trans.
Qed.

Lemma afterPlacements_complete (start self : Bin.t) :
  afterPlacements (MaxSpaceBin.setup start) self -> complete self.
Proof.
  induction 1 as [|self rect heur self' Hafter IH Hready Hrect Hins].
  - apply setup_complete.
  - destruct (afterPlacements_invariant start self Hafter)
      as (Hfs & Hpl & _).
    apply insert_true in Hins
      as (self1 & c & -> & [(Hr & _) | (_ & -> & Hc)]); [congruence|].
    destruct (committed_placed self rect c heur Hfs Hpl Hc) as (_ & _ & Hcpos).
    apply committed_complete; [by apply Hcpos|].
    by apply remembered_complete.
Qed.

Lemma free_space_empty (self : Bin.t) (f r : Rect.t) :
  freeSpaceInvariant self -> f ∈ Bin.freeRects self -> within r f ->
  emptyIn self r.
Proof.
  intros Hfs Hf Hw. split.
  - pose proof (spaces_inside _ Hfs f Hf) as Hin.
    unfold insideBin, within in *. lia.
  - intros p Hp. apply (within_disjoint r f p Hw).
    by apply (spaces_clear _ Hfs f p Hf).
Qed.

(** X27.  A bin set up and then filled by [insert] alone, with items of
    positive size that carry no position: after every insert that returns
    [True], a rectangle of positive size lies inside the bin and clear of
    the packed items exactly when it lies within one of the free spaces.
    Every free space is such an empty rectangle, and none can be
    enlarged: an empty rectangle that contains a free space has the
    extent of that space. *)
Theorem free_spaces_are_the_maximal_empty_rectangles (start self : Bin.t) :
  afterPlacements (MaxSpaceBin.setup start) self ->
  (forall r, positive r ->
     (emptyIn self r <-> exists f, f ∈ Bin.freeRects self /\ within r f))
  /\ (forall f, f ∈ Bin.freeRects self -> emptyIn self f)
  /\ (forall f r, f ∈ Bin.freeRects self -> positive r -> emptyIn self r ->
        within f r -> within r f).
Proof.
  intros Hafter.
  destruct (afterPlacements_invariant start self Hafter) as (Hfs & _).
  pose proof (afterPlacements_complete start self Hafter) as Hcomp.
  split; [|split].
  - intros r Hr. split; [by apply Hcomp|].
    intros (f & Hf & Hw). by eapply free_space_empty.
  - intros f Hf. eapply free_space_empty; eauto using within_refl.
  - intros f r Hf Hr He Hw.
    destruct (Hcomp r Hr He) as (f' & Hf' & Hw').
    apply list_elem_of_lookup_1 in Hf as [i Hi].
    apply list_elem_of_lookup_1 in Hf' as [j Hj].
    destruct (decide (i = j)) as [-> | Hne].
    + rewrite Hi in Hj. injection Hj as <-. exact Hw'.
    + exfalso. apply (spaces_maximal _ Hfs i j f f' Hne Hi Hj).
      by eapply within_trans.
Qed.

Lemma free_spaces_are_the_maximal_empty_rectangles_witness :
  let start := MaxSpaceBin.new 10 10 in
  let self :=
    (MaxSpaceBin.insert (MaxSpaceBin.setup start) (Rect.new 4 6)
       (Some BestAreaFit)).1 in
  (forall r, positive r ->
     (emptyIn self r <-> exists f, f ∈ Bin.freeRects self /\ within r f))
  /\ (forall f, f ∈ Bin.freeRects self -> emptyIn self f)
  /\ (forall f r, f ∈ Bin.freeRects self -> positive r -> emptyIn self r ->
        within f r -> within r f).
Proof.
  intros start self.
  apply (free_spaces_are_the_maximal_empty_rectangles start self).
  apply (afterPlacements_step _ (MaxSpaceBin.setup start) (Rect.new 4 6)
           (Some BestAreaFit) self).
  - apply afterPlacements_none.
  - reflexivity.
  - unfold positive. simpl. lia.
  - vm_compute. reflexivity.
Defined.

(** ** What [insert] rejects *)









(** ** When [pack] opens a bin *)






(** ** No bin stays empty *)






